(** * Skiplist-CPP: a shallow embedding of the skip-list index and its
      persistence wrapper, with the properties of the specification.

    The C++ templates are read at the instantiation used by [main.cpp]
    and by the stress test, [K = int] and [V = std::string].

    - Pointers [Node<K,V>*] are addresses into an explicit heap
      ([gmap addr Node]); [nullptr] is [None].
    - Every operation runs in the [option] monad: [None] stands for
      undefined behaviour of the C++ program (a null or dangling
      dereference, a vector index out of range) or for a loop that does not
      terminate.  The pointer-chasing [while] loops carry a fuel bounded by
      the number of allocated nodes.
    - [get_random_level] reads a stream of coin flips, one per evaluation of
      [distribution(generator) < P_FACTOR].
    - A key is an integer: the index only compares keys, and the range of
      [int] matters to the text of a snapshot alone ([int_range]).
    - The files and [std::cerr] are a [World] that [dump] and [load] read
      and write; the threads of the last part share an index and its
      [std::shared_mutex]. *)

From Stdlib Require Import ZArith Ascii String DecimalString DecimalPos DecimalZ.
From stdpp Require Import gmap strings list fin_maps sorting.

Local Open Scope Z_scope.
Local Open Scope nat_scope.

(* The solvers of stdpp clear hypotheses that may be gone already. *)
#[local] Set Warnings "-clear-no-such-hyp".

(** * The program *)

(** ** Node.h *)

Definition addr := nat.

(** [class Node]: [key_], [value_], [node_level_] and the vector of
    successors [forward_]. *)
Record Node := mkNode {
  key_ : Z;
  value_ : string;
  node_level_ : nat;
  forward_ : list (option addr)
}.

(** [Node(K k, V v, int level)]: [forward_.resize(level + 1, nullptr)]. *)
Definition Node_new (k : Z) (v : string) (level : nat) : Node :=
  mkNode k v level (replicate (level + 1) None).

Definition set_forward (n : Node) (fw : list (option addr)) : Node :=
  mkNode (key_ n) (value_ n) (node_level_ n) fw.

Definition set_value (n : Node) (v : string) : Node :=
  mkNode (key_ n) v (node_level_ n) (forward_ n).

(** ** SkipList.h *)

Definition MAX_LEVEL : nat := 32.
Arguments MAX_LEVEL : simpl never.

(** The private members of [class SkipList], with the heap its nodes live
    in.  [current_level_] stays within [0, MAX_LEVEL] and is a [nat];
    [element_count_] is the [int] counter read as an integer (its overflow
    is undefined in C++ and needs more than [2^31 - 1] live nodes).  The
    member [mutex_] matters to threads only: a call that runs alone takes
    and releases it, and it is kept with the index in [Shared] below. *)
Record SkipList := mkSkipList {
  header_ : addr;
  current_level_ : nat;
  element_count_ : Z;
  heap : gmap addr Node
}.

(** *** Memory accesses *)

(** [v[i]] on a [std::vector]: out of range is undefined. *)
Definition vec_get {A} (v : list A) (i : nat) : option A := v !! i.

(** [v[i] = x]. *)
Definition vec_set {A} (v : list A) (i : nat) (x : A) : option (list A) :=
  if decide (i < length v) then Some (<[i := x]> v) else None.

(** [p->forward_[i]]. *)
Definition fwd (h : gmap addr Node) (p : addr) (i : nat)
  : option (option addr) :=
  n ← h !! p; vec_get (forward_ n) i.

(** [p->forward_[i] = q]. *)
Definition set_fwd (h : gmap addr Node) (p : addr) (i : nat)
    (q : option addr) : option (gmap addr Node) :=
  n ← h !! p;
  fw ← vec_set (forward_ n) i q;
  Some (<[p := set_forward n fw]> h).

(** Dereference of a pointer held in the [update] vector. *)
Definition ptr {A} (o : option (option A)) : option A := mjoin o.

(** [new Node<K, V>(...)]: an address that is not allocated. *)
Definition alloc (h : gmap addr Node) (n : Node) : addr * gmap addr Node :=
  let a := fresh (dom h) in (a, <[a := n]> h).

(** [for (...) body], over the given indices, threading the state. *)
Fixpoint for_each {A S : Type} (body : A → S → option S) (l : list A) (s : S)
  : option S :=
  match l with
  | [] => Some s
  | i :: l' => s' ← body i s; for_each body l' s'
  end.

(** *** get_random_level *)

(** The thread-local generator: the outcomes of the successive tests
    [distribution(generator) < P_FACTOR]. *)
Definition Gen := nat → bool.

Definition draw (g : Gen) : bool * Gen := (g 0, λ n, g (S n)).

(** [while (distribution(generator) < P_FACTOR && lvl < MAX_LEVEL) lvl++;]
    The coin is drawn before the level is compared. *)
Fixpoint random_level_loop (fuel : nat) (g : Gen) (lvl : nat)
  : option (nat * Gen) :=
  match fuel with
  | 0 => None
  | S fuel' =>
      let '(c, g') := draw g in
      if c && bool_decide (lvl < MAX_LEVEL)
      then random_level_loop fuel' g' (S lvl)
      else Some (lvl, g')
  end.

Definition get_random_level (g : Gen) : option (nat * Gen) :=
  random_level_loop (S MAX_LEVEL) g 0.

(** *** Constructor *)

(** [SkipList()]: the header is a node of level [MAX_LEVEL]; its key and
    value are default-initialised and never read. *)
Definition SkipList_new : SkipList :=
  let '(hd, h) := alloc ∅ (Node_new 0%Z "" MAX_LEVEL) in
  mkSkipList hd 0 0 h.

(** *** The top-down walk *)

(** [while (current->forward_[i] && current->forward_[i]->key_ < key)
      current = current->forward_[i];] *)
Fixpoint advance (fuel : nat) (h : gmap addr Node) (i : nat) (key : Z)
    (current : addr) : option addr :=
  match fuel with
  | 0 => None
  | S fuel' =>
      nxt ← fwd h current i;
      match nxt with
      | None => Some current
      | Some p =>
          n ← h !! p;
          if bool_decide (key_ n < key)%Z
          then advance fuel' h i key p
          else Some current
      end
  end.

(** [for (int i = current_level_; i >= 0; --i) { while ...; }] of
    [search_element]; [n] is [i + 1]. *)
Fixpoint descend (n : nat) (h : gmap addr Node) (key : Z) (current : addr)
  : option addr :=
  match n with
  | 0 => Some current
  | S i =>
      cur ← advance (size h) h i key current;
      descend i h key cur
  end.

(** The same loop with [update[i] = current;] of [insert_element] and
    [delete_element]. *)
Fixpoint find_path (n : nat) (h : gmap addr Node) (key : Z) (current : addr)
    (update : list (option addr)) : option (addr * list (option addr)) :=
  match n with
  | 0 => Some (current, update)
  | S i =>
      cur ← advance (size h) h i key current;
      upd ← vec_set update i (Some cur);
      find_path i h key cur upd
  end.

(** *** search_element *)

(** [bool search_element(const K& key, V& value)]: the result and the
    content of the out-parameter [value] after the call. *)
Definition search_element (s : SkipList) (key : Z) (value : string)
  : option (bool * string) :=
  current ← descend (S (current_level_ s)) (heap s) key (header_ s);
  nxt ← fwd (heap s) current 0;
  match nxt with
  | None => Some (false, value)
  | Some c =>
      n ← heap s !! c;
      if bool_decide (key_ n = key)
      then Some (true, value_ n)
      else Some (false, value)
  end.

(** *** process_all *)

(** [while (node != nullptr) { func(node->key_, node->value_);
    node = node->forward_[0]; }], with [func] collecting the pairs. *)
Fixpoint process_loop (fuel : nat) (h : gmap addr Node) (node : option addr)
  : option (list (Z * string)) :=
  match node with
  | None => Some []
  | Some p =>
      match fuel with
      | 0 => None
      | S fuel' =>
          n ← h !! p;
          nxt ← vec_get (forward_ n) 0;
          rest ← process_loop fuel' h nxt;
          Some ((key_ n, value_ n) :: rest)
      end
  end.

Definition process_all (s : SkipList) : option (list (Z * string)) :=
  node ← fwd (heap s) (header_ s) 0;
  process_loop (size (heap s)) (heap s) node.

(** *** insert_element *)

(** Step 2 of [insert_element]: [current = current->forward_[0];
    if (current && current->key_ == key)]. *)
Definition target (h : gmap addr Node) (current : addr) (key : Z)
  : option (option (addr * Node)) :=
  nxt ← fwd h current 0;
  match nxt with
  | None => Some None
  | Some c =>
      n ← h !! c;
      Some (if bool_decide (key_ n = key) then Some (c, n) else None)
  end.

(** Step 3: [for (int i = current_level_ + 1; i <= random_level; i++)
    update[i] = header_;] *)
Definition raise_update (hdr : addr) (cl random_level : nat)
    (update : list (option addr)) : option (list (option addr)) :=
  for_each (λ i upd, vec_set upd i (Some hdr))
           (seq (S cl) (random_level - cl)) update.

(** Step 4: [new_node->forward_[i] = update[i]->forward_[i];
    update[i]->forward_[i] = new_node;] for [i = 0 .. random_level]. *)
Definition link_level (update : list (option addr)) (new_node : addr)
    (i : nat) (h : gmap addr Node) : option (gmap addr Node) :=
  u ← ptr (vec_get update i);
  nxt ← fwd h u i;
  h' ← set_fwd h new_node i nxt;
  set_fwd h' u i (Some new_node).

Definition insert_element (g : Gen) (s : SkipList) (key : Z) (value : string)
  : option (bool * SkipList * Gen) :=
  let h := heap s in
  '(current, update) ←
    find_path (S (current_level_ s)) h key (header_ s)
              (replicate (MAX_LEVEL + 1) None);
  found ← target h current key;
  match found with
  | Some (c, n) =>
      Some (true,
            mkSkipList (header_ s) (current_level_ s) (element_count_ s)
                       (<[c := set_value n value]> h),
            g)
  | None =>
      '(random_level, g') ← get_random_level g;
      '(update, cl) ←
        (if decide (current_level_ s < random_level)
         then upd ← raise_update (header_ s) (current_level_ s)
                                 random_level update;
              Some (upd, random_level)
         else Some (update, current_level_ s));
      let '(new_node, h1) := alloc h (Node_new key value random_level) in
      h2 ← for_each (link_level update new_node) (seq 0 (S random_level)) h1;
      Some (true,
            mkSkipList (header_ s) cl (element_count_ s + 1)%Z h2,
            g')
  end.

(** *** delete_element *)

(** [delete p]: releasing memory that is not allocated is undefined. *)
Definition free (h : gmap addr Node) (p : addr) : option (gmap addr Node) :=
  _ ← h !! p; Some (delete p h).

(** Step 3 of [delete_element]: [for (int i = 0; i <= current_level_; ++i)
    { if (update[i]->forward_[i] != current) break;
      update[i]->forward_[i] = current->forward_[i]; }] *)
Fixpoint unlink (levels : list nat) (update : list (option addr))
    (current : addr) (h : gmap addr Node) : option (gmap addr Node) :=
  match levels with
  | [] => Some h
  | i :: levels' =>
      u ← ptr (vec_get update i);
      nxt ← fwd h u i;
      if decide (nxt = Some current)
      then
        succ ← fwd h current i;
        h' ← set_fwd h u i succ;
        unlink levels' update current h'
      else Some h
  end.

(** Step 4: [while (current_level_ > 0 &&
    header_->forward_[current_level_] == nullptr) --current_level_;] *)
Fixpoint lower_level (h : gmap addr Node) (hdr : addr) (cl : nat)
  : option nat :=
  match cl with
  | 0 => Some 0
  | S cl' =>
      nxt ← fwd h hdr cl;
      match nxt with
      | None => lower_level h hdr cl'
      | Some _ => Some cl
      end
  end.

Definition delete_element (s : SkipList) (key : Z)
  : option (bool * SkipList) :=
  let h := heap s in
  '(current, update) ←
    find_path (S (current_level_ s)) h key (header_ s)
              (replicate (MAX_LEVEL + 1) None);
  found ← target h current key;
  match found with
  | None => Some (false, s)
  | Some (c, _) =>
      h1 ← unlink (seq 0 (S (current_level_ s))) update c h;
      cl ← lower_level h1 (header_ s) (current_level_ s);
      h2 ← free h1 c;
      Some (true, mkSkipList (header_ s) cl (element_count_ s - 1)%Z h2)
  end.

(** *** clear *)

(** [while (current) { next = current->forward_[0]; delete current;
    current = next; }] *)
Fixpoint free_chain (fuel : nat) (h : gmap addr Node) (current : option addr)
  : option (gmap addr Node) :=
  match current with
  | None => Some h
  | Some p =>
      match fuel with
      | 0 => None
      | S fuel' =>
          next ← fwd h p 0;
          h' ← free h p;
          free_chain fuel' h' next
      end
  end.

(** [clear()]: release every node of level 0, then
    [std::fill(header_->forward_.begin(), header_->forward_.end(), nullptr)]
    and reset the two counters. *)
Definition clear (s : SkipList) : option SkipList :=
  current ← fwd (heap s) (header_ s) 0;
  h1 ← free_chain (size (heap s)) (heap s) current;
  hn ← h1 !! header_ s;
  let hn' := set_forward hn (replicate (length (forward_ hn)) None) in
  Some (mkSkipList (header_ s) 0 0 (<[header_ s := hn']> h1)).

(** ** KVStore.h *)

(** *** Text of keys: [operator<<] and [operator>>] on [int] *)

Definition INT_MAX : Z := 2147483647.
Definition INT_MIN : Z := -2147483648.

Definition int_range (z : Z) : Prop := (INT_MIN ≤ z ≤ INT_MAX)%Z.

(** [out_file << key]: the decimal digits, after [-] for a negative key. *)
Definition show_int (z : Z) : string := NilZero.string_of_int (Z.to_int z).

Definition digit_of (c : ascii) : option Z :=
  let n := nat_of_ascii c in
  if decide (48 ≤ n ≤ 57) then Some (Z.of_nat (n - 48)) else None.

Definition is_space (c : ascii) : bool :=
  let n := nat_of_ascii c in
  bool_decide (n = 32 ∨ 9 ≤ n ≤ 13).

Fixpoint skip_ws (s : string) : string :=
  match s with
  | String c s' => if is_space c then skip_ws s' else s
  | EmptyString => s
  end.

(** The value of the longest prefix of digits, after the digits [acc]. *)
Fixpoint read_digits (s : string) (acc : Z) : Z :=
  match s with
  | String c s' =>
      match digit_of c with
      | Some d => read_digits s' (10 * acc + d)%Z
      | None => acc
      end
  | EmptyString => acc
  end.

Definition starts_with_digit (s : string) : bool :=
  match s with
  | String c _ => bool_decide (is_Some (digit_of c))
  | EmptyString => false
  end.

(** [ss >> key] for an [int]: leading white space is skipped, then an
    optional sign and the digits are read.  Without a digit the extraction
    fails and stores 0; a value out of range is stored as the nearest
    bound. *)
Definition parse_int (s : string) : Z :=
  let s1 := skip_ws s in
  let '(negative, s2) :=
    match s1 with
    | String "-" s' => (true, s')
    | String "+" s' => (false, s')
    | _ => (false, s1)
    end in
  if starts_with_digit s2
  then
    let n := read_digits s2 0 in
    Z.max INT_MIN (Z.min INT_MAX (if negative then - n else n))
  else 0%Z.

(** *** Lines of a file *)

Definition newline : ascii := "010"%char.
Definition delimiter : ascii := ":"%char.

(** [while (std::getline(in_file, line))]: the successive lines, each
    without its newline; what follows the last newline is a line when it
    is not empty. *)
Fixpoint getlines (s : string) : list string :=
  match s with
  | EmptyString => []
  | String c s' =>
      if Ascii.eqb c newline then EmptyString :: getlines s'
      else match getlines s' with
           | [] => [String c EmptyString]
           | line :: lines => String c line :: lines
           end
  end.

(** [line.find(':')]: [None] is [std::string::npos]. *)
Fixpoint find_char (c : ascii) (s : string) : option nat :=
  match s with
  | EmptyString => None
  | String a s' => if Ascii.eqb a c then Some 0 else S <$> find_char c s'
  end.

(** [line.substr(pos)]. *)
Definition substr_from (pos : nat) (s : string) : string :=
  substring pos (String.length s - pos) s.

(** *** The files and the error stream *)

(** The files that exist, with their content; the paths that cannot be
    opened (a missing directory, a file without permission); and what was
    written to [std::cerr]. *)
Record World := mkWorld {
  files : gmap string string;
  unopenable : gset string;
  cerr : list string
}.

(** [std::ofstream out_file(path)]: creates or truncates the file. *)
Definition open_out (w : World) (path : string) : option World :=
  if decide (path ∈ unopenable w) then None
  else Some (mkWorld (<[path := EmptyString]> (files w)) (unopenable w)
                     (cerr w)).

(** [std::ifstream in_file(path)]: the content of the file. *)
Definition open_in (w : World) (path : string) : option string :=
  if decide (path ∈ unopenable w) then None else files w !! path.

Definition write_file (w : World) (path content : string) : World :=
  mkWorld (<[path := content]> (files w)) (unopenable w) (cerr w).

Definition write_cerr (w : World) (msg : string) : World :=
  mkWorld (files w) (unopenable w) (cerr w ++ [msg]).

(** *** class KVStore *)

Record KVStore := mkKVStore {
  skip_list_ : SkipList;
  file_path_ : string
}.

Definition with_index (st : KVStore) (s : SkipList) : KVStore :=
  mkKVStore s (file_path_ st).

(** [void put(const K& key, const V& value)]. *)
Definition put (g : Gen) (st : KVStore) (key : Z) (value : string)
  : option (unit * KVStore * Gen) :=
  '(_, s', g') ← insert_element g (skip_list_ st) key value;
  Some (tt, with_index st s', g').

(** [bool get(const K& key, V& value)]. *)
Definition get (st : KVStore) (key : Z) (value : string)
  : option (bool * string) :=
  search_element (skip_list_ st) key value.

(** [void del(const K& key)]: the result of [delete_element] is dropped. *)
Definition del (st : KVStore) (key : Z) : option (unit * KVStore) :=
  '(_, s') ← delete_element (skip_list_ st) key;
  Some (tt, with_index st s').

(** [void clear()] of the store. *)
Definition store_clear (st : KVStore) : option (unit * KVStore) :=
  s' ← clear (skip_list_ st); Some (tt, with_index st s').

(** [out_file << key << ":" << value << "\n"]. *)
Definition dump_line (kv : Z * string) : string :=
  (show_int kv.1 ++ String delimiter kv.2 ++ String newline EmptyString)%string.

Fixpoint concat_lines (lines : list string) : string :=
  match lines with
  | [] => EmptyString
  | l :: lines' => (l ++ concat_lines lines')%string
  end.

(** [std::cerr << "Error opening file for dump: " << file_path_
    << std::endl]. *)
Definition dump_error (path : string) : string :=
  "Error opening file for dump: " +:+ path +:+ String newline EmptyString.

(** [void dump()]: the store is only read. *)
Definition dump (st : KVStore) (w : World) : option (unit * KVStore * World) :=
  match open_out w (file_path_ st) with
  | None => Some (tt, st, write_cerr w (dump_error (file_path_ st)))
  | Some w1 =>
      kvs ← process_all (skip_list_ st);
      Some (tt, st,
            write_file w1 (file_path_ st) (concat_lines (dump_line <$> kvs)))
  end.

(** The body of the [while] of [load], for one line. *)
Definition load_line (line : string) (acc : SkipList * Gen)
  : option (SkipList * Gen) :=
  match find_char delimiter line with
  | Some pos =>
      let key_str := substring 0 pos line in
      let value_str := substr_from (pos + 1) line in
      let key := parse_int key_str in
      '(_, s', g') ← insert_element acc.2 acc.1 key value_str;
      Some (s', g')
  | None => Some acc
  end.

(** [void load()]: nothing is written, to a file or to [std::cerr]. *)
Definition load (g : Gen) (st : KVStore) (w : World)
  : option (unit * KVStore * Gen) :=
  match open_in w (file_path_ st) with
  | None => Some (tt, st, g)
  | Some content =>
      '(s', g') ← for_each load_line (getlines content) (skip_list_ st, g);
      Some (tt, with_index st s', g')
  end.

(** [KVStore(const std::string& path)]. *)
Definition KVStore_new (g : Gen) (path : string) (w : World)
  : option (KVStore * Gen) :=
  '(_, st, g') ← load g (mkKVStore SkipList_new path) w;
  Some (st, g').

(** *** Destructors *)

(** [~SkipList()]: [clear(); delete header_;].  What is left of the heap is
    returned. *)
Definition SkipList_destroy (s : SkipList) : option (gmap addr Node) :=
  s' ← clear s; free (heap s') (header_ s').

(** [~KVStore()]: [dump(); delete skip_list_;]. *)
Definition KVStore_destroy (st : KVStore) (w : World)
  : option (gmap addr Node * World) :=
  '(_, st', w') ← dump st w;
  h ← SkipList_destroy (skip_list_ st');
  Some (h, w').

(** ** main.cpp *)




(** ** Threads and the lock *)

(** [std::shared_mutex mutex_]: free, held by some readers, or held by one
    writer. *)
Inductive LockState :=
  | Unlocked
  | SharedBy (readers : nat)
  | ExclusiveHeld.

(** [std::unique_lock<std::shared_mutex> lock(mutex_)]: [None] when the
    thread has to wait. *)
Definition lock_exclusive (m : LockState) : option LockState :=
  match m with
  | Unlocked => Some ExclusiveHeld
  | _ => None
  end.

(** [std::shared_lock<std::shared_mutex> lock(mutex_)]. *)
Definition lock_shared (m : LockState) : option LockState :=
  match m with
  | Unlocked => Some (SharedBy 1)
  | SharedBy n => Some (SharedBy (S n))
  | ExclusiveHeld => None
  end.

Definition unlock_exclusive (m : LockState) : LockState := Unlocked.

Definition unlock_shared (m : LockState) : LockState :=
  match m with
  | SharedBy (S (S n)) => SharedBy (S n)
  | _ => Unlocked
  end.

(** What the threads share: the index and its mutex. *)
Record Shared := mkShared {
  index : SkipList;
  mutex_ : LockState
}.

(** [delete_element] as a thread runs it: it takes the exclusive lock on
    entry, then runs its body and releases the lock on return. *)
Definition delete_enter (sh : Shared) : option Shared :=
  m ← lock_exclusive (mutex_ sh); Some (mkShared (index sh) m).

Definition delete_leave (sh : Shared) (key : Z) : option (bool * Shared) :=
  '(b, s') ← delete_element (index sh) key;
  Some (b, mkShared s' (unlock_exclusive (mutex_ sh))).

Definition locked_delete_element (sh : Shared) (key : Z)
  : option (bool * Shared) :=
  sh1 ← delete_enter sh; delete_leave sh1 key.

(** [search_element] as a thread runs it, under the shared lock. *)
Definition locked_search_element (sh : Shared) (key : Z) (value : string)
  : option (bool * string * Shared) :=
  m ← lock_shared (mutex_ sh);
  '(b, v) ← search_element (index sh) key value;
  Some (b, v, mkShared (index sh) (unlock_shared m)).

(** [clear], which takes no lock: the mutex is not looked at. *)
Definition unlocked_clear (sh : Shared) : option Shared :=
  s' ← clear (index sh); Some (mkShared s' (mutex_ sh)).

(** A thread inside [process_all]: its local [node] and the pairs it has
    passed to [func]. *)
Record Traversal := mkTraversal {
  cursor : option addr;
  seen : list (Z * string)
}.

(** [Node<K, V>* node = header_->forward_[0];], without a lock. *)
Definition traverse_begin (sh : Shared) : option Traversal :=
  node ← fwd (heap (index sh)) (header_ (index sh)) 0;
  Some (mkTraversal node []).

(** One turn of [while (node != nullptr)], without a lock. *)
Definition traverse_step (sh : Shared) (t : Traversal) : option Traversal :=
  match cursor t with
  | None => Some t
  | Some p =>
      n ← heap (index sh) !! p;
      nxt ← vec_get (forward_ n) 0;
      Some (mkTraversal nxt (seen t ++ [(key_ n, value_ n)]))
  end.

Fixpoint traverse_steps (n : nat) (sh : Shared) (t : Traversal)
  : option Traversal :=
  match n with
  | 0 => Some t
  | S n' => t' ← traverse_step sh t; traverse_steps n' sh t'
  end.

(** * The vocabulary of the properties *)

(** ** The abstract view of an index

    A well-formed index is described by the list of its entries in the
    order of level 0: the address of each node, its key, value and level. *)

Record Entry := mkEntry {
  e_addr : addr;
  e_key : Z;
  e_val : string;
  e_lvl : nat
}.

Definition key_lt (e1 e2 : Entry) : Prop := (e_key e1 < e_key e2)%Z.

(** The entries that take part in level [i]. *)
Definition level_view (i : nat) (l : list Entry) : list Entry :=
  filter (λ e, i ≤ e_lvl e) l.

(** The entries before and from a key. *)
Definition below (key : Z) (l : list Entry) : list Entry :=
  filter (λ e, (e_key e < key)%Z) l.

Definition above (key : Z) (l : list Entry) : list Entry :=
  filter (λ e, (key ≤ e_key e)%Z) l.

(** The address of the last entry of [A], or [x] when there is none. *)
Definition lastd (x : addr) (A : list Entry) : addr :=
  default x (e_addr <$> last A).

(** The predecessor of [key] at level [i]: where the walk stops. *)
Definition pred_at (hdr : addr) (key : Z) (i : nat) (l : list Entry) : addr :=
  lastd hdr (below key (level_view i l)).

(** What the inner [while] computes on a chain of entries. *)
Fixpoint adv_spec (key : Z) (cur : addr) (R : list Entry) : addr :=
  match R with
  | [] => cur
  | e :: R' =>
      if bool_decide (e_key e < key)%Z
      then adv_spec key (e_addr e) R'
      else cur
  end.

Definition entry_kv (e : Entry) : Z * string := (e_key e, e_val e).

(** ** Linked lists in the heap *)

(** [path h i x L e]: at level [i], the successors of [x] are the nodes of
    [L] in order, and the last of them (or [x]) points to [e]. *)
Fixpoint path (h : gmap addr Node) (i : nat) (x : addr) (L : list Entry)
    (e : option addr) : Prop :=
  match L with
  | [] => fwd h x i = Some e
  | b :: L' => fwd h x i = Some (Some (e_addr b)) ∧ path h i (e_addr b) L' e
  end.

Definition hd_or (e : option addr) (R : list Entry) : option addr :=
  match R with
  | [] => e
  | b :: _ => Some (e_addr b)
  end.

Definition tail_path (h : gmap addr Node) (i : nat) (R : list Entry)
    (e : option addr) : Prop :=
  match R with
  | [] => True
  | b :: R' => path h i (e_addr b) R' e
  end.

(** ** The representation invariant *)

(** What a node holds apart from its successors. *)
Definition data (n : Node) : Z * string * nat * nat :=
  (key_ n, value_ n, node_level_ n, length (forward_ n)).

Definition same_data (h h' : gmap addr Node) : Prop :=
  ∀ a, data <$> h !! a = data <$> h' !! a.

(** The node of an entry, as it lies in the heap. *)
Definition node_of (h : gmap addr Node) (e : Entry) : Prop :=
  ∃ fw, h !! e_addr e = Some (mkNode (e_key e) (e_val e) (e_lvl e) fw) ∧
        length fw = S (e_lvl e).

(** [Rep s l]: the index [s] holds exactly the entries [l]. *)
Record Rep (s : SkipList) (l : list Entry) : Prop := mkRep {
  rep_header :
    ∃ k v, data <$> heap s !! header_ s
           = Some (k, v, MAX_LEVEL, S MAX_LEVEL);
  rep_node : ∀ e, e ∈ l → node_of (heap s) e;
  rep_dom : dom (heap s) = {[header_ s]} ∪ list_to_set (e_addr <$> l);
  rep_fresh : header_ s ∉ e_addr <$> l;
  rep_sorted : StronglySorted key_lt l;
  rep_lvl : ∀ e, e ∈ l → e_lvl e ≤ current_level_ s;
  rep_cl : current_level_ s ≤ MAX_LEVEL;
  rep_links :
    ∀ i, i ≤ MAX_LEVEL → path (heap s) i (header_ s) (level_view i l) None;
  rep_count : element_count_ s = Z.of_nat (length l);
  rep_top : current_level_ s = 0 ∨ level_view (current_level_ s) l ≠ []
}.

(** The invariant proper: some list of entries describes the index. *)
Definition Inv (s : SkipList) : Prop := ∃ l, Rep s l.

(** The first entry with the given key. *)
Fixpoint find_key (key : Z) (l : list Entry) : option Entry :=
  match l with
  | [] => None
  | e :: l' => if bool_decide (e_key e = key) then Some e else find_key key l'
  end.

(** ** The entries after a call *)

(** The entries after the insertion of a new key, at the address that
    [new] returns. *)
Definition inserted (s : SkipList) (l : list Entry) (key : Z) (value : string)
    (rl : nat) : list Entry :=
  below key l ++ mkEntry (fresh (dom (heap s))) key value rl :: above key l.

(** The current level after the insertion of a node of level [rl]. *)
Definition raised_level (s : SkipList) (rl : nat) : nat :=
  if decide (current_level_ s < rl) then rl else current_level_ s.

(** The entry of [key] with its value overwritten. *)
Definition set_val (key : Z) (value : string) (e : Entry) : Entry :=
  if bool_decide (e_key e = key)
  then mkEntry (e_addr e) (e_key e) value (e_lvl e)
  else e.

(** The entries without the one of [key]. *)
Definition removed (key : Z) (l : list Entry) : list Entry :=
  filter (λ e, e_key e ≠ key) l.

(** ** Sequences of operations *)

(** The calls a client makes on an index. *)
Inductive Op :=
  | OpInsert (key : Z) (value : string)
  | OpDelete (key : Z)
  | OpClear.

Definition run_op (g : Gen) (s : SkipList) (op : Op)
  : option (SkipList * Gen) :=
  match op with
  | OpInsert key value =>
      '(_, s', g') ← insert_element g s key value; Some (s', g')
  | OpDelete key => '(_, s') ← delete_element s key; Some (s', g)
  | OpClear => s' ← clear s; Some (s', g)
  end.

Fixpoint run_ops (g : Gen) (s : SkipList) (ops : list Op)
  : option (SkipList * Gen) :=
  match ops with
  | [] => Some (s, g)
  | op :: ops' => '(s', g') ← run_op g s op; run_ops g' s' ops'
  end.

(** The states an index goes through: those some sequence of calls, with
    some outcome of the coin flips, leads to from the empty index. *)
Definition reachable (s : SkipList) : Prop :=
  ∃ g ops, fst <$> run_ops g SkipList_new ops = Some s.

(** What one call does to the value bound to key [k]. *)
Definition apply_op (k : Z) (old : option string) (op : Op) : option string :=
  match op with
  | OpInsert key value => if decide (k = key) then Some value else old
  | OpDelete key => if decide (k = key) then None else old
  | OpClear => None
  end.

(** The value bound to [k] after the calls [ops], one call after the
    other. *)
Definition bound_after (ops : list Op) (k : Z) : option string :=
  foldl (apply_op k) None ops.

(** The calls read from the most recent one backwards: the first insert or
    delete of [k] met decides, an insert with its value. *)
Fixpoint most_recent (rops : list Op) (k : Z) : option string :=
  match rops with
  | [] => None
  | OpInsert key value :: rops' =>
      if decide (k = key) then Some value else most_recent rops' k
  | OpDelete key :: rops' =>
      if decide (k = key) then None else most_recent rops' k
  | OpClear :: rops' => most_recent rops' k
  end.

(** [last_write ops k]: the value of the most recent insert of [k] among
    the calls [ops], if [k] was inserted and not deleted afterwards. *)
Definition last_write (ops : list Op) (k : Z) : option string :=
  most_recent (reverse ops) k.

Definition is_update (op : Op) : Prop :=
  match op with
  | OpClear => False
  | _ => True
  end.

(** The value an index binds to a key, in the abstract view. *)
Definition val_of (k : Z) (l : list Entry) : option string :=
  e_val <$> find_key k l.

(** The keys of an index, as [process_all] enumerates them. *)
Definition keys_of (s : SkipList) : option (list Z) :=
  kvs ← process_all s; Some (kvs.*1).

Definition key_present (s : SkipList) (key : Z) : Prop :=
  ∃ ks, keys_of s = Some ks ∧ key ∈ ks.

Definition key_absent (s : SkipList) (key : Z) : Prop :=
  ∃ ks, keys_of s = Some ks ∧ key ∉ ks.

(** ** Observations and examples *)

(** An index with one entry, for the examples. *)
Definition coin_never : Gen := λ _, false.

Definition coin_once : Gen := λ n, bool_decide (n = 0).

Definition index_1 : SkipList :=
  Eval vm_compute in
    default SkipList_new
      (fst <$> run_ops coin_never SkipList_new [OpInsert 1 "good"]).

(** The keys met at level [i] when following the successors from the
    header, as [process_all] does at level 0. *)
Fixpoint chain_keys (fuel : nat) (h : gmap addr Node) (i : nat)
    (node : option addr) : option (list Z) :=
  match node with
  | None => Some []
  | Some p =>
      match fuel with
      | 0 => None
      | S fuel' =>
          n ← h !! p;
          nxt ← vec_get (forward_ n) i;
          rest ← chain_keys fuel' h i nxt;
          Some (key_ n :: rest)
      end
  end.

Definition level_keys (s : SkipList) (i : nat) : option (list Z) :=
  node ← fwd (heap s) (header_ s) i;
  chain_keys (size (heap s)) (heap s) i node.

(** The structural invariant, as it can be observed on the index. *)
Definition structural_invariant (s : SkipList) : Prop :=
  (∀ i, i ≤ MAX_LEVEL →
        ∃ ks, level_keys s i = Some ks ∧ StronglySorted Z.lt ks) ∧
  (∀ i j ks_i ks_j,
     j ≤ i → i ≤ MAX_LEVEL →
     level_keys s i = Some ks_i → level_keys s j = Some ks_j →
     ks_i ⊆ ks_j) ∧
  ((∃ a, fwd (heap s) (header_ s) (current_level_ s) = Some (Some a)) ∨
   level_keys s 0 = Some []).

(** ** Statements about the index *)

(** C3 as the specification words it: the result of [insert_element] tells
    an update from an insertion. *)
Definition update_distinguishable : Prop :=
  ∀ g s key value g0 s0 key0 value0,
    reachable s → key_present s key →
    reachable s0 → key_absent s0 key0 →
    (λ r, r.1.1) <$> insert_element g s key value
    ≠ (λ r, r.1.1) <$> insert_element g0 s0 key0 value0.

(** No operation on a reachable index meets undefined behaviour. *)
Definition all_defined (s : SkipList) : Prop :=
  ∀ g key value v0,
    is_Some (insert_element g s key value) ∧
    is_Some (search_element s key v0) ∧
    is_Some (delete_element s key) ∧
    is_Some (clear s) ∧
    is_Some (process_all s).

(** ** Strings, lines and the text of keys *)

(** No character of the string is [c]. *)
Definition free_of (c : ascii) (s : string) : Prop := find_char c s = None.

Fixpoint all_chars (P : ascii → bool) (s : string) : bool :=
  match s with
  | EmptyString => true
  | String c s' => P c && all_chars P s'
  end.

Definition is_digit (c : ascii) : bool := bool_decide (is_Some (digit_of c)).

(** The characters of the text of an [int]. *)
Definition is_int_char (c : ascii) : bool := is_digit c || Ascii.eqb c "-".

(** ** Lines of a dump *)

(** The line of an entry, without its newline. *)
Definition line_of (kv : Z * string) : string :=
  show_int kv.1 +:+ String delimiter kv.2.

Definition insert_of (kv : Z * string) : Op := OpInsert kv.1 kv.2.

(** ** Statements about the store *)

(** C5 as the specification words it: the round trip holds as soon as no
    value contains the delimiter. *)
Definition round_trip_without_delimiter : Prop :=
  ∀ g st w kvs,
    reachable (skip_list_ st) →
    process_all (skip_list_ st) = Some kvs →
    Forall (λ kv, int_range kv.1 ∧ free_of delimiter kv.2) kvs →
    file_path_ st ∉ unopenable w →
    ∃ w' st' g',
      dump st w = Some (tt, st, w') ∧
      load g (mkKVStore SkipList_new (file_path_ st)) w' = Some (tt, st', g') ∧
      process_all (skip_list_ st') = Some kvs.

(** A value of two lines, without the delimiter. *)
Definition two_lines : string := "good" +:+ String newline "day".

Definition index_2 : SkipList :=
  Eval vm_compute in
    default SkipList_new
      (fst <$> run_ops coin_never SkipList_new [OpInsert 1 two_lines]).

(** An index whose value contains the delimiter. *)
Definition index_3 : SkipList :=
  Eval vm_compute in
    default SkipList_new
      (fst <$> run_ops coin_never SkipList_new [OpInsert 7 "st:udy"]).

Definition no_files : World := mkWorld ∅ ∅ [].

(** C7 as the specification words it: some reading of what [del] returns
    tells whether the key was removed. *)
Definition del_signals_removal : Prop :=
  ∃ removed : unit → bool,
    ∀ st key r st',
      reachable (skip_list_ st) → del st key = Some (r, st') →
      removed r = true ↔ key_present (skip_list_ st) key.

(** C8 as the specification words it: after [load], the caller can tell
    whether the file was opened. *)
Definition load_reports_failure : Prop :=
  ∀ g st w w',
    open_in w (file_path_ st) = None →
    is_Some (open_in w' (file_path_ st)) →
    load g st w ≠ load g st w'.

Definition empty_file : World :=
  mkWorld {["store/dumpFile" := EmptyString]} ∅ [].

Definition locked_file : World :=
  mkWorld {["store/dumpFile" := EmptyString]} {["store/dumpFile"]} [].

(** ** Pairs of a traversal *)

(** The value of the first pair with key [k]. *)
Fixpoint kv_lookup (k : Z) (kvs : list (Z * string)) : option string :=
  match kvs with
  | [] => None
  | (k', v) :: kvs' => if decide (k' = k) then Some v else kv_lookup k kvs'
  end.

(** The pair [(k, v)] put at its place in a list sorted by key, instead of
    the pair of [k] if there is one. *)
Fixpoint kv_upsert (k : Z) (v : string) (kvs : list (Z * string))
  : list (Z * string) :=
  match kvs with
  | [] => [(k, v)]
  | (k', v') :: kvs' =>
      if decide (k < k')%Z then (k, v) :: kvs
      else if decide (k = k') then (k, v) :: kvs'
      else (k', v') :: kv_upsert k v kvs'
  end.

(** The pairs without those of key [k]. *)
Definition kv_remove (k : Z) (kvs : list (Z * string)) : list (Z * string) :=
  filter (λ kv, kv.1 ≠ k) kvs.






(** An index with three entries, the first on two levels. *)
Definition three_puts : list Op :=
  [OpInsert 1 "good"; OpInsert 3 "good"; OpInsert 7 "study"].

Definition index_137 : SkipList :=
  Eval vm_compute in
    default SkipList_new (fst <$> run_ops coin_once SkipList_new three_puts).

(** The entry of [index_1] in a node of level 1. *)
Definition index_1_tall : SkipList :=
  Eval vm_compute in
    default SkipList_new
      (fst <$> run_ops coin_once SkipList_new [OpInsert 1 "good"]).

(** A file with a line without delimiter and two lines for one key, the
    second with a delimiter in its value. *)
Definition mixed_file : World :=
  mkWorld {["store/dumpFile" :=
              "3:a" +:+ String newline
                ("junk" +:+ String newline "3:b:c")]} ∅ [].

(** A store on the index of the examples. *)
Definition store_1 : KVStore := mkKVStore index_1 "store/dumpFile".




(** The key a call is about; [clear] is about every key. *)
Definition op_key (op : Op) : option Z :=
  match op with
  | OpInsert key _ => Some key
  | OpDelete key => Some key
  | OpClear => None
  end.


(** * Proofs *)

(** ** Lists of entries *)

Section entries.
Implicit Types (l A R : list Entry) (e : Entry) (key : Z).

Lemma lastd_nil x : lastd x [] = x.
Proof. reflexivity. Qed.

Lemma lastd_cons x e A : lastd x (e :: A) = lastd (e_addr e) A.
Proof.
  unfold lastd. destruct A as [|e' A]; [done|].
  rewrite last_cons_cons. by destruct (last (e' :: A)) eqn:E;
    [|apply last_None in E].
Qed.

Lemma lastd_snoc x A e : lastd x (A ++ [e]) = e_addr e.
Proof. unfold lastd. by rewrite last_snoc. Qed.

Lemma lastd_app x A B : lastd x (A ++ B) = lastd (lastd x A) B.
Proof.
  revert x. induction A as [|e A IH]; intros x; [done|].
  simpl. rewrite !lastd_cons. apply IH.
Qed.

Lemma lastd_elem_of x A : lastd x A = x ∨ ∃ e, e ∈ A ∧ lastd x A = e_addr e.
Proof.
  unfold lastd. destruct (last A) as [e|] eqn:E; [right|by left].
  exists e. split; [|done]. by eapply last_Some_elem_of.
Qed.

Lemma sorted_filter (P : Entry → Prop) `{!∀ e, Decision (P e)} l :
  StronglySorted key_lt l → StronglySorted key_lt (filter P l).
Proof.
  induction 1 as [|e l Hl IH Hall]; [constructor|].
  rewrite filter_cons. case_decide; [|done].
  constructor; [done|].
  rewrite Forall_forall in Hall |- *.
  intros e' [_ He']%list_elem_of_filter. auto.
Qed.

Lemma sorted_level_view i l :
  StronglySorted key_lt l → StronglySorted key_lt (level_view i l).
Proof. apply sorted_filter. Qed.

Lemma below_all key l :
  Forall (λ e, (e_key e < key)%Z) l → below key l = l ∧ above key l = [].
Proof.
  induction 1 as [|e l He Hl [IH1 IH2]]; [done|].
  unfold below, above in *. rewrite !filter_cons.
  case_decide; [|lia]. case_decide; [lia|]. by rewrite IH1, IH2.
Qed.

Lemma above_all key l :
  Forall (λ e, (key ≤ e_key e)%Z) l → below key l = [] ∧ above key l = l.
Proof.
  induction 1 as [|e l He Hl [IH1 IH2]]; [done|].
  unfold below, above in *. rewrite !filter_cons.
  case_decide; [lia|]. case_decide; [|lia]. by rewrite IH1, IH2.
Qed.

Lemma below_app key A R : below key (A ++ R) = below key A ++ below key R.
Proof. apply filter_app. Qed.

Lemma above_app key A R : above key (A ++ R) = above key A ++ above key R.
Proof. apply filter_app. Qed.

Lemma sorted_above_from key e l :
  StronglySorted key_lt (e :: l) → (key ≤ e_key e)%Z →
  Forall (λ e', (key ≤ e_key e')%Z) (e :: l).
Proof.
  intros [Hl Hall]%StronglySorted_inv Hk. constructor; [done|].
  eapply Forall_impl; [exact Hall|]. unfold key_lt. simpl. lia.
Qed.

(** A sorted list splits at any key. *)
Lemma sorted_split key l :
  StronglySorted key_lt l → l = below key l ++ above key l.
Proof.
  induction l as [|e l IH]; intros Hs; [done|].
  destruct (decide (e_key e < key)%Z) as [Hlt|Hge].
  - unfold below, above in *. rewrite !filter_cons.
    case_decide; [|lia]. case_decide; [lia|]. simpl. f_equal.
    apply IH. by apply StronglySorted_inv in Hs as [? _].
  - destruct (above_all key (e :: l)) as [-> ->]; [|done].
    apply sorted_above_from; [done|lia].
Qed.

Lemma below_Forall key l : Forall (λ e, (e_key e < key)%Z) (below key l).
Proof.
  apply Forall_forall. intros e He.
  by apply list_elem_of_filter in He as [? _].
Qed.

Lemma above_Forall key l : Forall (λ e, (key ≤ e_key e)%Z) (above key l).
Proof.
  apply Forall_forall. intros e He.
  by apply list_elem_of_filter in He as [? _].
Qed.

Lemma level_view_below key i l :
  level_view i (below key l) = below key (level_view i l).
Proof.
  unfold level_view, below. rewrite !list_filter_filter.
  apply list_filter_iff. intros e. tauto.
Qed.

Lemma level_view_above key i l :
  level_view i (above key l) = above key (level_view i l).
Proof.
  unfold level_view, above. rewrite !list_filter_filter.
  apply list_filter_iff. intros e. tauto.
Qed.

Lemma level_view_app i A R :
  level_view i (A ++ R) = level_view i A ++ level_view i R.
Proof. apply filter_app. Qed.

Lemma level_view_0 l : level_view 0 l = l.
Proof.
  unfold level_view. induction l as [|e l IH]; [done|].
  rewrite filter_cons_True by lia. by rewrite IH.
Qed.

Lemma level_view_subseteq i l : level_view i l ⊆ l.
Proof. intros e [_ ?]%list_elem_of_filter. done. Qed.

Lemma level_view_length i l : length (level_view i l) ≤ length l.
Proof. apply length_filter. Qed.

Lemma level_view_nil_lt i l :
  (∀ e, e ∈ l → e_lvl e < i) → level_view i l = [].
Proof.
  intros H. unfold level_view. induction l as [|e l IH]; [done|].
  rewrite filter_cons_False.
  - apply IH. intros e' He'. apply H. by right.
  - assert (e_lvl e < i) by (apply H; by left). lia.
Qed.

Lemma level_view_mono i j l :
  i ≤ j → level_view j l ⊆ level_view i l.
Proof.
  intros Hij e [Hj He]%list_elem_of_filter.
  apply list_elem_of_filter. split; [lia|done].
Qed.

Lemma adv_spec_app key cur A R :
  Forall (λ e, (e_key e < key)%Z) A →
  adv_spec key cur (A ++ R) = adv_spec key (lastd cur A) R.
Proof.
  intros HA. revert cur. induction HA as [|e A He HA IH]; intros cur.
  - done.
  - simpl. rewrite bool_decide_eq_true_2 by done.
    rewrite lastd_cons. apply IH.
Qed.

Lemma adv_spec_above key cur R :
  Forall (λ e, (key ≤ e_key e)%Z) R → adv_spec key cur R = cur.
Proof.
  destruct 1 as [|e R He HR]; [done|].
  simpl. rewrite bool_decide_eq_false_2; [done|lia].
Qed.

Lemma adv_spec_sorted key cur L :
  StronglySorted key_lt L → adv_spec key cur L = lastd cur (below key L).
Proof.
  intros HL. rewrite (sorted_split key L HL) at 1.
  rewrite adv_spec_app by apply below_Forall.
  apply adv_spec_above, above_Forall.
Qed.

(** Where the walk stands after level [j] lies on every level [i ≤ j],
    before the entries that remain to be inspected. *)
Lemma pred_at_split hdr key i j l :
  StronglySorted key_lt l → i ≤ j →
  ∃ A R, level_view i l = A ++ R ∧
         Forall (λ e, (e_key e < key)%Z) A ∧
         lastd hdr A = pred_at hdr key j l.
Proof.
  intros Hs Hij. unfold pred_at.
  destruct (last (below key (level_view j l))) as [ec|] eqn:E.
  - assert (ec ∈ below key (level_view j l)) as Hin
      by by eapply last_Some_elem_of.
    apply list_elem_of_filter in Hin as [Hk Hin].
    apply (level_view_mono i j l Hij) in Hin.
    apply list_elem_of_split in Hin as (A0 & R & HL).
    exists (A0 ++ [ec]), R. split; [by rewrite <-app_assoc|].
    pose proof (sorted_level_view i l Hs) as HsL. rewrite HL in HsL.
    split.
    + apply Forall_app. split; [|by constructor].
      apply Forall_forall. intros e He.
      assert (key_lt e ec).
      { eapply StronglySorted_app_1_elem_of; [exact HsL|done|by left]. }
      unfold key_lt in *. lia.
    + rewrite lastd_snoc. unfold lastd. by rewrite E.
  - exists [], (level_view i l). split; [done|]. split; [done|].
    unfold lastd. by rewrite E.
Qed.

Lemma pred_at_top hdr key j l :
  (∀ e, e ∈ l → e_lvl e < j) → pred_at hdr key j l = hdr.
Proof. intros H. unfold pred_at. by rewrite level_view_nil_lt. Qed.
End entries.

(** ** Paths in the heap *)

Section paths.
Implicit Types (h : gmap addr Node) (L A R : list Entry) (x : addr).

Lemma path_unfold h i x R e :
  path h i x R e ↔ fwd h x i = Some (hd_or e R) ∧ tail_path h i R e.
Proof. destruct R; simpl; tauto. Qed.

Lemma path_split h i x A R e :
  path h i x (A ++ R) e ↔ path h i x A (hd_or e R) ∧ tail_path h i R e.
Proof.
  revert x. induction A as [|b A IH]; intros x; simpl.
  - apply path_unfold.
  - rewrite IH. tauto.
Qed.

Lemma path_last h i x A e : path h i x A e → fwd h (lastd x A) i = Some e.
Proof.
  revert x. induction A as [|b A IH]; intros x; simpl; [done|].
  intros [_ H]. rewrite lastd_cons. by apply IH.
Qed.

Lemma path_from_last h i x A R e :
  path h i x (A ++ R) e → path h i (lastd x A) R e.
Proof.
  intros [H1 H2]%path_split. apply path_unfold.
  split; [|done]. by eapply path_last.
Qed.

(** A path only depends on the slots [i] of its nodes. *)
Lemma path_ext h h' i x L e :
  (∀ a, a = x ∨ a ∈ e_addr <$> L → fwd h' a i = fwd h a i) →
  path h i x L e → path h' i x L e.
Proof.
  revert x. induction L as [|b L IH]; intros x Hext; simpl.
  - intros <-. apply Hext. by left.
  - intros [H1 H2]. split.
    + rewrite <-H1. apply Hext. by left.
    + apply IH; [|done]. intros a Ha. apply Hext. right.
      rewrite fmap_cons, elem_of_cons. tauto.
Qed.

Lemma tail_path_ext h h' i R e :
  (∀ a, a ∈ e_addr <$> R → fwd h' a i = fwd h a i) →
  tail_path h i R e → tail_path h' i R e.
Proof.
  destruct R as [|b R]; [done|]. intros Hext. cbn [tail_path].
  apply path_ext. intros a Ha. apply Hext.
  rewrite fmap_cons, elem_of_cons. tauto.
Qed.

(** Redirecting the last pointer of a path. *)
Lemma path_set_last h h' i x A e e' :
  NoDup (x :: (e_addr <$> A)) →
  fwd h' (lastd x A) i = Some e' →
  (∀ a, a = x ∨ a ∈ e_addr <$> A → a ≠ lastd x A →
        fwd h' a i = fwd h a i) →
  path h i x A e → path h' i x A e'.
Proof.
  revert x. induction A as [|b A IH]; intros x Hnd Hlast Hext; simpl.
  - done.
  - intros [H1 H2]. rewrite lastd_cons in Hlast, Hext.
    apply NoDup_cons in Hnd as [Hx Hnd].
    rewrite fmap_cons, elem_of_cons in Hx.
    split.
    + rewrite <-H1. apply Hext; [by left|].
      destruct (lastd_elem_of (e_addr b) A) as [->|(e0 & He0 & ->)].
      * intros ->. tauto.
      * intros ->. apply Hx. right. by apply list_elem_of_fmap_2.
    + apply (IH _ Hnd Hlast); [|done].
      intros a Ha. apply Hext. right.
      rewrite fmap_cons, elem_of_cons. tauto.
Qed.
End paths.

(** ** Sorted keys *)

Section sorted_keys.
Implicit Types (l : list Entry) (e : Entry) (key : Z).

Lemma find_key_Some key l e :
  find_key key l = Some e → e ∈ l ∧ e_key e = key.
Proof.
  induction l as [|e' l IH]; [done|]. simpl. case_bool_decide.
  - intros [= ->]. split; [by left|done].
  - intros [? ?]%IH. split; [by right|done].
Qed.

Lemma find_key_None key l e :
  find_key key l = None → e ∈ l → e_key e ≠ key.
Proof.
  induction l as [|e' l IH]; [by intros _ ?%elem_of_nil|].
  simpl. case_bool_decide; [done|].
  intros Hn [->|He]%elem_of_cons; [done|by apply IH].
Qed.

Lemma sorted_key_inj l e1 e2 :
  StronglySorted key_lt l → e1 ∈ l → e2 ∈ l → e_key e1 = e_key e2 → e1 = e2.
Proof.
  induction 1 as [|e l Hl IH Hall]; [by intros ?%elem_of_nil|].
  rewrite Forall_forall in Hall. unfold key_lt in Hall.
  intros [->|H1]%elem_of_cons [->|H2]%elem_of_cons Hk; [done| | |by apply IH].
  - apply Hall in H2. lia.
  - apply Hall in H1. lia.
Qed.

Lemma find_key_elem_of l e :
  StronglySorted key_lt l → e ∈ l → find_key (e_key e) l = Some e.
Proof.
  intros Hs He. destruct (find_key (e_key e) l) as [e'|] eqn:E.
  - apply find_key_Some in E as [He' Hk]. f_equal.
    by eapply sorted_key_inj.
  - by eapply find_key_None in E.
Qed.

(** In a sorted list the entry of [key], if any, is the first one that is
    not below [key]. *)
Lemma find_key_above key l :
  StronglySorted key_lt l →
  find_key key l =
    match above key l with
    | [] => None
    | e :: _ => if bool_decide (e_key e = key) then Some e else None
    end.
Proof.
  intros Hs. rewrite (sorted_split key l Hs) at 1.
  pose proof (below_Forall key l) as Hb.
  pose proof (above_Forall key l) as Ha.
  assert (StronglySorted key_lt (above key l)) as Hsa by by apply sorted_filter.
  induction Hb as [|e lb He Hb IH]; simpl.
  - destruct Hsa as [|e la Hsa Hall]; [done|]. simpl.
    case_bool_decide; [done|].
    apply Forall_cons in Ha as [Hge _].
    destruct (find_key key la) as [e'|] eqn:E; [|done].
    apply find_key_Some in E as [He' Hk].
    rewrite Forall_forall in Hall. apply Hall in He'.
    unfold key_lt in He'. lia.
  - rewrite bool_decide_eq_false_2 by lia. done.
Qed.

Lemma sorted_addr_NoDup (h : gmap addr Node) l :
  StronglySorted key_lt l → (∀ e, e ∈ l → node_of h e) →
  NoDup (e_addr <$> l).
Proof.
  induction 1 as [|e l Hl IH Hall]; intros Hn; [constructor|].
  rewrite fmap_cons. constructor.
  - intros (e' & Heq & He')%list_elem_of_fmap.
    destruct (Hn e) as (fw & Hh & _); [by left|].
    destruct (Hn e') as (fw' & Hh' & _); [by right|].
    rewrite Heq, Hh' in Hh. injection Hh as Hk _ _ _.
    rewrite Forall_forall in Hall. apply Hall in He'.
    unfold key_lt in He'. lia.
  - apply IH. intros e' He'. apply Hn. by right.
Qed.
End sorted_keys.

(** ** Consequences of the invariant *)

Section rep_facts.
Context (s : SkipList) (l : list Entry) (HR : Rep s l).

Lemma rep_NoDup : NoDup (header_ s :: (e_addr <$> l)).
Proof.
  constructor; [apply HR|].
  eapply sorted_addr_NoDup; apply HR.
Qed.

Lemma rep_size : size (heap s) = S (length l).
Proof.
  rewrite <-size_dom, (rep_dom s l HR).
  pose proof rep_NoDup as [Hh Hnd]%NoDup_cons.
  rewrite size_union, size_singleton, size_list_to_set, length_fmap;
    [done|done|].
  intros a ->%elem_of_singleton Ha%elem_of_list_to_set. done.
Qed.

Lemma rep_node_key e :
  e ∈ l → ∃ n, heap s !! e_addr e = Some n ∧ key_ n = e_key e.
Proof. intros (fw & H & _)%(rep_node s l HR). eauto. Qed.

Lemma rep_fwd_header i :
  i ≤ MAX_LEVEL → fwd (heap s) (header_ s) i = Some (hd_or None (level_view i l)).
Proof.
  intros Hi. by apply (rep_links s l HR), path_unfold in Hi as [? _].
Qed.

Lemma rep_pred_elem_of key i :
  pred_at (header_ s) key i l = header_ s ∨
  ∃ e, e ∈ l ∧ i ≤ e_lvl e ∧ (e_key e < key)%Z ∧
       pred_at (header_ s) key i l = e_addr e.
Proof.
  unfold pred_at.
  destruct (lastd_elem_of (header_ s) (below key (level_view i l)))
    as [?|(e & He & Heq)]; [by left|right].
  apply list_elem_of_filter in He as [Hk He].
  apply list_elem_of_filter in He as [Hl He]. eauto.
Qed.
End rep_facts.

(** ** The walk on a well-formed index *)

Lemma advance_spec h i key fuel cur R :
  path h i cur R None →
  (∀ e, e ∈ R → ∃ n, h !! e_addr e = Some n ∧ key_ n = e_key e) →
  length R < fuel →
  advance fuel h i key cur = Some (adv_spec key cur R).
Proof.
  revert fuel cur. induction R as [|b R IH]; intros fuel cur Hp Hn Hf.
  - destruct fuel as [|fuel]; [simpl in Hf; lia|].
    simpl in *. by rewrite Hp.
  - destruct fuel as [|fuel]; [simpl in Hf; lia|].
    destruct Hp as [Hp1 Hp2]. cbn [advance adv_spec]. rewrite Hp1. simpl.
    destruct (Hn b) as (n & Hn1 & Hn2); [by left|].
    rewrite Hn1. simpl. rewrite Hn2.
    case_bool_decide; [|done].
    apply IH; [done| |simpl in Hf; lia].
    intros e He. apply Hn. by right.
Qed.

Section walk.
Context (s : SkipList) (l : list Entry) (HR : Rep s l) (key : Z).

Local Abbreviation hdr := (header_ s).
Local Abbreviation h := (heap s).

Lemma advance_level i :
  i ≤ MAX_LEVEL →
  advance (size h) h i key (pred_at hdr key (S i) l)
  = Some (pred_at hdr key i l).
Proof.
  intros Hi.
  destruct (pred_at_split hdr key i (S i) l) as (A & R & HL & HA & Hlast);
    [apply HR|lia|].
  pose proof (rep_links s l HR i Hi) as Hp. rewrite HL in Hp.
  apply path_from_last in Hp. rewrite Hlast in Hp.
  rewrite (advance_spec h i key (size h) _ R Hp).
  - f_equal. rewrite <-Hlast, <-adv_spec_app, <-HL by done.
    apply adv_spec_sorted, sorted_level_view, HR.
  - intros e He. apply (rep_node_key s l HR).
    apply (level_view_subseteq i). rewrite HL. apply elem_of_app. by right.
  - rewrite (rep_size s l HR).
    pose proof (level_view_length i l) as Hlen. rewrite HL in Hlen.
    rewrite length_app in Hlen. lia.
Qed.

Lemma pred_at_above_top : pred_at hdr key (S (current_level_ s)) l = hdr.
Proof.
  apply pred_at_top. intros e He%(rep_lvl s l HR). lia.
Qed.

Lemma find_path_spec n (upd : list (option addr)) :
  n ≤ S (current_level_ s) → length upd = S MAX_LEVEL →
  ∃ upd',
    find_path n h key (pred_at hdr key n l) upd
    = Some (pred_at hdr key 0 l, upd') ∧
    length upd' = S MAX_LEVEL ∧
    (∀ j, j < n → upd' !! j = Some (Some (pred_at hdr key j l))) ∧
    (∀ j, n ≤ j → upd' !! j = upd !! j).
Proof.
  pose proof (rep_cl s l HR) as Hcl.
  revert upd. induction n as [|i IH]; intros upd Hn Hlen.
  - exists upd. split; [done|]. split; [done|]. split; [intros; lia|done].
  - cbn [find_path]. rewrite advance_level by lia. simpl.
    unfold vec_set. rewrite decide_True by lia. simpl.
    destruct (IH (<[i:=Some (pred_at hdr key i l)]> upd))
      as (upd' & Hfp & Hlen' & Hlt & Hge);
      [lia|by rewrite length_insert|].
    exists upd'. split; [done|]. split; [done|]. split.
    + intros j Hj. destruct (decide (j = i)) as [->|Hne].
      * rewrite Hge by lia. apply list_lookup_insert_eq. lia.
      * apply Hlt. lia.
    + intros j Hj. rewrite Hge by lia.
      apply list_lookup_insert_ne. lia.
Qed.

Lemma find_path_top :
  ∃ upd',
    find_path (S (current_level_ s)) h key hdr
              (replicate (MAX_LEVEL + 1) None)
    = Some (pred_at hdr key 0 l, upd') ∧
    length upd' = S MAX_LEVEL ∧
    (∀ j, j ≤ current_level_ s →
          upd' !! j = Some (Some (pred_at hdr key j l))) ∧
    (∀ j, current_level_ s < j → j ≤ MAX_LEVEL → upd' !! j = Some None).
Proof.
  destruct (find_path_spec (S (current_level_ s))
              (replicate (MAX_LEVEL + 1) None))
    as (upd' & Hfp & Hlen & Hlt & Hge);
    [done|by rewrite length_replicate|].
  rewrite pred_at_above_top in Hfp.
  exists upd'. split; [done|]. split; [done|]. split.
  - intros j Hj. apply Hlt. lia.
  - intros j Hj1 Hj2. rewrite Hge by lia.
    apply lookup_replicate_2. lia.
Qed.

Lemma descend_spec n :
  n ≤ S (current_level_ s) →
  descend n h key (pred_at hdr key n l) = Some (pred_at hdr key 0 l).
Proof.
  pose proof (rep_cl s l HR) as Hcl.
  induction n as [|i IH]; intros Hn; [done|].
  cbn [descend]. rewrite advance_level by lia. simpl. apply IH. lia.
Qed.

Lemma descend_top :
  descend (S (current_level_ s)) h key hdr = Some (pred_at hdr key 0 l).
Proof. rewrite <-pred_at_above_top at 1. by apply descend_spec. Qed.

(** The pointer that follows the walk at level [i]. *)
Lemma fwd_pred_at i :
  i ≤ MAX_LEVEL →
  fwd h (pred_at hdr key i l) i
  = Some (hd_or None (above key (level_view i l))).
Proof.
  intros Hi. pose proof (rep_links s l HR i Hi) as Hp.
  rewrite (sorted_split key (level_view i l)) in Hp
    by apply sorted_level_view, HR.
  by apply path_from_last, path_unfold in Hp as [? _].
Qed.

Lemma target_spec :
  match find_key key l with
  | Some e =>
      ∃ fw, target h (pred_at hdr key 0 l) key
            = Some (Some (e_addr e,
                          mkNode (e_key e) (e_val e) (e_lvl e) fw)) ∧
            h !! e_addr e = Some (mkNode (e_key e) (e_val e) (e_lvl e) fw) ∧
            length fw = S (e_lvl e)
  | None => target h (pred_at hdr key 0 l) key = Some None
  end.
Proof.
  unfold target. rewrite fwd_pred_at by lia. rewrite level_view_0. simpl.
  rewrite find_key_above by apply HR.
  destruct (above key l) as [|e R] eqn:E; [done|]. simpl.
  assert (e ∈ l) as He.
  { assert (e ∈ above key l) as He' by (rewrite E; by left).
    by apply list_elem_of_filter in He' as [_ He]. }
  destruct (rep_node s l HR e He) as (fw & Hh & Hlen).
  rewrite Hh. simpl.
  case_bool_decide; [|done]. eauto.
Qed.
End walk.

(** ** Reading a well-formed index *)

Lemma process_loop_spec h fuel L :
  tail_path h 0 L None → (∀ e, e ∈ L → node_of h e) → length L ≤ fuel →
  process_loop fuel h (hd_or None L) = Some (entry_kv <$> L).
Proof.
  revert fuel. induction L as [|b L IH]; intros fuel Hp Hn Hf.
  - by destruct fuel.
  - destruct fuel as [|fuel]; [simpl in Hf; lia|].
    cbn [tail_path] in Hp. apply path_unfold in Hp as [Hfw Hp].
    destruct (Hn b) as (fw & Hh & Hlen); [by left|].
    unfold fwd in Hfw. rewrite Hh in Hfw. simpl in Hfw.
    cbn [process_loop hd_or]. rewrite Hh. simpl. rewrite Hfw. simpl.
    rewrite IH; [done|done| |simpl in Hf; lia].
    intros e He. apply Hn. by right.
Qed.

Section reading.
Context (s : SkipList) (l : list Entry) (HR : Rep s l).

Lemma search_element_spec key value :
  search_element s key value
  = Some (match find_key key l with
          | Some e => (true, e_val e)
          | None => (false, value)
          end).
Proof.
  unfold search_element. rewrite (descend_top s l HR). simpl.
  rewrite (fwd_pred_at s l HR) by lia. rewrite level_view_0. simpl.
  rewrite find_key_above by apply HR.
  destruct (above key l) as [|e R] eqn:E; [done|]. simpl.
  assert (e ∈ l) as He.
  { assert (e ∈ above key l) as He' by (rewrite E; by left).
    by apply list_elem_of_filter in He' as [_ He]. }
  destruct (rep_node s l HR e He) as (fw & Hh & Hlen).
  rewrite Hh. simpl. by case_bool_decide.
Qed.

Lemma process_all_spec : process_all s = Some (entry_kv <$> l).
Proof.
  unfold process_all. rewrite (rep_fwd_header s l HR) by lia. simpl.
  rewrite level_view_0. apply process_loop_spec.
  - pose proof (rep_links s l HR 0) as Hp. rewrite level_view_0 in Hp.
    apply path_unfold in Hp as [_ Hp]; [done|lia].
  - apply HR.
  - rewrite (rep_size s l HR). lia.
Qed.
End reading.

(** ** Writing into the heap *)

Section heap_writes.
Implicit Types (h : gmap addr Node) (p a : addr) (i j : nat).

Lemma same_data_refl h : same_data h h.
Proof. done. Qed.

Lemma same_data_trans h1 h2 h3 :
  same_data h1 h2 → same_data h2 h3 → same_data h1 h3.
Proof. intros H1 H2 a. by rewrite H1. Qed.

Lemma same_data_dom h h' : same_data h h' → dom h = dom h'.
Proof.
  intros H. apply set_eq. intros a. rewrite !elem_of_dom.
  specialize (H a). destruct (h !! a), (h' !! a); simpl in H;
    try done; split; intros [? ?]; done.
Qed.

Lemma node_of_data h e :
  node_of h e ↔
  data <$> h !! e_addr e = Some (e_key e, e_val e, e_lvl e, S (e_lvl e)).
Proof.
  unfold node_of. split.
  - intros (fw & -> & Hlen). unfold data. simpl. by rewrite Hlen.
  - destruct (h !! e_addr e) as [[k v L fw]|]; [|done].
    unfold data. simpl. intros [= -> -> -> Hlen]. eauto.
Qed.

Lemma node_of_same_data h h' e :
  same_data h h' → node_of h e → node_of h' e.
Proof. intros H. rewrite !node_of_data. by rewrite (H (e_addr e)). Qed.

Lemma fwd_Some h p i q :
  fwd h p i = Some q ↔
  ∃ n, h !! p = Some n ∧ forward_ n !! i = Some q.
Proof.
  unfold fwd, vec_get. destruct (h !! p) as [n|]; simpl.
  - split; [eauto|]. by intros (n' & [= ->] & ?).
  - split; [done|]. by intros (n' & ? & ?).
Qed.

Lemma set_fwd_Some h p i q n :
  h !! p = Some n → i < length (forward_ n) →
  set_fwd h p i q
  = Some (<[p := set_forward n (<[i := q]> (forward_ n))]> h).
Proof.
  intros Hh Hi. unfold set_fwd, vec_set. rewrite Hh. simpl.
  by rewrite decide_True.
Qed.

(** One store into a successor slot. *)
Lemma set_fwd_spec h p i q r :
  fwd h p i = Some r →
  ∃ h', set_fwd h p i q = Some h' ∧
        same_data h h' ∧
        fwd h' p i = Some q ∧
        (∀ a j, a ≠ p ∨ j ≠ i → fwd h' a j = fwd h a j).
Proof.
  intros (n & Hh & Hi)%fwd_Some.
  assert (i < length (forward_ n)) as Hlt by by eapply lookup_lt_Some.
  eexists. split; [by apply set_fwd_Some|]. split; [|split].
  - intros a. destruct (decide (a = p)) as [->|Hne].
    + rewrite lookup_insert_eq, Hh. simpl. unfold data. simpl.
      by rewrite length_insert.
    + by rewrite lookup_insert_ne.
  - unfold fwd, vec_get. rewrite lookup_insert_eq. simpl.
    by apply list_lookup_insert_eq.
  - intros a j Hne. unfold fwd, vec_get.
    destruct (decide (a = p)) as [->|Hap].
    + rewrite lookup_insert_eq, Hh. simpl.
      apply list_lookup_insert_ne. destruct Hne; congruence.
    + by rewrite lookup_insert_ne.
Qed.
End heap_writes.

(** ** get_random_level *)

Lemma random_level_loop_bound fuel g lvl :
  lvl ≤ MAX_LEVEL → MAX_LEVEL < lvl + fuel →
  ∃ lvl' g', random_level_loop fuel g lvl = Some (lvl', g') ∧
             lvl' ≤ MAX_LEVEL.
Proof.
  revert g lvl. induction fuel as [|fuel IH]; intros g lvl Hl Hf; [lia|].
  cbn [random_level_loop]. destruct (draw g) as [c g'].
  destruct c; simpl; [|eauto]. case_bool_decide; simpl; [|eauto].
  apply IH; lia.
Qed.

Lemma get_random_level_bound g :
  ∃ lvl g', get_random_level g = Some (lvl, g') ∧ lvl ≤ MAX_LEVEL.
Proof. apply random_level_loop_bound; lia. Qed.

(** ** Splicing a node in *)

Lemma vec_set_Some {A} (v : list A) i x :
  i < length v → vec_set v i x = Some (<[i := x]> v).
Proof. intros Hi. unfold vec_set. by rewrite decide_True. Qed.

Lemma raise_loop_spec (hdr : addr) n start (upd : list (option addr)) :
  start + n ≤ length upd →
  ∃ upd',
    for_each (λ i u, vec_set u i (Some hdr)) (seq start n) upd = Some upd' ∧
    length upd' = length upd ∧
    ∀ j, upd' !! j = if decide (start ≤ j < start + n)
                     then Some (Some hdr) else upd !! j.
Proof.
  revert start upd. induction n as [|n IH]; intros start upd Hlen.
  - exists upd. split; [done|]. split; [done|]. intros j.
    rewrite decide_False; [done|lia].
  - cbn [seq for_each]. cbv beta. rewrite vec_set_Some by lia.
    simpl. destruct (IH (S start) (<[start:=Some hdr]> upd))
      as (upd' & Hfe & Hlen' & Hlk); [rewrite length_insert; lia|].
    exists upd'. split; [done|]. rewrite length_insert in Hlen'.
    split; [done|]. intros j. rewrite Hlk.
    destruct (decide (j = start)) as [->|Hne].
    + rewrite decide_False by lia. rewrite decide_True by lia.
      apply list_lookup_insert_eq. lia.
    + rewrite list_lookup_insert_ne by done.
      repeat case_decide; (done || lia).
Qed.

Lemma raise_update_spec (hdr : addr) cl rl (upd : list (option addr)) :
  cl ≤ rl → rl < length upd →
  ∃ upd',
    raise_update hdr cl rl upd = Some upd' ∧
    length upd' = length upd ∧
    ∀ j, upd' !! j = if decide (cl < j ≤ rl)
                     then Some (Some hdr) else upd !! j.
Proof.
  intros Hcl Hlen. unfold raise_update.
  destruct (raise_loop_spec hdr (rl - cl) (S cl) upd)
    as (upd' & Hfe & Hlen' & Hlk); [lia|].
  exists upd'. split; [done|]. split; [done|]. intros j. rewrite Hlk.
  repeat case_decide; (done || lia).
Qed.

Section splice.
Implicit Types (h : gmap addr Node) (A R : list Entry).

Lemma path_addrs h i x L L' e :
  e_addr <$> L = e_addr <$> L' → path h i x L e → path h i x L' e.
Proof.
  revert x L'. induction L as [|b L IH]; intros x [|b' L'] Heq;
    try done.
  rewrite !fmap_cons in Heq. injection Heq as Hb HL. simpl.
  rewrite Hb. intros [? ?]. split; [done|]. by apply IH.
Qed.

Lemma lastd_in x A : lastd x A ∈ x :: (e_addr <$> A).
Proof.
  destruct (lastd_elem_of x A) as [->|(e & He & ->)]; [by left|].
  right. by apply list_elem_of_fmap_2.
Qed.

(** [new_node->forward_[i] = update[i]->forward_[i];
    update[i]->forward_[i] = new_node;] inserts the node into the list of
    level [i], after the predecessor. *)
Lemma link_level_path h i hdr A R enew (update : list (option addr)) r :
  path h i hdr (A ++ R) None →
  NoDup (hdr :: (e_addr <$> A ++ R)) →
  e_addr enew ∉ hdr :: (e_addr <$> A ++ R) →
  update !! i = Some (Some (lastd hdr A)) →
  fwd h (e_addr enew) i = Some r →
  ∃ h', link_level update (e_addr enew) i h = Some h' ∧
        path h' i hdr (A ++ enew :: R) None ∧
        same_data h h' ∧
        (∀ a j, j ≠ i → fwd h' a j = fwd h a j).
Proof.
  intros [HpA HpR]%path_split Hnd Hnew Hu Hslot.
  pose proof (path_last _ _ _ _ _ HpA) as Hlast.
  set (p := lastd hdr A) in *. set (new := e_addr enew) in *.
  pose proof (lastd_in hdr A) as Hp. fold p in Hp.
  rewrite fmap_app in Hnd, Hnew.
  apply NoDup_cons in Hnd as [Hhdr Hnd].
  apply NoDup_app in Hnd as (HndA & HAR & HndR).
  assert (p ≠ new) as Hpn.
  { intros Heq. apply Hnew. rewrite <-Heq.
    apply elem_of_cons in Hp as [->|Hp]; [by left|].
    right. apply elem_of_app. by left. }
  assert (p ∉ e_addr <$> R) as HpR'.
  { apply elem_of_cons in Hp as [->|Hp].
    - intros ?. apply Hhdr, elem_of_app. by right.
    - by apply HAR. }
  destruct (set_fwd_spec h new i (hd_or None R) r Hslot)
    as (h1 & Hs1 & Hd1 & Hn1 & Ho1).
  destruct (set_fwd_spec h1 p i (Some new) (hd_or None R))
    as (h2 & Hs2 & Hd2 & Hn2 & Ho2).
  { rewrite Ho1; [done|by left]. }
  exists h2. split; [|split; [|split]].
  - unfold link_level, vec_get. rewrite Hu. simpl. rewrite Hlast. simpl.
    rewrite Hs1. simpl. done.
  - apply path_split. split.
    + apply (path_set_last h h2 i hdr A (hd_or None R)); [| |  |done].
      * constructor; [|done]. intros ?. apply Hhdr, elem_of_app. by left.
      * done.
      * intros a Ha Hne. fold p in Hne.
        rewrite Ho2 by by left. apply Ho1. left. intros ->.
        apply Hnew. destruct Ha as [->|Ha]; [by left|].
        right. apply elem_of_app. by left.
    + cbn [tail_path]. apply path_unfold. split.
      * fold new. rewrite Ho2; [done|]. left. done.
      * apply (tail_path_ext h); [|done]. intros a Ha.
        rewrite Ho2, Ho1; [done| |].
        -- left. intros ->. apply Hnew. right. apply elem_of_app.
           by right.
        -- left. by intros ->.
  - by eapply same_data_trans.
  - intros a j Hj. rewrite Ho2, Ho1; [done|by right|by right].
Qed.
End splice.

(** ** insert_element of a new key *)

Section insert_new.
Context (s : SkipList) (l : list Entry) (HR : Rep s l).
Context (key : Z) (value : string) (rl : nat).
Context (Hrl : rl ≤ MAX_LEVEL) (Hnone : find_key key l = None).

Local Abbreviation hdr := (header_ s).
Local Abbreviation new := (fresh (dom (heap s))).
Local Abbreviation enew := (mkEntry new key value rl).
Local Abbreviation h1 := (<[new := Node_new key value rl]> (heap s)).

Local Abbreviation inserted := (inserted s l key value rl).

Lemma new_not_allocated : heap s !! new = None.
Proof. apply not_elem_of_dom, is_fresh. Qed.

Lemma new_not_header : new ≠ hdr.
Proof.
  intros Heq. pose proof new_not_allocated as Hn.
  destruct (rep_header s l HR) as (k & v & Hh).
  rewrite <-Heq, Hn in Hh. done.
Qed.

Lemma new_not_entry : new ∉ e_addr <$> l.
Proof.
  intros (e & Heq & He)%list_elem_of_fmap.
  apply (rep_node s l HR) in He as (fw & Hh & _).
  rewrite <-Heq, new_not_allocated in Hh. done.
Qed.

Lemma new_not_member L : L ⊆ l → new ∉ hdr :: (e_addr <$> L).
Proof.
  intros HL [Heq|(e & Heq & He)%list_elem_of_fmap]%elem_of_cons.
  - by apply new_not_header.
  - apply new_not_entry. rewrite Heq. by apply list_elem_of_fmap_2, HL.
Qed.

Lemma fwd_h1_old a i : a ≠ new → fwd h1 a i = fwd (heap s) a i.
Proof. intros Hne. unfold fwd. by rewrite lookup_insert_ne. Qed.

Lemma fwd_h1_new i : i ≤ rl → fwd h1 new i = Some None.
Proof.
  intros Hi. unfold fwd, vec_get. rewrite lookup_insert_eq. simpl.
  apply lookup_replicate_2. lia.
Qed.

Lemma path_h1 i L x e :
  new ∉ x :: (e_addr <$> L) → path (heap s) i x L e → path h1 i x L e.
Proof.
  intros Hn. apply path_ext. intros a Ha. apply fwd_h1_old.
  intros ->. apply Hn. apply elem_of_cons. tauto.
Qed.

Lemma level_view_inserted_le i :
  i ≤ rl →
  level_view i inserted
  = below key (level_view i l) ++ enew :: above key (level_view i l).
Proof.
  intros Hi. unfold inserted.
  rewrite level_view_app, level_view_below, <-level_view_above.
  f_equal. unfold level_view at 1. by rewrite filter_cons_True.
Qed.

Lemma level_view_inserted_gt i :
  rl < i → level_view i inserted = level_view i l.
Proof.
  intros Hi. unfold inserted.
  rewrite (sorted_split key l) at 3 by apply HR.
  rewrite !level_view_app. f_equal.
  unfold level_view at 1. rewrite filter_cons_False; [done|simpl; lia].
Qed.

Lemma key_absent_above : Forall (λ e, (key < e_key e)%Z) (above key l).
Proof.
  clear Hrl.
  apply Forall_forall. intros e [Hk He]%list_elem_of_filter.
  pose proof (find_key_None key l e Hnone He). lia.
Qed.

Lemma inserted_sorted : StronglySorted key_lt inserted.
Proof.
  clear Hrl.
  pose proof (rep_sorted s l HR) as Hs.
  apply StronglySorted_app_2.
  - intros e1 e2 [Hk1 _]%list_elem_of_filter
      [->|[Hk2 He2]%list_elem_of_filter]%elem_of_cons.
    + done.
    + pose proof (find_key_None key l e2 Hnone He2).
      unfold key_lt. lia.
  - by apply sorted_filter.
  - constructor; [by apply sorted_filter|]. apply key_absent_above.
Qed.

Lemma inserted_elem_of e : e ∈ inserted ↔ e = enew ∨ e ∈ l.
Proof.
  unfold inserted. rewrite (sorted_split key l) at 3 by apply HR.
  rewrite !elem_of_app, elem_of_cons. tauto.
Qed.

Lemma inserted_length : length inserted = S (length l).
Proof.
  clear Hrl.
  unfold inserted. rewrite (sorted_split key l) at 3 by apply HR.
  rewrite !length_app. simpl. lia.
Qed.

Lemma level_NoDup i : NoDup (hdr :: (e_addr <$> level_view i l)).
Proof.
  pose proof (rep_NoDup s l HR) as [Hh Hnd]%NoDup_cons.
  constructor.
  - intros (e & Heq & He)%list_elem_of_fmap. apply Hh. rewrite Heq.
    by apply list_elem_of_fmap_2, (level_view_subseteq i).
  - eapply sorted_addr_NoDup.
    + apply sorted_level_view, HR.
    + intros e He%level_view_subseteq. by apply HR.
Qed.

Lemma link_loop (update : list (option addr)) n j h :
  j + n = S rl →
  (∀ i, i ≤ rl → update !! i = Some (Some (pred_at hdr key i l))) →
  same_data h1 h →
  (∀ i a, j ≤ i → fwd h a i = fwd h1 a i) →
  (∀ i, i < j → path h i hdr (level_view i inserted) None) →
  ∃ h2, for_each (link_level update new) (seq j n) h = Some h2 ∧
        same_data h1 h2 ∧
        (∀ i a, rl < i → fwd h2 a i = fwd h1 a i) ∧
        (∀ i, i ≤ rl → path h2 i hdr (level_view i inserted) None).
Proof.
  revert j h. induction n as [|n IH]; intros j h Hjn Hu Hd Hhi Hlo.
  - exists h. split; [done|]. split; [done|]. split.
    + intros i a Hi. apply Hhi. lia.
    + intros i Hi. apply Hlo. lia.
  - assert (j ≤ rl) as Hj by lia.
    assert (path h j hdr
              (below key (level_view j l) ++ above key (level_view j l))
              None) as Hp.
    { rewrite <-sorted_split by apply sorted_level_view, HR.
      apply (path_ext h1); [intros a _; by apply Hhi|].
      apply path_h1; [apply new_not_member, level_view_subseteq|].
      apply HR. lia. }
    destruct (link_level_path h j hdr _ _ enew update None Hp)
      as (h' & Hlink & Hp' & Hd' & Ho').
    { rewrite <-sorted_split by apply sorted_level_view, HR.
      apply level_NoDup. }
    { rewrite <-sorted_split by apply sorted_level_view, HR.
      apply new_not_member, level_view_subseteq. }
    { by apply Hu. }
    { simpl. rewrite Hhi by lia. by apply fwd_h1_new. }
    simpl in Hlink. cbn [seq for_each]. rewrite Hlink. simpl.
    apply IH; [lia|done|by eapply same_data_trans| |].
    + intros i a Hi. rewrite Ho' by lia. apply Hhi. lia.
    + intros i Hi. destruct (decide (i = j)) as [->|Hne].
      * by rewrite level_view_inserted_le.
      * apply (path_ext h); [intros; apply Ho'; lia|]. apply Hlo. lia.
Qed.

Local Abbreviation raised_level := (raised_level s rl).

Lemma link_all (update : list (option addr)) :
  (∀ i, i ≤ rl → update !! i = Some (Some (pred_at hdr key i l))) →
  ∃ h2, for_each (link_level update new) (seq 0 (S rl)) h1 = Some h2 ∧
        Rep (mkSkipList hdr raised_level (element_count_ s + 1)%Z h2)
            inserted.
Proof.
  intros Hu.
  destruct (link_loop update (S rl) 0 h1) as (h2 & Hfe & Hd & Hhi & Hlo);
    [done|done|done|done|intros; lia|].
  exists h2. split; [done|].
  pose proof (rep_cl s l HR) as Hcl.
  assert (same_data h1 h2 → ∀ e, e ∈ l → node_of h2 e) as Hold.
  { intros _ e He. apply (node_of_same_data h1); [done|].
    destruct (rep_node s l HR e He) as (fw & Hh & Hlen).
    exists fw. split; [|done]. rewrite lookup_insert_ne; [done|].
    intros Heq. apply new_not_entry. rewrite Heq.
    by apply list_elem_of_fmap_2. }
  constructor; simpl.
  - destruct (rep_header s l HR) as (k & v & Hh). exists k, v.
    rewrite <-Hd, lookup_insert_ne; [done|]. apply new_not_header.
  - intros e [->|He]%inserted_elem_of; [|by apply Hold].
    apply (node_of_same_data h1); [done|].
    exists (replicate (rl + 1) None). simpl.
    rewrite lookup_insert_eq. split; [done|].
    rewrite length_replicate. lia.
  - rewrite <-(same_data_dom _ _ Hd), dom_insert_L.
    pose proof (rep_dom s l HR) as Hdom.
    set (a0 := fresh (dom (heap s))) in *. rewrite Hdom.
    apply set_eq. intros a.
    rewrite !elem_of_union, !elem_of_singleton, !elem_of_list_to_set,
      !list_elem_of_fmap.
    setoid_rewrite inserted_elem_of. naive_solver.
  - intros (e & Heq & [->|He]%inserted_elem_of)%list_elem_of_fmap.
    + simpl in Heq. by apply new_not_header.
    + apply (rep_fresh s l HR). rewrite Heq.
      by apply list_elem_of_fmap_2.
  - apply inserted_sorted.
  - unfold raised_level.
    intros e [->|He%(rep_lvl s l HR)]%inserted_elem_of; simpl;
      case_decide; lia.
  - unfold raised_level. case_decide; lia.
  - intros i Hi. destruct (decide (i ≤ rl)) as [Hle|Hgt].
    + by apply Hlo.
    + rewrite level_view_inserted_gt by lia.
      apply (path_ext h1); [intros; apply Hhi; lia|].
      apply path_h1; [apply new_not_member, level_view_subseteq|].
      by apply HR.
  - rewrite inserted_length, (rep_count s l HR). lia.
  - unfold raised_level. case_decide as Hc.
    + right. rewrite level_view_inserted_le by done.
      by destruct (below key (level_view rl l)).
    + destruct (rep_top s l HR) as [H0|Hne]; [left; done|right].
      destruct (level_view (current_level_ s) l) as [|e L] eqn:E; [done|].
      intros Hnil.
      assert (e ∈ level_view (current_level_ s) inserted) as He.
      { apply list_elem_of_filter.
        assert (e ∈ level_view (current_level_ s) l) as He'
          by (rewrite E; by left).
        apply list_elem_of_filter in He' as [? ?].
        split; [done|]. apply inserted_elem_of. by right. }
      rewrite Hnil in He. by apply elem_of_nil in He.
Qed.

Lemma insert_element_new g g' :
  get_random_level g = Some (rl, g') →
  ∃ s', insert_element g s key value = Some (true, s', g') ∧
        Rep s' inserted ∧
        header_ s' = hdr ∧
        current_level_ s' = raised_level ∧
        element_count_ s' = (element_count_ s + 1)%Z.
Proof.
  intros Hg. pose proof (rep_cl s l HR) as Hcl.
  destruct (find_path_top s l HR key) as (upd & Hfp & Hlen & Hlo & Hhi).
  pose proof (target_spec s l HR key) as Ht. rewrite Hnone in Ht.
  unfold insert_element. rewrite Hfp. simpl. rewrite Ht. simpl.
  rewrite Hg. simpl. unfold raised_level.
  destruct (decide (current_level_ s < rl)) as [Hlt|Hge].
  - destruct (raise_update_spec hdr (current_level_ s) rl upd)
      as (upd' & Hr & Hlen' & Hlk); [lia|lia|].
    rewrite Hr. simpl.
    destruct (link_all upd') as (h2 & Hfe & HRep).
    { intros i Hi. rewrite Hlk. case_decide as Hc.
      - rewrite pred_at_top; [done|].
        intros e He%(rep_lvl s l HR). lia.
      - apply Hlo. lia. }
    simpl in Hfe. rewrite Hfe. simpl. eexists. split; [done|].
    unfold raised_level in HRep. rewrite decide_True in HRep by done.
    done.
  - simpl. destruct (link_all upd) as (h2 & Hfe & HRep).
    { intros i Hi. apply Hlo. lia. }
    simpl in Hfe. rewrite Hfe. simpl. eexists. split; [done|].
    unfold raised_level in HRep. rewrite decide_False in HRep by done.
    done.
Qed.
End insert_new.

(** ** insert_element of a key that is present *)

Section set_val.
Context (key : Z) (value : string).
Local Abbreviation f := (set_val key value).

Lemma set_val_addr e : e_addr (f e) = e_addr e.
Proof. unfold set_val. by case_bool_decide. Qed.

Lemma set_val_key e : e_key (f e) = e_key e.
Proof. unfold set_val. by case_bool_decide. Qed.

Lemma set_val_lvl e : e_lvl (f e) = e_lvl e.
Proof. unfold set_val. by case_bool_decide. Qed.

Lemma set_val_addrs (L : list Entry) : e_addr <$> (f <$> L) = e_addr <$> L.
Proof.
  rewrite <-list_fmap_compose. apply list_fmap_ext.
  intros i e _. apply set_val_addr.
Qed.

Lemma set_val_sorted (L : list Entry) :
  StronglySorted key_lt L → StronglySorted key_lt (f <$> L).
Proof.
  induction 1 as [|e L HL IH Hall]; [constructor|].
  rewrite fmap_cons. constructor; [done|].
  apply Forall_fmap. eapply Forall_impl; [exact Hall|].
  intros e'. unfold key_lt. simpl. by rewrite !set_val_key.
Qed.

Lemma set_val_level_view i (L : list Entry) :
  level_view i (f <$> L) = f <$> level_view i L.
Proof.
  unfold level_view. induction L as [|e L IH]; [done|].
  rewrite fmap_cons, !filter_cons, set_val_lvl, IH.
  by case_decide.
Qed.

Lemma set_val_find_key k (L : list Entry) :
  find_key k (f <$> L) = f <$> find_key k L.
Proof.
  induction L as [|e L IH]; [done|].
  rewrite fmap_cons. simpl. rewrite set_val_key, IH.
  by case_bool_decide.
Qed.
End set_val.

Section insert_existing.
Context (s : SkipList) (l : list Entry) (HR : Rep s l).
Context (key : Z) (value : string) (ec : Entry).
Context (Hfind : find_key key l = Some ec).

Local Abbreviation hdr := (header_ s).
Local Abbreviation c := (e_addr ec).

Lemma insert_element_existing g :
  ∃ n, heap s !! c = Some n ∧ key_ n = key ∧
       insert_element g s key value
       = Some (true,
               mkSkipList hdr (current_level_ s) (element_count_ s)
                          (<[c := set_value n value]> (heap s)),
               g) ∧
       Rep (mkSkipList hdr (current_level_ s) (element_count_ s)
                       (<[c := set_value n value]> (heap s)))
           (set_val key value <$> l).
Proof.
  pose proof (find_key_Some _ _ _ Hfind) as [Hec Hk].
  destruct (find_path_top s l HR key) as (upd & Hfp & _).
  pose proof (target_spec s l HR key) as Ht. rewrite Hfind in Ht.
  destruct Ht as (fw & Ht & Hh & Hlen).
  eexists. split; [exact Hh|]. split; [done|]. split.
  { unfold insert_element. rewrite Hfp. simpl. rewrite Ht. done. }
  set (n := mkNode (e_key ec) (e_val ec) (e_lvl ec) fw) in *.
  assert (∀ a i, fwd (<[c:=set_value n value]> (heap s)) a i
                 = fwd (heap s) a i) as Hfwd.
  { intros a i. unfold fwd. destruct (decide (a = c)) as [->|Hne].
    - by rewrite lookup_insert_eq, Hh.
    - by rewrite lookup_insert_ne. }
  constructor; simpl.
  - destruct (rep_header s l HR) as (k & v & Hhd). exists k, v.
    rewrite lookup_insert_ne; [done|]. intros Heq.
    apply (rep_fresh s l HR). rewrite <-Heq.
    by apply list_elem_of_fmap_2.
  - intros e' (e & -> & He)%list_elem_of_fmap.
    unfold node_of. rewrite set_val_addr, set_val_key, set_val_lvl.
    destruct (decide (e_key e = key)) as [Heq|Hne].
    + assert (e = ec) as -> by (eapply sorted_key_inj;
        [apply HR|done|done|congruence]).
      exists fw. rewrite lookup_insert_eq. unfold set_val.
      rewrite bool_decide_eq_true_2 by done. done.
    + destruct (rep_node s l HR e He) as (fw' & Hh' & Hlen').
      exists fw'. unfold set_val. rewrite bool_decide_eq_false_2 by done.
      rewrite lookup_insert_ne; [done|]. intros Heq.
      rewrite <-Heq, Hh in Hh'. injection Hh' as ? _ _ _. congruence.
  - rewrite dom_insert_L, set_val_addrs, (rep_dom s l HR).
    assert (c ∈ e_addr <$> l) by by apply list_elem_of_fmap_2.
    set_solver.
  - rewrite set_val_addrs. apply HR.
  - apply set_val_sorted, HR.
  - intros e' (e & -> & He)%list_elem_of_fmap. rewrite set_val_lvl.
    by apply HR.
  - apply HR.
  - intros i Hi. rewrite set_val_level_view.
    apply (path_addrs _ _ _ (level_view i l));
      [by rewrite set_val_addrs|].
    apply (path_ext (heap s)); [intros; apply Hfwd|]. by apply HR.
  - rewrite length_fmap. apply HR.
  - destruct (rep_top s l HR) as [?|Hne]; [by left|right].
    rewrite set_val_level_view. intros Hnil%fmap_nil_inv. done.
Qed.
End insert_existing.

(** ** delete_element of a key that is present *)

Lemma filter_all {A} (P : A → Prop) `{!∀ x, Decision (P x)} (L : list A) :
  Forall P L → filter P L = L.
Proof.
  induction 1 as [|x L Hx HL IH]; [done|].
  by rewrite filter_cons_True, IH.
Qed.

Lemma level_view_nil_inv i (L : list Entry) e :
  level_view i L = [] → e ∈ L → e_lvl e < i.
Proof.
  intros Hnil He. destruct (decide (i ≤ e_lvl e)) as [Hle|]; [|lia].
  assert (e ∈ level_view i L) as Hin by by apply list_elem_of_filter.
  rewrite Hnil in Hin. by apply elem_of_nil in Hin.
Qed.

Lemma lower_level_spec h hdr (L : list Entry) cl :
  (∀ i, i ≤ cl → fwd h hdr i = Some (hd_or None (level_view i L))) →
  (∀ e, e ∈ L → e_lvl e ≤ cl) →
  ∃ cl', lower_level h hdr cl = Some cl' ∧ cl' ≤ cl ∧
         (∀ e, e ∈ L → e_lvl e ≤ cl') ∧
         (cl' = 0 ∨ level_view cl' L ≠ []).
Proof.
  induction cl as [|cl IH]; intros Hfw Hl.
  - exists 0. split; [done|]. split; [done|]. split; [done|by left].
  - cbn [lower_level]. rewrite Hfw by done. simpl.
    destruct (level_view (S cl) L) as [|b L'] eqn:E; simpl.
    + destruct IH as (cl' & Hlow & Hle & Hl' & Htop).
      * intros i Hi. apply Hfw. lia.
      * intros e He. pose proof (level_view_nil_inv _ _ _ E He). lia.
      * exists cl'. split; [done|]. split; [lia|done].
    + exists (S cl). split; [done|]. split; [done|]. split; [done|].
      right. by rewrite E.
Qed.

(** [update[i]->forward_[i] = current->forward_[i];] removes the node from
    the list of level [i]. *)
Lemma unlink_level_path h i hdr (A R : list Entry) ec :
  path h i hdr (A ++ ec :: R) None →
  NoDup (hdr :: (e_addr <$> A ++ ec :: R)) →
  fwd h (lastd hdr A) i = Some (Some (e_addr ec)) ∧
  fwd h (e_addr ec) i = Some (hd_or None R) ∧
  ∃ h', set_fwd h (lastd hdr A) i (hd_or None R) = Some h' ∧
        path h' i hdr (A ++ R) None ∧
        same_data h h' ∧
        (∀ a j, j ≠ i → fwd h' a j = fwd h a j).
Proof.
  intros [HpA HpR]%path_split Hnd.
  pose proof (path_last _ _ _ _ _ HpA) as Hlast.
  cbn [tail_path] in HpR. apply path_unfold in HpR as [Hc HpR].
  pose proof (lastd_in hdr A) as Hp.
  set (p := lastd hdr A) in *.
  rewrite fmap_app, fmap_cons in Hnd.
  apply NoDup_cons in Hnd as [Hhdr Hnd].
  apply NoDup_app in Hnd as (HndA & HAR & HndR).
  assert (p ∉ e_addr <$> R) as HpR'.
  { intros Hin. apply elem_of_cons in Hp as [Heq|Hp].
    - apply Hhdr. rewrite <-Heq. apply elem_of_app. right. by right.
    - apply (HAR p Hp). by right. }
  split; [done|]. split; [done|].
  destruct (set_fwd_spec h p i (hd_or None R) _ Hlast)
    as (h' & Hs & Hd & Hn & Ho).
  exists h'. split; [done|]. split; [|split; [done|]].
  - apply path_split. split.
    + apply (path_set_last h h' i hdr A (Some (e_addr ec))); [|done| |done].
      * constructor; [|done]. intros ?. apply Hhdr, elem_of_app. by left.
      * intros a Ha Hne. apply Ho. by left.
    + apply (tail_path_ext h); [|done]. intros a Ha. apply Ho. left.
      by intros ->.
  - intros a j Hj. apply Ho. by right.
Qed.

Section delete_present.
Context (s : SkipList) (l : list Entry) (HR : Rep s l).
Context (key : Z) (ec : Entry) (Hfind : find_key key l = Some ec).

Local Abbreviation hdr := (header_ s).
Local Abbreviation c := (e_addr ec).
Local Abbreviation h0 := (heap s).

Lemma present_elem_of : ec ∈ l ∧ e_key ec = key.
Proof. by apply find_key_Some. Qed.

Lemma rep_addr_inj e1 e2 :
  e1 ∈ l → e2 ∈ l → e_addr e1 = e_addr e2 → e1 = e2.
Proof.
  intros H1 H2 Heq.
  destruct (rep_node s l HR e1 H1) as (fw1 & Hh1 & _).
  destruct (rep_node s l HR e2 H2) as (fw2 & Hh2 & _).
  rewrite Heq, Hh2 in Hh1. injection Hh1 as Hk _ _ _.
  eapply sorted_key_inj; [apply HR|done|done|done].
Qed.

Lemma above_present : ∃ R0, above key l = ec :: R0.
Proof.
  pose proof Hfind as Hf. rewrite find_key_above in Hf by apply HR.
  destruct (above key l) as [|e R0]; [done|].
  case_bool_decide; [|done]. injection Hf as ->. eauto.
Qed.

Lemma removed_elem_of e : e ∈ removed key l ↔ e ∈ l ∧ e ≠ ec.
Proof.
  destruct present_elem_of as [Hec Hk].
  unfold removed. rewrite list_elem_of_filter. split.
  - intros [Hne He]. split; [done|]. intros ->. done.
  - intros [He Hne]. split; [|done]. intros Heq. apply Hne.
    eapply sorted_key_inj; [apply HR|done|done|congruence].
Qed.

Lemma removed_split R0 :
  above key l = ec :: R0 → removed key l = below key l ++ R0.
Proof.
  intros Ha. destruct present_elem_of as [Hec Hk].
  pose proof (rep_sorted s l HR) as Hs.
  assert (StronglySorted key_lt (above key l)) as Hsa
    by by apply sorted_filter.
  unfold removed. rewrite (sorted_split key l Hs) at 1.
  rewrite filter_app, Ha, filter_cons_False by (intros ?; done).
  f_equal; apply filter_all.
  - eapply Forall_impl; [apply below_Forall|]. simpl. lia.
  - rewrite Ha in Hsa. apply StronglySorted_inv in Hsa as [_ Hall].
    eapply Forall_impl; [exact Hall|]. unfold key_lt. simpl. lia.
Qed.

Lemma level_view_low i R0 :
  above key l = ec :: R0 → i ≤ e_lvl ec →
  level_view i l = below key (level_view i l) ++ ec :: level_view i R0.
Proof.
  intros Ha Hi.
  rewrite (sorted_split key (level_view i l)) at 1
    by apply sorted_level_view, HR.
  f_equal. rewrite <-level_view_above, Ha.
  unfold level_view at 1. by rewrite filter_cons_True.
Qed.

Lemma level_view_high i R0 :
  above key l = ec :: R0 → e_lvl ec < i →
  level_view i l = below key (level_view i l) ++ level_view i R0.
Proof.
  intros Ha Hi.
  rewrite (sorted_split key (level_view i l)) at 1
    by apply sorted_level_view, HR.
  f_equal. rewrite <-level_view_above, Ha.
  unfold level_view at 1. rewrite filter_cons_False; [done|lia].
Qed.

Lemma level_view_removed i R0 :
  above key l = ec :: R0 →
  level_view i (removed key l)
  = below key (level_view i l) ++ level_view i R0.
Proof.
  intros Ha. rewrite (removed_split R0 Ha).
  by rewrite level_view_app, level_view_below.
Qed.

Lemma removed_length : length l = S (length (removed key l)).
Proof.
  destruct above_present as (R0 & Ha).
  rewrite (removed_split R0 Ha).
  rewrite (sorted_split key l) at 1 by apply HR.
  rewrite Ha, !length_app. simpl. lia.
Qed.

Lemma header_not_c : hdr ≠ c.
Proof.
  destruct present_elem_of as [Hec _]. intros Heq.
  apply (rep_fresh s l HR). rewrite Heq. by apply list_elem_of_fmap_2.
Qed.

Lemma removed_not_c L :
  L ⊆ removed key l → c ∉ hdr :: (e_addr <$> L).
Proof.
  destruct present_elem_of as [Hec _].
  intros HL [Heq|(e & Heq & He)%list_elem_of_fmap]%elem_of_cons.
  - by apply header_not_c.
  - apply HL, removed_elem_of in He as [He Hne]. apply Hne.
    symmetry. by apply rep_addr_inj.
Qed.

Lemma unlink_loop (update : list (option addr)) n j h :
  j + n = S (current_level_ s) → j ≤ S (e_lvl ec) →
  (∀ i, i ≤ current_level_ s →
        update !! i = Some (Some (pred_at hdr key i l))) →
  same_data h0 h →
  (∀ i a, j ≤ i → fwd h a i = fwd h0 a i) →
  (∀ i, i < j → path h i hdr (level_view i (removed key l)) None) →
  ∃ h2, unlink (seq j n) update c h = Some h2 ∧
        same_data h0 h2 ∧
        (∀ i a, e_lvl ec < i → fwd h2 a i = fwd h0 a i) ∧
        (∀ i, i ≤ e_lvl ec →
              path h2 i hdr (level_view i (removed key l)) None).
Proof.
  destruct present_elem_of as [Hec Hk].
  destruct above_present as (R0 & Ha).
  pose proof (rep_cl s l HR) as Hcl.
  pose proof (rep_lvl s l HR ec Hec) as Hlvl.
  revert j h. induction n as [|n IH]; intros j h Hjn Hj Hu Hd Hhi Hlo.
  - exists h. split; [done|]. split; [done|]. split.
    + intros i a Hi. apply Hhi. lia.
    + intros i Hi. apply Hlo. lia.
  - cbn [seq unlink]. unfold vec_get. rewrite Hu by lia. simpl.
    destruct (decide (j ≤ e_lvl ec)) as [Hle|Hgt].
    + assert (path h j hdr
                (below key (level_view j l) ++ ec :: level_view j R0)
                None) as Hp.
      { rewrite <-level_view_low by done.
        apply (path_ext h0); [intros a _; by apply Hhi|].
        apply HR. lia. }
      destruct (unlink_level_path h j hdr _ _ ec Hp)
        as (Hf1 & Hf2 & h' & Hs & Hp' & Hd' & Ho').
      { rewrite <-level_view_low by done. apply (level_NoDup s l HR). }
      fold (pred_at hdr key j l) in Hf1, Hs.
      rewrite Hf1. simpl. rewrite decide_True by done.
      rewrite Hf2. simpl. rewrite Hs. simpl.
      apply IH; [lia|lia|done|by eapply same_data_trans| |].
      * intros i a Hi. rewrite Ho' by lia. apply Hhi. lia.
      * intros i Hi. destruct (decide (i = j)) as [->|Hne].
        -- by rewrite (level_view_removed _ R0).
        -- apply (path_ext h); [intros; apply Ho'; lia|]. apply Hlo. lia.
    + assert (j = S (e_lvl ec)) as -> by lia.
      rewrite (Hhi _ (pred_at hdr key (S (e_lvl ec)) l)) by lia.
      rewrite (fwd_pred_at s l HR) by lia. simpl.
      rewrite decide_False.
      * exists h. split; [done|]. split; [done|]. split.
        -- intros i a Hi. apply Hhi. lia.
        -- intros i Hi. apply Hlo. lia.
      * rewrite <-level_view_above, Ha. unfold level_view at 1.
        rewrite filter_cons_False by lia.
        destruct (filter _ R0) as [|b L] eqn:E; [done|]. simpl.
        intros [= Heq].
        assert (b ∈ R0) as Hb.
        { assert (b ∈ filter (λ e, S (e_lvl ec) ≤ e_lvl e) R0) as Hb'
            by (rewrite E; by left).
          by apply list_elem_of_filter in Hb' as [_ ?]. }
        pose proof (rep_NoDup s l HR) as [_ Hnd]%NoDup_cons.
        rewrite (sorted_split key l), Ha, fmap_app, fmap_cons in Hnd
          by apply HR.
        apply NoDup_app in Hnd as (_ & _ & [Hnin _]%NoDup_cons).
        apply Hnin. rewrite <-Heq. by apply list_elem_of_fmap_2.
Qed.

Lemma delete_element_present :
  ∃ s', delete_element s key = Some (true, s') ∧
        Rep s' (removed key l) ∧
        header_ s' = hdr ∧
        element_count_ s' = (element_count_ s - 1)%Z.
Proof.
  destruct present_elem_of as [Hec Hk].
  destruct above_present as (R0 & Ha).
  pose proof (rep_cl s l HR) as Hcl.
  pose proof (rep_lvl s l HR ec Hec) as Hlvl.
  destruct (find_path_top s l HR key) as (upd & Hfp & Hlen & Hlo & Hhi).
  pose proof (target_spec s l HR key) as Ht. rewrite Hfind in Ht.
  destruct Ht as (fw & Ht & Hh & Hfwlen).
  destruct (unlink_loop upd (S (current_level_ s)) 0 h0)
    as (h2 & Hun & Hd & Hhigh & Hlow);
    [done|lia|done|done|done|intros; lia|].
  assert (∀ i, i ≤ MAX_LEVEL →
               path h2 i hdr (level_view i (removed key l)) None) as Hp2.
  { intros i Hi. destruct (decide (i ≤ e_lvl ec)) as [Hle|Hgt].
    - by apply Hlow.
    - rewrite (level_view_removed _ R0), <-level_view_high by (done || lia).
      apply (path_ext h0); [intros; apply Hhigh; lia|]. by apply HR. }
  destruct (lower_level_spec h2 hdr (removed key l) (current_level_ s))
    as (cl' & Hlower & Hcl' & Hl' & Htop).
  { intros i Hi. specialize (Hp2 i). apply path_unfold in Hp2 as [? _];
      [done|lia]. }
  { intros e [He _]%removed_elem_of. by apply HR. }
  assert (is_Some (h2 !! c)) as [nc Hnc].
  { specialize (Hd c). rewrite Hh in Hd. simpl in Hd.
    destruct (h2 !! c); [eauto|done]. }
  exists (mkSkipList hdr cl' (element_count_ s - 1)%Z (delete c h2)).
  split.
  { unfold delete_element. rewrite Hfp. simpl. rewrite Ht. simpl.
    simpl in Hun. rewrite Hun. simpl. rewrite Hlower. simpl.
    unfold free. rewrite Hnc. done. }
  split; [|done].
  constructor; simpl.
  - destruct (rep_header s l HR) as (k & v & Hhd). exists k, v.
    rewrite lookup_delete_ne by (apply not_eq_sym, header_not_c).
    by rewrite <-Hd.
  - intros e He. pose proof He as [He' Hne]%removed_elem_of.
    apply node_of_data. rewrite lookup_delete_ne, <-Hd.
    + apply node_of_data. by apply HR.
    + intros Heq. apply (removed_not_c (removed key l)); [done|].
      right. rewrite Heq. by apply list_elem_of_fmap_2.
  - rewrite dom_delete_L, <-(same_data_dom _ _ Hd), (rep_dom s l HR).
    apply set_eq. intros a.
    rewrite elem_of_difference, !elem_of_union, !elem_of_singleton,
      !elem_of_list_to_set, !list_elem_of_fmap.
    setoid_rewrite removed_elem_of. split.
    + intros [[->|(e & -> & He)] Hne]; [by left|right].
      exists e. split; [done|]. split; [done|]. by intros ->.
    + intros [->|(e & -> & He & Hne)].
      * split; [by left|]. apply header_not_c.
      * split; [eauto|]. intros Heq. apply Hne.
        by apply rep_addr_inj.
  - intros (e & Heq & [He _]%removed_elem_of)%list_elem_of_fmap.
    apply (rep_fresh s l HR). rewrite Heq. by apply list_elem_of_fmap_2.
  - apply sorted_filter, HR.
  - done.
  - lia.
  - intros i Hi. apply (path_ext h2); [|by apply Hp2].
    intros a Hmem. unfold fwd. rewrite lookup_delete_ne; [done|].
    intros <-. apply (removed_not_c (level_view i (removed key l)));
      [apply level_view_subseteq|].
    apply elem_of_cons. tauto.
  - rewrite (rep_count s l HR), removed_length. lia.
  - done.
Qed.
End delete_present.

(** ** delete_element of an absent key, clear and the constructor *)

Lemma delete_element_absent s l key :
  Rep s l → find_key key l = None → delete_element s key = Some (false, s).
Proof.
  intros HR Hnone.
  destruct (find_path_top s l HR key) as (upd & Hfp & _).
  pose proof (target_spec s l HR key) as Ht. rewrite Hnone in Ht.
  unfold delete_element. rewrite Hfp. simpl. by rewrite Ht.
Qed.

Lemma free_chain_spec h fuel (L : list Entry) :
  tail_path h 0 L None → NoDup (e_addr <$> L) → length L ≤ fuel →
  ∃ h', free_chain fuel h (hd_or None L) = Some h' ∧
        ∀ a, h' !! a = if decide (a ∈ e_addr <$> L) then None else h !! a.
Proof.
  revert h fuel. induction L as [|b L IH]; intros h fuel Hp Hnd Hf.
  - exists h. split; [by destruct fuel|]. intros a.
    rewrite decide_False; [done|]. by intros ?%elem_of_nil.
  - destruct fuel as [|fuel]; [simpl in Hf; lia|].
    cbn [tail_path] in Hp. apply path_unfold in Hp as [Hfw Hp].
    rewrite fmap_cons in Hnd. apply NoDup_cons in Hnd as [Hb Hnd].
    pose proof Hfw as (n & Hn & _)%fwd_Some.
    destruct (IH (delete (e_addr b) h) fuel) as (h' & Hfc & Hlk);
      [|done|simpl in Hf; lia|].
    { apply (tail_path_ext h); [|done]. intros a Ha. unfold fwd.
      rewrite lookup_delete_ne; [done|]. intros Heq. by subst a. }
    exists h'. split.
    + cbn [free_chain hd_or]. rewrite Hfw. simpl. unfold free.
      rewrite Hn. simpl. done.
    + intros a. rewrite Hlk, fmap_cons.
      destruct (decide (a = e_addr b)) as [->|Hne].
      * rewrite decide_False by done. rewrite lookup_delete_eq.
        rewrite decide_True; [done|by left].
      * rewrite lookup_delete_ne by done.
        repeat case_decide; try done.
        -- exfalso. apply H0. by right.
        -- exfalso. apply elem_of_cons in H0 as [?|?]; done.
Qed.

Lemma clear_spec s l : Rep s l → ∃ s', clear s = Some s' ∧ Rep s' [].
Proof.
  intros HR.
  pose proof (rep_NoDup s l HR) as [Hhdr Hnd]%NoDup_cons.
  destruct (free_chain_spec (heap s) (size (heap s)) l)
    as (h1 & Hfc & Hlk); [| done |rewrite (rep_size s l HR); lia|].
  { pose proof (rep_links s l HR 0) as Hp. rewrite level_view_0 in Hp.
    apply path_unfold in Hp as [_ Hp]; [done|lia]. }
  destruct (rep_header s l HR) as (k & v & Hh).
  destruct (heap s !! header_ s) as [hn|] eqn:Ehn; [|done].
  simpl in Hh. injection Hh as Hk Hv Hlv Hlen.
  assert (h1 !! header_ s = Some hn) as Hh1.
  { rewrite Hlk, decide_False; done. }
  eexists. split.
  { unfold clear. rewrite (rep_fwd_header s l HR) by lia. simpl.
    rewrite level_view_0, Hfc. simpl. rewrite Hh1. simpl. done. }
  constructor; simpl.
  - exists k, v. rewrite lookup_insert_eq. simpl. unfold data. simpl.
    rewrite length_replicate. congruence.
  - by intros e ?%elem_of_nil.
  - rewrite dom_insert_L. apply set_eq. intros a.
    rewrite !elem_of_union, !elem_of_singleton, elem_of_dom, Hlk.
    pose proof (not_elem_of_empty (C := gset addr) a) as Hempty.
    case_decide as Hin.
    + split; (intros [->|Hx]; [by left|]); [by destruct Hx|done].
    + split; (intros [->|Hx]; [by left|]); [|done].
      apply elem_of_dom in Hx. rewrite (rep_dom s l HR) in Hx.
      apply elem_of_union in Hx as [->%elem_of_singleton|Hx]; [by left|].
      by apply elem_of_list_to_set in Hx.
  - by intros ?%elem_of_nil.
  - constructor.
  - by intros e ?%elem_of_nil.
  - lia.
  - intros i Hi. simpl. unfold fwd, vec_get. rewrite lookup_insert_eq.
    simpl. apply lookup_replicate_2. lia.
  - done.
  - by left.
Qed.

Lemma SkipList_new_Rep : Rep SkipList_new [].
Proof.
  unfold SkipList_new, alloc.
  constructor; cbn [header_ heap current_level_ element_count_].
  - exists 0%Z, "". by rewrite lookup_insert_eq.
  - by intros e ?%elem_of_nil.
  - rewrite dom_insert_L. set_solver.
  - by intros ?%elem_of_nil.
  - constructor.
  - by intros e ?%elem_of_nil.
  - lia.
  - intros i Hi. cbn [level_view filter list_filter path].
    unfold fwd, vec_get. rewrite lookup_insert_eq.
    cbn [mbind option_bind Node_new forward_].
    apply lookup_replicate_2. lia.
  - done.
  - by left.
Qed.

(** ** The values bound after a call *)

Section abstract_ops.
Implicit Types (l : list Entry) (k key : Z).

Lemma find_key_is_Some key l :
  is_Some (find_key key l) ↔ key ∈ e_key <$> l.
Proof.
  induction l as [|e l IH].
  - split; [by intros [? ?]|by intros ?%elem_of_nil].
  - rewrite fmap_cons, elem_of_cons. cbn [find_key]. case_bool_decide.
    + split; [by left|eauto].
    + rewrite IH. split; [by right|]. intros [?|?]; [congruence|done].
Qed.

Lemma find_key_None_iff key l :
  find_key key l = None ↔ key ∉ e_key <$> l.
Proof.
  rewrite <-find_key_is_Some, eq_None_not_Some. done.
Qed.

(** On sorted lists [find_key] only depends on the entries of the key. *)
Lemma find_key_ext k l l' :
  StronglySorted key_lt l → StronglySorted key_lt l' →
  (∀ e, e_key e = k → e ∈ l ↔ e ∈ l') →
  find_key k l = find_key k l'.
Proof.
  intros Hs Hs' Hiff.
  destruct (find_key k l) as [e|] eqn:E.
  - apply find_key_Some in E as [He Hk]. symmetry. rewrite <-Hk.
    apply find_key_elem_of; [done|]. by apply Hiff.
  - destruct (find_key k l') as [e'|] eqn:E'; [|done].
    apply find_key_Some in E' as [He' Hk'].
    apply Hiff in He'; [|done].
    by eapply find_key_None in E.
Qed.

Lemma val_of_set_val key value k l :
  val_of k (set_val key value <$> l)
  = if decide (k = key)
    then (λ _, value) <$> find_key k l
    else val_of k l.
Proof.
  unfold val_of. rewrite set_val_find_key.
  destruct (find_key k l) as [e|] eqn:E; simpl; [|by case_decide].
  apply find_key_Some in E as [_ Hk]. unfold set_val.
  case_decide; case_bool_decide; simpl; congruence.
Qed.

Lemma val_of_removed key k l :
  StronglySorted key_lt l →
  val_of k (removed key l) = if decide (k = key) then None else val_of k l.
Proof.
  intros Hs. unfold val_of. case_decide as Hk.
  - subst k. destruct (find_key key (removed key l)) as [e|] eqn:E; [|done].
    apply find_key_Some in E as [[? _]%list_elem_of_filter ?]. done.
  - f_equal. apply find_key_ext; [by apply sorted_filter|done|].
    intros e He. unfold removed. rewrite list_elem_of_filter.
    split; [tauto|]. intros ?. split; [congruence|done].
Qed.
End abstract_ops.

Lemma val_of_inserted s l key value rl k :
  Rep s l → find_key key l = None →
  val_of k (inserted s l key value rl)
  = if decide (k = key) then Some value else val_of k l.
Proof.
  intros HR Hnone. unfold val_of.
  pose proof (inserted_sorted s l HR key value rl Hnone) as Hs.
  case_decide as Hk.
  - subst k.
    rewrite (find_key_elem_of _
               (mkEntry (fresh (dom (heap s))) key value rl) Hs); [done|].
    apply (inserted_elem_of s l HR). by left.
  - f_equal. apply find_key_ext; [done|apply HR|].
    intros e He. rewrite (inserted_elem_of s l HR).
    split; [|tauto]. intros [->|?]; [|done]. simpl in He. congruence.
Qed.

(** ** Every call preserves the invariant *)

Lemma run_op_Rep g s l op :
  Rep s l →
  ∃ s' g' l', run_op g s op = Some (s', g') ∧ Rep s' l' ∧
              ∀ k, val_of k l' = apply_op k (val_of k l) op.
Proof.
  intros HR. destruct op as [key value|key|]; simpl.
  - destruct (find_key key l) as [ec|] eqn:E.
    + destruct (insert_element_existing s l HR key value ec E g)
        as (n & Hn & Hk & Hins & HR').
      rewrite Hins. simpl. eexists _, _, _. split; [done|]. split; [done|].
      intros k. rewrite val_of_set_val. case_decide; [|done].
      subst k. by rewrite E.
    + destruct (get_random_level_bound g) as (rl & g' & Hg & Hrl).
      destruct (insert_element_new s l HR key value rl Hrl E g g' Hg)
        as (s' & Hins & HR' & _).
      rewrite Hins. simpl. eexists _, _, _. split; [done|]. split; [done|].
      intros k. by apply val_of_inserted.
  - destruct (find_key key l) as [ec|] eqn:E.
    + destruct (delete_element_present s l HR key ec E)
        as (s' & Hdel & HR' & _).
      rewrite Hdel. simpl. eexists _, _, _. split; [done|]. split; [done|].
      intros k. apply val_of_removed, HR.
    + rewrite (delete_element_absent s l key HR E). simpl.
      eexists _, _, _. split; [done|]. split; [done|].
      intros k. case_decide; [|done]. subst k. unfold val_of. by rewrite E.
  - destruct (clear_spec s l HR) as (s' & Hc & HR'). rewrite Hc. simpl.
    eexists _, _, _. split; [done|]. split; [done|]. done.
Qed.

Lemma run_ops_Rep g s l ops :
  Rep s l →
  ∃ s' g' l', run_ops g s ops = Some (s', g') ∧ Rep s' l' ∧
              ∀ k, val_of k l' = foldl (apply_op k) (val_of k l) ops.
Proof.
  revert g s l. induction ops as [|op ops IH]; intros g s l HR.
  - eexists _, _, _. split; [done|]. split; [done|]. done.
  - destruct (run_op_Rep g s l op HR) as (s1 & g1 & l1 & Hop & HR1 & Hv1).
    destruct (IH g1 s1 l1 HR1) as (s2 & g2 & l2 & Hops & HR2 & Hv2).
    exists s2, g2, l2. split; [|split; [done|]].
    + simpl. rewrite Hop. simpl. done.
    + intros k. simpl. rewrite Hv2, Hv1. done.
Qed.

Lemma reachable_Inv s : reachable s → Inv s.
Proof.
  intros (g & ops & Hrun).
  destruct (run_ops_Rep g SkipList_new [] ops SkipList_new_Rep)
    as (s' & g' & l' & Hops & HR & _).
  rewrite Hops in Hrun. simpl in Hrun. injection Hrun as <-. by exists l'.
Qed.

Lemma keys_of_Rep s l : Rep s l → keys_of s = Some (e_key <$> l).
Proof.
  intros HR. unfold keys_of. rewrite (process_all_spec s l HR). simpl.
  f_equal. rewrite <-list_fmap_compose. done.
Qed.

Lemma key_absent_Rep s l key :
  Rep s l → key_absent s key → find_key key l = None.
Proof.
  intros HR (ks & Hks & Hnin). rewrite (keys_of_Rep s l HR) in Hks.
  injection Hks as <-. by apply find_key_None_iff.
Qed.

Lemma key_present_Rep s l key :
  Rep s l → key_present s key → ∃ ec, find_key key l = Some ec.
Proof.
  intros HR (ks & Hks & Hin). rewrite (keys_of_Rep s l HR) in Hks.
  injection Hks as <-. by apply find_key_is_Some.
Qed.

(** ** The claims on the index *)

Lemma bound_after_last_write ops k :
  Forall is_update ops → bound_after ops k = last_write ops k.
Proof.
  unfold bound_after, last_write.
  induction ops as [|op ops IH] using rev_ind; intros Hall; [done|].
  apply Forall_app in Hall as [Hall Hop]. apply Forall_inv in Hop.
  rewrite foldl_app, reverse_app. simpl. rewrite IH by done.
  by destruct op.
Qed.

Lemma index_1_reachable : reachable index_1.
Proof. exists coin_never, [OpInsert 1%Z "good"]. reflexivity. Qed.

Lemma key_present_index_1 : key_present index_1 1.
Proof.
  exists [1%Z]. split; [reflexivity|]. by apply list_elem_of_singleton.
Qed.

Lemma key_absent_index_1 : key_absent index_1 3.
Proof.
  exists [1%Z]. split; [reflexivity|].
  by intros ?%list_elem_of_singleton.
Qed.

(** C1.  After any sequence of [insert_element] and [delete_element] calls
    on an empty index, [search_element] finds exactly the keys that were
    inserted and not deleted afterwards, each with the value of its most
    recent insert; the calls themselves all return. *)
Theorem C1_search_reflects_history (g : Gen) (ops : list Op) :
  Forall is_update ops →
  ∃ s g',
    run_ops g SkipList_new ops = Some (s, g') ∧
    ∀ k v0,
      search_element s k v0
      = Some (match last_write ops k with
              | Some v => (true, v)
              | None => (false, v0)
              end).
Proof.
  intros Hupd.
  destruct (run_ops_Rep g SkipList_new [] ops SkipList_new_Rep)
    as (s & g' & l & Hops & HR & Hv).
  exists s, g'. split; [done|]. intros k v0.
  rewrite (search_element_spec s l HR). f_equal.
  specialize (Hv k). rewrite <-bound_after_last_write by done.
  unfold bound_after.
  change (@None string) with (val_of k []). rewrite <-Hv. unfold val_of.
  by destruct (find_key k l).
Qed.

Lemma C1_search_reflects_history_witness :
  Forall is_update [OpInsert 1 "good"; OpInsert 3 "good"; OpDelete 3] ∧
  ∃ s g',
    run_ops coin_once SkipList_new
            [OpInsert 1 "good"; OpInsert 3 "good"; OpDelete 3]
    = Some (s, g') ∧
    ∀ k v0,
      search_element s k v0
      = Some (match last_write
                      [OpInsert 1 "good"; OpInsert 3 "good"; OpDelete 3] k
              with
              | Some v => (true, v)
              | None => (false, v0)
              end).
Proof.
  split.
  - repeat constructor.
  - apply (C1_search_reflects_history coin_once). repeat constructor.
Defined.

Lemma chain_keys_spec h i fuel (L : list Entry) :
  tail_path h i L None → (∀ e, e ∈ L → node_of h e) → length L ≤ fuel →
  chain_keys fuel h i (hd_or None L) = Some (e_key <$> L).
Proof.
  revert fuel. induction L as [|b L IH]; intros fuel Hp Hn Hf.
  - by destruct fuel.
  - destruct fuel as [|fuel]; [simpl in Hf; lia|].
    cbn [tail_path] in Hp. apply path_unfold in Hp as [Hfw Hp].
    destruct (Hn b) as (fw & Hh & Hlen); [by left|].
    unfold fwd in Hfw. rewrite Hh in Hfw. simpl in Hfw.
    cbn [chain_keys hd_or]. rewrite Hh. simpl. rewrite Hfw. simpl.
    rewrite IH; [done|done| |simpl in Hf; lia].
    intros e He. apply Hn. by right.
Qed.

Lemma level_keys_Rep s l i :
  Rep s l → i ≤ MAX_LEVEL →
  level_keys s i = Some (e_key <$> level_view i l).
Proof.
  intros HR Hi. unfold level_keys.
  rewrite (rep_fwd_header s l HR) by done. simpl.
  apply chain_keys_spec.
  - by apply (rep_links s l HR), path_unfold in Hi as [_ ?].
  - intros e He%level_view_subseteq. by apply HR.
  - rewrite (rep_size s l HR). pose proof (level_view_length i l). lia.
Qed.

Lemma sorted_keys (L : list Entry) :
  StronglySorted key_lt L → StronglySorted Z.lt (e_key <$> L).
Proof.
  induction 1 as [|e L HL IH Hall]; [constructor|].
  rewrite fmap_cons. constructor; [done|]. by apply Forall_fmap.
Qed.

Lemma Rep_structural_invariant s l : Rep s l → structural_invariant s.
Proof.
  intros HR. split; [|split].
  - intros i Hi. eexists. split; [by apply (level_keys_Rep s l)|].
    apply sorted_keys, sorted_level_view, HR.
  - intros i j ks_i ks_j Hji Hi.
    rewrite !(level_keys_Rep s l) by (done || lia).
    intros [= <-] [= <-] k (e & -> & He)%list_elem_of_fmap.
    by apply list_elem_of_fmap_2, (level_view_mono j i).
  - pose proof (rep_cl s l HR) as Hcl.
    rewrite (rep_fwd_header s l HR), (level_keys_Rep s l) by (done || lia).
    rewrite level_view_0.
    destruct (rep_top s l HR) as [H0|Hne].
    + rewrite H0, level_view_0. destruct l as [|e l']; [by right|].
      left. by eexists.
    + destruct (level_view (current_level_ s) l) as [|e L]; [done|].
      left. by eexists.
Qed.

(** C2.  Every sequence of [insert_element], [delete_element] and [clear]
    calls on the empty index returns, and leaves an index in which, at each
    level, the keys along the successor chain from the header are strictly
    increasing, every key of a level is a key of each level below, and the
    header has a successor at the current maximum level unless the index is
    empty. *)
Theorem C2_structural_invariant (g : Gen) (ops : list Op) :
  ∃ s g', run_ops g SkipList_new ops = Some (s, g') ∧ structural_invariant s.
Proof.
  destruct (run_ops_Rep g SkipList_new [] ops SkipList_new_Rep)
    as (s & g' & l & Hops & HR & _).
  exists s, g'. split; [done|]. by eapply Rep_structural_invariant.
Qed.

(** C4.  [delete_element] of a key that the index does not hold returns
    [false] and leaves the index as it was: the same header, level, element
    count and heap. *)
Theorem C4_delete_absent_is_noop (s : SkipList) (key : Z) :
  reachable s → key_absent s key → delete_element s key = Some (false, s).
Proof.
  intros [l HR]%reachable_Inv Habs.
  apply (delete_element_absent s l); [done|]. by eapply key_absent_Rep.
Qed.

Lemma C4_delete_absent_is_noop_witness :
  reachable index_1 ∧ key_absent index_1 3 ∧
  delete_element index_1 3 = Some (false, index_1).
Proof.
  split; [apply index_1_reachable|]. split; [apply key_absent_index_1|].
  apply C4_delete_absent_is_noop.
  - apply index_1_reachable.
  - apply key_absent_index_1.
Defined.

(** C3, counterexample.  [insert_element] returns [true] both when it
    inserts key 1 into the empty index and when it overwrites the value of
    key 1 afterwards. *)
Lemma C3_update_not_distinguishable : ¬ update_distinguishable.
Proof.
  intros H.
  apply (H coin_never index_1 1%Z "day" coin_never SkipList_new 1%Z "good").
  - apply index_1_reachable.
  - apply key_present_index_1.
  - by exists coin_never, [].
  - exists []. split; [reflexivity|]. by intros ?%elem_of_nil.
  - reflexivity.
Qed.

(** C3, amended.  [insert_element] of a key that the index holds returns
    [true], as an insertion does, and changes nothing but the value of the
    node of that key: the header, the current level, the element count,
    every successor vector and every node level are as before, and no coin
    is flipped. *)
Theorem C3_reinsert_updates_in_place (g : Gen) (s : SkipList) (key : Z)
    (value : string) :
  reachable s → key_present s key →
  ∃ c n,
    heap s !! c = Some n ∧ key_ n = key ∧
    insert_element g s key value
    = Some (true,
            mkSkipList (header_ s) (current_level_ s) (element_count_ s)
                       (<[c := set_value n value]> (heap s)),
            g).
Proof.
  intros [l HR]%reachable_Inv Hp.
  destruct (key_present_Rep s l key HR Hp) as [ec Hec].
  destruct (insert_element_existing s l HR key value ec Hec g)
    as (n & Hn & Hk & Hins & _).
  by exists (e_addr ec), n.
Qed.

Lemma C3_reinsert_updates_in_place_witness :
  reachable index_1 ∧ key_present index_1 1 ∧
  ∃ c n,
    heap index_1 !! c = Some n ∧ key_ n = 1%Z ∧
    insert_element coin_never index_1 1 "day"
    = Some (true,
            mkSkipList (header_ index_1) (current_level_ index_1)
                       (element_count_ index_1)
                       (<[c := set_value n "day"]> (heap index_1)),
            coin_never).
Proof.
  split; [apply index_1_reachable|]. split; [apply key_present_index_1|].
  apply C3_reinsert_updates_in_place.
  - apply index_1_reachable.
  - apply key_present_index_1.
Defined.

Lemma Rep_all_defined s l : Rep s l → all_defined s.
Proof.
  intros HR g key value v0.
  destruct (run_op_Rep g s l (OpInsert key value) HR)
    as (s1 & g1 & l1 & H1 & _).
  destruct (run_op_Rep g s l (OpDelete key) HR) as (s2 & g2 & l2 & H2 & _).
  destruct (run_op_Rep g s l OpClear HR) as (s3 & g3 & l3 & H3 & _).
  simpl in H1, H2, H3.
  split; [by destruct (insert_element g s key value)|].
  split; [by rewrite (search_element_spec s l HR)|].
  split; [by destruct (delete_element s key)|].
  split; [by destruct (clear s)|].
  by rewrite (process_all_spec s l HR).
Qed.

Lemma Rep_node_slots s l a n :
  Rep s l → heap s !! a = Some n →
  length (forward_ n) = node_level_ n + 1 ∧ node_level_ n ≤ MAX_LEVEL.
Proof.
  intros HR Hn.
  assert (a ∈ dom (heap s)) as Hd by (apply elem_of_dom; eauto).
  rewrite (rep_dom s l HR) in Hd.
  apply elem_of_union in Hd as [->%elem_of_singleton|Hd].
  - destruct (rep_header s l HR) as (k & v & Hh). rewrite Hn in Hh.
    injection Hh as _ _ -> ->. lia.
  - apply elem_of_list_to_set, list_elem_of_fmap in Hd as (e & -> & He).
    destruct (rep_node s l HR e He) as (fw & Hh & Hlen).
    rewrite Hn in Hh. injection Hh as ->. simpl.
    pose proof (rep_lvl s l HR e He). pose proof (rep_cl s l HR). lia.
Qed.

(** C9.  [get_random_level] returns a level of at most [MAX_LEVEL]; in
    every reachable index each node has one successor slot more than its
    level, a level of at most [MAX_LEVEL], the header has [MAX_LEVEL + 1]
    slots, and [insert_element], [search_element], [delete_element],
    [clear] and [process_all] run without an access out of bounds. *)
Theorem C9_levels_and_slots_in_bounds :
  (∀ g, ∃ lvl g', get_random_level g = Some (lvl, g') ∧ lvl ≤ MAX_LEVEL) ∧
  ∀ s, reachable s →
    (∀ a n, heap s !! a = Some n →
            length (forward_ n) = node_level_ n + 1 ∧
            node_level_ n ≤ MAX_LEVEL) ∧
    (∃ hn, heap s !! header_ s = Some hn ∧
           length (forward_ hn) = MAX_LEVEL + 1) ∧
    all_defined s.
Proof.
  split; [apply get_random_level_bound|].
  intros s [l HR]%reachable_Inv. split; [|split].
  - intros a n. by apply (Rep_node_slots s l).
  - destruct (rep_header s l HR) as (k & v & Hh).
    destruct (heap s !! header_ s) as [hn|]; [|done].
    injection Hh as _ _ _ Hlen. exists hn. split; [done|]. lia.
  - by apply (Rep_all_defined s l).
Qed.

Lemma C9_levels_and_slots_in_bounds_witness :
  reachable index_1 ∧
  (∀ a n, heap index_1 !! a = Some n →
          length (forward_ n) = node_level_ n + 1 ∧
          node_level_ n ≤ MAX_LEVEL) ∧
  (∃ hn, heap index_1 !! header_ index_1 = Some hn ∧
         length (forward_ hn) = MAX_LEVEL + 1) ∧
  all_defined index_1.
Proof.
  split; [apply index_1_reachable|].
  apply C9_levels_and_slots_in_bounds, index_1_reachable.
Defined.

(** C10.  [search_element] of a key that the index does not hold returns
    [false] and leaves the out-parameter as the caller passed it; so does
    [get] of the store. *)
Theorem C10_search_absent_keeps_value (s : SkipList) (key : Z)
    (value path : string) :
  reachable s → key_absent s key →
  search_element s key value = Some (false, value) ∧
  get (mkKVStore s path) key value = Some (false, value).
Proof.
  intros [l HR]%reachable_Inv Habs.
  assert (search_element s key value = Some (false, value)) as Hs.
  { rewrite (search_element_spec s l HR).
    by rewrite (key_absent_Rep s l key HR Habs). }
  split; [done|]. exact Hs.
Qed.

Lemma C10_search_absent_keeps_value_witness :
  reachable index_1 ∧ key_absent index_1 3 ∧
  search_element index_1 3 "kept" = Some (false, "kept") ∧
  get (mkKVStore index_1 "store/dumpFile") 3 "kept" = Some (false, "kept").
Proof.
  split; [apply index_1_reachable|]. split; [apply key_absent_index_1|].
  apply C10_search_absent_keeps_value.
  - apply index_1_reachable.
  - apply key_absent_index_1.
Defined.

(** ** Strings, lines and the text of keys *)

Section strings.
Implicit Types (s a b : string) (c : ascii).

Lemma free_of_cons c x s :
  free_of c (String x s) ↔ x ≠ c ∧ free_of c s.
Proof.
  unfold free_of. simpl. destruct (Ascii.eqb_spec x c) as [->|Hne].
  - split; [done|]. by intros [? _].
  - destruct (find_char c s); simpl; split; try done; by intros [_ ?].
Qed.

Lemma free_of_app c a b :
  free_of c (a +:+ b) ↔ free_of c a ∧ free_of c b.
Proof.
  induction a as [|x a IH].
  - split; [by intros ?|by intros [_ ?]].
  - change (String x a +:+ b) with (String x (a +:+ b)).
    rewrite !free_of_cons, IH. tauto.
Qed.

Lemma all_chars_free_of P c s :
  P c = false → all_chars P s = true → free_of c s.
Proof.
  intros Hc. induction s as [|x s IH]; [done|]. simpl.
  intros [Ha Hs]%andb_true_iff. apply free_of_cons.
  split; [congruence|by apply IH].
Qed.

Lemma find_char_app c a b :
  free_of c a → find_char c (a +:+ String c b) = Some (String.length a).
Proof.
  induction a as [|x a IH]; simpl.
  - by rewrite Ascii.eqb_refl.
  - intros [Hne Ha]%free_of_cons.
    destruct (Ascii.eqb_spec x c) as [->|_]; [done|].
    by rewrite IH.
Qed.

Lemma substring_all s : substring 0 (String.length s) s = s.
Proof. induction s as [|x s IH]; simpl; [done|]. by rewrite IH. Qed.

Lemma substring_prefix a b : substring 0 (String.length a) (a +:+ b) = a.
Proof.
  induction a as [|x a IH]; simpl; [by destruct b|]. by rewrite IH.
Qed.

Lemma length_append a b :
  String.length (a +:+ b) = String.length a + String.length b.
Proof. induction a as [|x a IH]; simpl; [done|]. by rewrite IH. Qed.

Lemma substr_from_suffix a c b :
  substr_from (String.length a + 1) (a +:+ String c b) = b.
Proof.
  unfold substr_from. rewrite length_append. simpl.
  replace (String.length a + S (String.length b) - (String.length a + 1))
    with (String.length b) by lia.
  induction a as [|x a IH]; simpl; [apply substring_all|done].
Qed.

Lemma getlines_line a rest :
  free_of newline a →
  getlines (a +:+ String newline rest) = a :: getlines rest.
Proof.
  induction a as [|x a IH]; simpl.
  - done.
  - intros [Hne Ha]%free_of_cons.
    destruct (Ascii.eqb_spec x newline) as [->|_]; [done|].
    by rewrite IH.
Qed.
End strings.

Section show_int.
Lemma digits_of_uint d : all_chars is_digit (NilEmpty.string_of_uint d) = true.
Proof. induction d; simpl; done. Qed.

Lemma read_digits_acc d (acc : positive) :
  read_digits (NilEmpty.string_of_uint d) (Z.pos acc)
  = Z.pos (Pos.of_uint_acc d acc).
Proof.
  revert acc. induction d; intros acc; simpl; [done|..];
    rewrite <-IHd; f_equal; lia.
Qed.

Lemma read_digits_uint d :
  read_digits (NilEmpty.string_of_uint d) 0 = Z.of_N (Pos.of_uint d).
Proof.
  induction d; simpl; [done|done|..]; apply read_digits_acc.
Qed.
End show_int.

Section show_int_facts.
Local Open Scope Z_scope.

Lemma all_chars_impl (P Q : ascii → bool) s :
  (∀ c, P c = true → Q c = true) →
  all_chars P s = true → all_chars Q s = true.
Proof.
  intros HPQ. induction s as [|x s IH]; [done|]. simpl.
  intros [Hx Hs]%andb_true_iff. rewrite (HPQ x Hx). by apply IH.
Qed.

Lemma uint_nonnil_string d :
  d ≠ Decimal.Nil →
  NilZero.string_of_uint d = NilEmpty.string_of_uint d ∧
  ∃ c s, NilEmpty.string_of_uint d = String c s ∧ is_digit c = true.
Proof. destruct d; intros Hd; try done; split; try done; by eexists _, _. Qed.

Lemma show_int_chars z : all_chars is_int_char (show_int z) = true.
Proof.
  assert (∀ d, all_chars is_int_char (NilZero.string_of_uint d) = true)
    as Hu.
  { intros d. assert (d = Decimal.Nil ∨ d ≠ Decimal.Nil) as [->|Hd]
      by (destruct d; (by left) || by right); [done|].
    destruct (uint_nonnil_string d Hd) as [-> _].
    apply (all_chars_impl is_digit); [|apply digits_of_uint].
    intros c Hc. unfold is_int_char. by rewrite Hc. }
  unfold show_int. destruct z as [|p|p]; simpl; [done|apply Hu|].
  apply Hu.
Qed.

Lemma show_int_free_of c z :
  is_int_char c = false → free_of c (show_int z).
Proof.
  intros Hc. by eapply all_chars_free_of; [|apply show_int_chars].
Qed.

Lemma parse_int_digit c s :
  is_digit c = true →
  parse_int (String c s)
  = Z.max INT_MIN (Z.min INT_MAX (read_digits (String c s) 0)).
Proof.
  destruct c as [[] [] [] [] [] [] [] []]; intros H;
    try (vm_compute in H; discriminate H); reflexivity.
Qed.

Lemma parse_int_minus c s :
  is_digit c = true →
  parse_int (String "-" (String c s))
  = Z.max INT_MIN (Z.min INT_MAX (- read_digits (String c s) 0)).
Proof.
  destruct c as [[] [] [] [] [] [] [] []]; intros H;
    try (vm_compute in H; discriminate H); reflexivity.
Qed.

(** A key written by [dump] is read back by [load]. *)
Lemma parse_show_int z : int_range z → parse_int (show_int z) = z.
Proof.
  unfold int_range, INT_MIN, INT_MAX. intros Hz.
  destruct z as [|p|p]; [done| |].
  - unfold show_int. simpl.
    destruct (uint_nonnil_string (Pos.to_uint p))
      as [-> (c & s & Hs & Hc)]; [apply DecimalPos.Unsigned.to_uint_nonnil|].
    rewrite Hs, (parse_int_digit c s Hc), <-Hs, read_digits_uint.
    rewrite DecimalPos.Unsigned.of_to. unfold INT_MIN, INT_MAX. simpl. lia.
  - unfold show_int. simpl.
    destruct (uint_nonnil_string (Pos.to_uint p))
      as [-> (c & s & Hs & Hc)]; [apply DecimalPos.Unsigned.to_uint_nonnil|].
    rewrite Hs, (parse_int_minus c s Hc), <-Hs, read_digits_uint.
    rewrite DecimalPos.Unsigned.of_to. unfold INT_MIN, INT_MAX. simpl. lia.
Qed.
End show_int_facts.

(** ** dump and load *)

Lemma append_assoc (a b c : string) : (a +:+ b) +:+ c = a +:+ (b +:+ c).
Proof.
  induction a as [|x a IH]; [done|].
  change (String x ((a +:+ b) +:+ c) = String x (a +:+ (b +:+ c))).
  by rewrite IH.
Qed.

Lemma dump_line_line_of kv rest :
  dump_line kv +:+ rest = line_of kv +:+ String newline rest.
Proof.
  unfold dump_line, line_of. by rewrite !append_assoc.
Qed.

Lemma line_of_free_of_newline kv :
  free_of newline kv.2 → free_of newline (line_of kv).
Proof.
  intros Hv. apply free_of_app. split; [by apply show_int_free_of|].
  by apply free_of_cons.
Qed.

Lemma getlines_dump kvs :
  Forall (λ kv, free_of newline kv.2) kvs →
  getlines (concat_lines (dump_line <$> kvs)) = line_of <$> kvs.
Proof.
  induction 1 as [|kv kvs Hkv Hall IH]; [done|].
  rewrite !fmap_cons. cbn [concat_lines].
  rewrite dump_line_line_of, getlines_line, IH; [done|].
  by apply line_of_free_of_newline.
Qed.

Lemma load_line_line_of g s kv :
  int_range kv.1 → load_line (line_of kv) (s, g) = run_op g s (insert_of kv).
Proof.
  intros Hk. unfold load_line, line_of.
  rewrite find_char_app by by apply show_int_free_of.
  rewrite substring_prefix, substr_from_suffix, parse_show_int by done.
  done.
Qed.

Lemma load_lines g s kvs :
  Forall (λ kv, int_range kv.1) kvs →
  for_each load_line (line_of <$> kvs) (s, g)
  = run_ops g s (insert_of <$> kvs).
Proof.
  intros Hall. revert g s. induction Hall as [|kv kvs Hkv Hall IH];
    intros g s; [done|].
  rewrite !fmap_cons. cbn [for_each run_ops].
  rewrite load_line_line_of by done.
  destruct (run_op g s (insert_of kv)) as [[s' g']|]; [|done]. simpl.
  apply IH.
Qed.

Section sorted_maps.
Implicit Types (l : list Entry).

Lemma val_of_cons k e l :
  val_of k (e :: l) = if decide (e_key e = k) then Some (e_val e)
                      else val_of k l.
Proof. unfold val_of. simpl. case_bool_decide; by case_decide. Qed.

Lemma val_of_sorted_tail e l :
  StronglySorted key_lt (e :: l) → val_of (e_key e) l = None.
Proof.
  intros [_ Hall]%StronglySorted_inv. unfold val_of.
  destruct (find_key (e_key e) l) as [e'|] eqn:E; [|done].
  apply find_key_Some in E as [He' Hk].
  rewrite Forall_forall in Hall. apply Hall in He'.
  unfold key_lt in He'. lia.
Qed.

Lemma val_of_below_head k e l :
  StronglySorted key_lt (e :: l) → (k < e_key e)%Z →
  val_of k (e :: l) = None.
Proof.
  intros [_ Hall]%StronglySorted_inv Hk. rewrite val_of_cons.
  case_decide; [lia|]. unfold val_of.
  destruct (find_key k l) as [e'|] eqn:E; [|done].
  apply find_key_Some in E as [He' Hk'].
  rewrite Forall_forall in Hall. apply Hall in He'.
  unfold key_lt in He'. lia.
Qed.

(** Two sorted lists that bind the same values hold the same pairs. *)
Lemma sorted_val_of_eq l l' :
  StronglySorted key_lt l → StronglySorted key_lt l' →
  (∀ k, val_of k l = val_of k l') →
  entry_kv <$> l = entry_kv <$> l'.
Proof.
  intros Hs. revert l'. induction l as [|e l IH]; intros l' Hs' Hv.
  - destruct l' as [|e' l']; [done|].
    specialize (Hv (e_key e')). rewrite val_of_cons in Hv.
    by rewrite decide_True in Hv.
  - destruct l' as [|e' l'].
    { specialize (Hv (e_key e)). rewrite val_of_cons in Hv.
      by rewrite decide_True in Hv. }
    assert (e_key e = e_key e') as Hk.
    { destruct (Z.lt_trichotomy (e_key e) (e_key e')) as [Hlt|[?|Hgt]];
        [|done|].
      - specialize (Hv (e_key e)).
        rewrite (val_of_below_head _ e' l') in Hv by done.
        rewrite val_of_cons, decide_True in Hv; done.
      - specialize (Hv (e_key e')).
        rewrite (val_of_below_head _ e l) in Hv by done.
        rewrite val_of_cons, decide_True in Hv; done. }
    rewrite !fmap_cons. f_equal.
    + pose proof (Hv (e_key e)) as Hv0. rewrite !val_of_cons in Hv0.
      rewrite !decide_True in Hv0 by done. injection Hv0 as Hval.
      unfold entry_kv. by rewrite Hk, Hval.
    + apply IH.
      * by apply StronglySorted_inv in Hs as [? _].
      * by apply StronglySorted_inv in Hs' as [? _].
      * intros k. specialize (Hv k). rewrite !val_of_cons in Hv.
        destruct (decide (e_key e = k)) as [<-|Hne].
        -- rewrite val_of_sorted_tail by done.
           rewrite Hk, val_of_sorted_tail; done.
        -- rewrite decide_False in Hv by congruence. done.
Qed.

Lemma find_key_snoc k l e :
  find_key k (l ++ [e])
  = match find_key k l with
    | Some e' => Some e'
    | None => if bool_decide (e_key e = k) then Some e else None
    end.
Proof.
  induction l as [|e' l IH].
  - rewrite app_nil_l. simpl. by case_bool_decide.
  - rewrite <-app_comm_cons. simpl. rewrite IH.
    by destruct (bool_decide (e_key e' = k)).
Qed.

(** Inserting the pairs of a sorted list one after the other binds what
    the list binds. *)
Lemma bound_after_inserts l k :
  StronglySorted key_lt l →
  bound_after (insert_of <$> (entry_kv <$> l)) k = val_of k l.
Proof.
  unfold bound_after.
  induction l as [|e l IH] using rev_ind; intros Hs; [done|].
  apply StronglySorted_app in Hs as (Hlt & Hs & _).
  rewrite !fmap_app, foldl_app, IH by done. simpl.
  unfold val_of at 2. rewrite find_key_snoc.
  case_decide as Hk.
  - subst k. destruct (find_key (e_key e) l) as [e'|] eqn:E.
    + apply find_key_Some in E as [He' Hk].
      assert (key_lt e' e) as Hlt'
        by (apply Hlt; [done|by apply list_elem_of_singleton]).
      unfold key_lt in Hlt'. lia.
    + by rewrite bool_decide_eq_true_2.
  - unfold val_of. destruct (find_key k l); [done|].
    rewrite bool_decide_eq_false_2; [done|congruence].
Qed.
End sorted_maps.

(** ** The claims on the store *)

(** C5, counterexample.  The index that binds key 1 to a value of two lines
    is dumped as two lines, of which [load] keeps the first and skips the
    second, which has no delimiter. *)
Lemma C5_newline_breaks_round_trip : ¬ round_trip_without_delimiter.
Proof.
  intros H.
  destruct (H coin_never (mkKVStore index_2 "store/dumpFile") no_files
              [(1%Z, two_lines)])
    as (w' & st' & g' & Hd & Hl & Hp).
  - by exists coin_never, [OpInsert 1%Z two_lines].
  - reflexivity.
  - constructor; [|constructor]. split; [|reflexivity].
    unfold int_range, INT_MIN, INT_MAX. simpl. lia.
  - simpl. apply not_elem_of_empty.
  - vm_compute in Hd. injection Hd as <-.
    vm_compute in Hl. injection Hl as <- _.
    vm_compute in Hp. discriminate Hp.
Qed.

(** C5, amended.  When no value of the index contains a newline, [dump]
    writes one line [key:value] per entry, in ascending order of the keys,
    and [load] of that file into a fresh index rebuilds the same pairs in
    the same order of traversal; a delimiter inside a value does no harm.
    The keys are [int]s. *)
Theorem C5_dump_load_round_trip (g : Gen) (st : KVStore) (w : World)
    (kvs : list (Z * string)) :
  reachable (skip_list_ st) →
  process_all (skip_list_ st) = Some kvs →
  Forall (λ kv, int_range kv.1 ∧ free_of newline kv.2) kvs →
  file_path_ st ∉ unopenable w →
  ∃ w' st' g',
    dump st w = Some (tt, st, w') ∧
    files w' !! file_path_ st = Some (concat_lines (dump_line <$> kvs)) ∧
    getlines (concat_lines (dump_line <$> kvs)) = line_of <$> kvs ∧
    StronglySorted Z.lt kvs.*1 ∧
    load g (mkKVStore SkipList_new (file_path_ st)) w' = Some (tt, st', g') ∧
    process_all (skip_list_ st') = Some kvs.
Proof.
  intros [l HR]%reachable_Inv Hkvs Hall Hopen.
  rewrite (process_all_spec _ l HR) in Hkvs. injection Hkvs as <-.
  assert (Forall (λ kv, free_of newline kv.2) (entry_kv <$> l)) as Hnl.
  { eapply Forall_impl; [exact Hall|]. by intros kv [_ ?]. }
  assert (Forall (λ kv, int_range kv.1) (entry_kv <$> l)) as Hint.
  { eapply Forall_impl; [exact Hall|]. by intros kv [? _]. }
  destruct (run_ops_Rep g SkipList_new [] (insert_of <$> (entry_kv <$> l))
              SkipList_new_Rep) as (s' & g' & l' & Hrun & HR' & Hv).
  set (content := concat_lines (dump_line <$> (entry_kv <$> l))).
  exists (write_file
            (mkWorld (<[file_path_ st := EmptyString]> (files w))
                     (unopenable w) (cerr w))
            (file_path_ st) content),
         (mkKVStore s' (file_path_ st)), g'.
  split; [|split; [|split; [|split; [|split]]]].
  - unfold dump, open_out. rewrite decide_False by done.
    by rewrite (process_all_spec _ l HR).
  - simpl. apply lookup_insert_eq.
  - by apply getlines_dump.
  - rewrite <-list_fmap_compose. apply sorted_keys, HR.
  - unfold load, open_in. cbn [file_path_ write_file files unopenable].
    rewrite decide_False by done. rewrite lookup_insert_eq.
    unfold content. rewrite getlines_dump by done.
    cbn [skip_list_]. rewrite load_lines by done. rewrite Hrun. done.
  - cbn [skip_list_]. rewrite (process_all_spec s' l' HR'). f_equal.
    apply sorted_val_of_eq; [apply HR'|apply HR|].
    intros k. rewrite Hv. fold (bound_after (insert_of <$> (entry_kv <$> l)) k).
    apply bound_after_inserts, HR.
Qed.

Lemma C5_dump_load_round_trip_witness :
  reachable index_3 ∧
  process_all index_3 = Some [(7%Z, "st:udy")] ∧
  Forall (λ kv : Z * string, int_range kv.1 ∧ free_of newline kv.2)
         [(7%Z, "st:udy")] ∧
  ("store/dumpFile" ∉ unopenable no_files) ∧
  ∃ w' st' g',
    dump (mkKVStore index_3 "store/dumpFile") no_files
    = Some (tt, mkKVStore index_3 "store/dumpFile", w') ∧
    files w' !! "store/dumpFile"
    = Some (concat_lines (dump_line <$> [(7%Z, "st:udy")])) ∧
    getlines (concat_lines (dump_line <$> [(7%Z, "st:udy")]))
    = line_of <$> [(7%Z, "st:udy")] ∧
    StronglySorted Z.lt [(7%Z, "st:udy")].*1 ∧
    load coin_never (mkKVStore SkipList_new "store/dumpFile") w'
    = Some (tt, st', g') ∧
    process_all (skip_list_ st') = Some [(7%Z, "st:udy")].
Proof.
  assert (reachable index_3) as Hreach
    by (exists coin_never, [OpInsert 7%Z "st:udy"]; reflexivity).
  assert (Forall (λ kv : Z * string, int_range kv.1 ∧ free_of newline kv.2)
                 [(7%Z, "st:udy")]) as Hall.
  { constructor; [|constructor]. split; [|reflexivity].
    unfold int_range, INT_MIN, INT_MAX. simpl. lia. }
  split; [exact Hreach|]. split; [reflexivity|].
  split; [exact Hall|]. split; [apply not_elem_of_empty|].
  apply (C5_dump_load_round_trip coin_never
           (mkKVStore index_3 "store/dumpFile") no_files [(7%Z, "st:udy")]).
  - exact Hreach.
  - reflexivity.
  - exact Hall.
  - apply not_elem_of_empty.
Defined.

Lemma key_present_iff s l key :
  Rep s l → key_present s key ↔ is_Some (find_key key l).
Proof.
  intros HR. rewrite find_key_is_Some. unfold key_present.
  rewrite (keys_of_Rep s l HR). split.
  - by intros (ks & [= <-] & ?).
  - intros ?. by eexists.
Qed.

Lemma key_absent_iff s l key :
  Rep s l → key_absent s key ↔ find_key key l = None.
Proof.
  intros HR. rewrite find_key_None_iff. unfold key_absent.
  rewrite (keys_of_Rep s l HR). split.
  - by intros (ks & [= <-] & ?).
  - intros ?. by eexists.
Qed.

(** C7, counterexample.  [del] returns the same, empty, result for key 1,
    which the index holds, and for key 3, which it does not hold. *)
Lemma C7_del_returns_no_signal : ¬ del_signals_removal.
Proof.
  intros [removed H].
  set (st := mkKVStore index_1 "store/dumpFile").
  assert (∃ st', del st 1 = Some (tt, st')) as [st1 E1]
    by (eexists; reflexivity).
  assert (∃ st', del st 3 = Some (tt, st')) as [st3 E3]
    by (eexists; reflexivity).
  pose proof (H st _ _ _ index_1_reachable E1) as H1.
  pose proof (H st _ _ _ index_1_reachable E3) as H3.
  simpl in H1, H3.
  assert (key_present index_1 3) as (ks & Hks & Hin)
    by (apply H3, H1, key_present_index_1).
  vm_compute in Hks. injection Hks as <-.
  by apply list_elem_of_singleton in Hin.
Qed.

(** C7, amended.  The store's [del] returns nothing.  It calls
    [delete_element] of the index, whose result is [true] exactly when the
    index held the key, drops that result and keeps the index that
    [delete_element] leaves, in which the key is absent. *)
Theorem C7_del_passes_to_index (st : KVStore) (key : Z) :
  reachable (skip_list_ st) →
  ∃ removed s',
    delete_element (skip_list_ st) key = Some (removed, s') ∧
    (removed = true ↔ key_present (skip_list_ st) key) ∧
    key_absent s' key ∧
    del st key = Some (tt, with_index st s').
Proof.
  intros [l HR]%reachable_Inv. unfold del.
  destruct (find_key key l) as [ec|] eqn:E.
  - destruct (delete_element_present _ l HR key ec E)
      as (s' & Hdel & HR' & _).
    exists true, s'. rewrite Hdel. split; [done|]. split; [|split; [|done]].
    + rewrite (key_present_iff _ l) by done. rewrite E. by split.
    + apply (key_absent_iff s' (removed key l)); [done|].
      apply find_key_None_iff.
      intros (e & Hk & [Hne _]%list_elem_of_filter)%list_elem_of_fmap.
      done.
  - rewrite (delete_element_absent _ l key HR E).
    exists false, (skip_list_ st). split; [done|]. split; [|split; [|done]].
    + rewrite (key_present_iff _ l) by done. rewrite E.
      split; [done|]. by intros [? ?].
    + by apply (key_absent_iff _ l).
Qed.

Lemma C7_del_passes_to_index_witness :
  reachable index_1 ∧
  ∃ removed s',
    delete_element index_1 1 = Some (removed, s') ∧
    (removed = true ↔ key_present index_1 1) ∧
    key_absent s' 1 ∧
    del (mkKVStore index_1 "store/dumpFile") 1
    = Some (tt, with_index (mkKVStore index_1 "store/dumpFile") s').
Proof.
  split; [apply index_1_reachable|].
  apply (C7_del_passes_to_index (mkKVStore index_1 "store/dumpFile")).
  apply index_1_reachable.
Defined.

(** C8, counterexample.  [load] gives the caller the same result, and
    writes nothing, when the file is missing and when it is there and
    empty. *)
Lemma C8_load_failure_is_silent : ¬ load_reports_failure.
Proof.
  intros H.
  apply (H coin_never (mkKVStore SkipList_new "store/dumpFile")
           no_files empty_file).
  - reflexivity.
  - by eexists.
  - reflexivity.
Qed.

(** C8, amended.  When the file cannot be opened, [dump] writes a message
    with the path to [std::cerr], touches no file and returns nothing to
    its caller; [load] returns without any report; the index of the store
    is the same after either call. *)
Theorem C8_open_failure_keeps_index (g : Gen) (st : KVStore) (w : World) :
  (open_out w (file_path_ st) = None →
   dump st w = Some (tt, st, write_cerr w (dump_error (file_path_ st)))) ∧
  (open_in w (file_path_ st) = None → load g st w = Some (tt, st, g)).
Proof.
  split.
  - intros Ho. unfold dump. by rewrite Ho.
  - intros Hi. unfold load. by rewrite Hi.
Qed.

Lemma C8_open_failure_keeps_index_witness :
  open_out locked_file "store/dumpFile" = None ∧
  open_in locked_file "store/dumpFile" = None ∧
  dump (mkKVStore index_1 "store/dumpFile") locked_file
  = Some (tt, mkKVStore index_1 "store/dumpFile",
          write_cerr locked_file (dump_error "store/dumpFile")) ∧
  load coin_never (mkKVStore index_1 "store/dumpFile") locked_file
  = Some (tt, mkKVStore index_1 "store/dumpFile", coin_never).
Proof.
  split; [reflexivity|]. split; [reflexivity|].
  destruct (C8_open_failure_keeps_index coin_never
              (mkKVStore index_1 "store/dumpFile") locked_file) as [Hd Hl].
  split; [apply Hd|apply Hl]; reflexivity.
Defined.

(** ** Threads *)

(** Left alone, the steps of a traversal are [process_all]. *)
Lemma traverse_steps_process_loop fuel sh node acc kvs :
  process_loop fuel (heap (index sh)) node = Some kvs →
  traverse_steps fuel sh (mkTraversal node acc)
  = Some (mkTraversal None (acc ++ kvs)).
Proof.
  revert node acc kvs. induction fuel as [|fuel IH]; intros node acc kvs.
  - destruct node; [done|]. intros [= <-]. by rewrite app_nil_r.
  - destruct node as [p|]; cbn [process_loop traverse_steps].
    + unfold traverse_step. cbn [cursor seen].
      destruct (heap (index sh) !! p) as [n|]; [|done]. simpl.
      destruct (vec_get (forward_ n) 0) as [nxt|]; [|done]. simpl.
      destruct (process_loop fuel (heap (index sh)) nxt) as [rest|] eqn:E;
        [|done].
      simpl. intros [= <-]. rewrite (IH _ _ rest E).
      by rewrite <-app_assoc.
    + intros [= <-]. rewrite app_nil_r. unfold traverse_step. simpl.
      clear IH. induction fuel as [|fuel IH]; [done|]. simpl. exact IH.
Qed.

Lemma traverse_alone sh kvs :
  process_all (index sh) = Some kvs →
  ∃ t, traverse_begin sh = Some t ∧
       traverse_steps (size (heap (index sh))) sh t
       = Some (mkTraversal None kvs).
Proof.
  unfold process_all, traverse_begin.
  destruct (fwd (heap (index sh)) (header_ (index sh)) 0) as [node|];
    [|done].
  simpl. intros H. eexists. split; [done|].
  by apply (traverse_steps_process_loop _ _ _ []).
Qed.

(** C6.  [process_all] takes no lock.  On the index with key 1, a thread
    enters [delete_element] of key 1 and holds the exclusive lock; another
    thread starts [process_all] all the same and reads the pointer to the
    node of key 1; the first thread unlinks and releases the node and
    leaves; the next step of the traversal reads released memory. *)
Theorem C6_traverse_not_protected :
  let sh := mkShared index_1 Unlocked in
  ∃ sh1 t sh2,
    delete_enter sh = Some sh1 ∧
    mutex_ sh1 = ExclusiveHeld ∧
    traverse_begin sh1 = Some t ∧
    delete_leave sh1 1 = Some (true, sh2) ∧
    mutex_ sh2 = Unlocked ∧
    traverse_step sh2 t = None.
Proof. eexists _, _, _. repeat split; reflexivity. Qed.

(** [clear] runs while a reader holds the lock in shared mode. *)
Lemma clear_ignores_readers :
  ∃ sh', unlocked_clear (mkShared index_1 (SharedBy 1)) = Some sh' ∧
         locked_delete_element (mkShared index_1 (SharedBy 1)) 1 = None.
Proof. eexists. split; reflexivity. Qed.

(** ** The example of [main.cpp] *)

(** [put] of 1, 3 and 7, [get] of 3, [del] of 3, [get] of 3 again, then
    [dump] and a new store on the same file. *)
Example main_scenario :
  ∃ st3 g3 v st4 w st5 g5,
    (let st0 := mkKVStore SkipList_new "store/dumpFile" in
     '(_, st1, g1) ← put coin_once st0 1 "good";
     '(_, st2, g2) ← put g1 st1 3 "good";
     put g2 st2 7 "study") = Some (tt, st3, g3) ∧
    get st3 3 "" = Some (true, "good") ∧
    del st3 3 = Some (tt, st4) ∧
    get st4 3 "kept" = Some (false, v) ∧ v = "kept" ∧
    dump st4 no_files = Some (tt, st4, w) ∧
    files w !! "store/dumpFile"
    = Some ("1:good" +:+ String newline ("7:study" +:+ String newline "")) ∧
    KVStore_new g3 "store/dumpFile" w = Some (st5, g5) ∧
    process_all (skip_list_ st5) = Some [(1%Z, "good"); (7%Z, "study")].
Proof. eexists _, _, _, _, _, _, _. repeat split; reflexivity. Qed.

(** * Further properties of the index and the store *)

(** ** Traversals and entries *)

Section traversals.
Implicit Types (l : list Entry) (kvs : list (Z * string)).

Lemma kv_lookup_entries k l : kv_lookup k (entry_kv <$> l) = val_of k l.
Proof.
  induction l as [|e l IH]; [done|].
  rewrite val_of_cons, fmap_cons. unfold entry_kv at 1. simpl.
  rewrite IH. done.
Qed.

Lemma kv_remove_removed k l :
  entry_kv <$> removed k l = kv_remove k (entry_kv <$> l).
Proof.
  unfold removed, kv_remove. induction l as [|e l IH]; [done|].
  rewrite fmap_cons, !filter_cons. simpl.
  destruct (decide (e_key e ≠ k)); [rewrite fmap_cons|]; by rewrite IH.
Qed.

Lemma set_val_other key value l :
  Forall (λ e, e_key e ≠ key) l → set_val key value <$> l = l.
Proof.
  induction 1 as [|e l He _ IH]; [done|].
  rewrite fmap_cons, IH. f_equal. unfold set_val.
  by rewrite bool_decide_eq_false_2.
Qed.

Lemma sorted_head_lt e l e' :
  StronglySorted key_lt (e :: l) → e' ∈ l → (e_key e < e_key e')%Z.
Proof.
  intros Hs Hin. apply StronglySorted_inv in Hs as [_ Hall].
  rewrite Forall_forall in Hall. by apply Hall.
Qed.

Lemma kv_upsert_set_val key value l ec :
  StronglySorted key_lt l → find_key key l = Some ec →
  entry_kv <$> (set_val key value <$> l)
  = kv_upsert key value (entry_kv <$> l).
Proof.
  induction l as [|e l IH]; [done|]. intros Hs Hfind.
  rewrite !fmap_cons. unfold entry_kv at 3. simpl in *.
  unfold set_val at 1. case_bool_decide as Hk.
  - rewrite decide_False by lia. rewrite decide_True by done.
    unfold entry_kv at 1. simpl. rewrite Hk. f_equal.
    rewrite set_val_other; [done|].
    apply Forall_forall. intros e' He'.
    pose proof (sorted_head_lt e l e' Hs He'). lia.
  - apply find_key_Some in Hfind as [Hin Hkey].
    pose proof (sorted_head_lt e l ec Hs Hin).
    rewrite decide_False by lia. rewrite decide_False by lia.
    f_equal. apply IH; [by apply StronglySorted_inv in Hs as [? _]|].
    rewrite <-Hkey. apply find_key_elem_of; [|done].
    by apply StronglySorted_inv in Hs as [? _].
Qed.

Lemma kv_upsert_inserted a key value rl l :
  StronglySorted key_lt l → find_key key l = None →
  entry_kv <$> (below key l ++ mkEntry a key value rl :: above key l)
  = kv_upsert key value (entry_kv <$> l).
Proof.
  induction l as [|e l IH]; [done|]. intros Hs Hfind.
  simpl in Hfind. case_bool_decide as Hk; [done|].
  rewrite fmap_cons. unfold entry_kv at 2. simpl.
  destruct (decide (key < e_key e)%Z) as [Hlt|Hge].
  - destruct (above_all key (e :: l)) as [-> ->]; [|done].
    apply sorted_above_from; [done|lia].
  - rewrite decide_False by done.
    unfold below, above. rewrite !filter_cons.
    rewrite decide_True by lia. rewrite decide_False by lia.
    rewrite <-app_comm_cons, fmap_cons. f_equal.
    apply IH; [by apply StronglySorted_inv in Hs as [? _]|done].
Qed.

End traversals.

(** ** The index after each call *)

Lemma index_137_reachable : reachable index_137.
Proof. exists coin_once, three_puts. reflexivity. Qed.

Lemma key_absent_index_137 : key_absent index_137 5.
Proof.
  exists [1%Z; 3%Z; 7%Z]. split; [reflexivity|].
  rewrite !elem_of_cons, elem_of_nil. lia.
Qed.

Lemma clear_fields s s' :
  clear s = Some s' →
  header_ s' = header_ s ∧ current_level_ s' = 0 ∧
  element_count_ s' = 0%Z.
Proof.
  unfold clear. intros H.
  destruct (fwd (heap s) (header_ s) 0) as [c|]; [|done]. simpl in H.
  destruct (free_chain (size (heap s)) (heap s) c) as [h1|]; [|done].
  simpl in H. destruct (h1 !! header_ s) as [hn|]; [|done].
  simpl in H. by injection H as <-.
Qed.

Lemma Rep_level_le s s' l :
  Rep s l → Rep s' l → current_level_ s ≤ current_level_ s'.
Proof.
  intros HR HR'. destruct (rep_top s l HR) as [->|Hne]; [lia|].
  destruct (level_view (current_level_ s) l) as [|e L] eqn:E; [done|].
  assert (e ∈ level_view (current_level_ s) l) as He
    by (rewrite E; apply elem_of_cons; by left).
  apply list_elem_of_filter in He as [Hle Hin].
  pose proof (rep_lvl s' l HR' e Hin). lia.
Qed.

Lemma removed_inserted s l key value rl :
  StronglySorted key_lt l → find_key key l = None →
  removed key (inserted s l key value rl) = l.
Proof.
  intros Hs Hnone. unfold removed, inserted.
  rewrite filter_app, filter_cons. simpl.
  rewrite decide_False by (intros ?; done).
  rewrite (filter_all (λ e, e_key e ≠ key) (below key l)).
  - rewrite (filter_all (λ e, e_key e ≠ key) (above key l)).
    + symmetry. by apply sorted_split.
    + apply Forall_forall. intros e [_ He]%list_elem_of_filter.
      by apply (find_key_None key l).
  - apply Forall_forall. intros e [_ He]%list_elem_of_filter.
    by apply (find_key_None key l).
Qed.

Lemma insert_element_Rep g s l key value :
  Rep s l →
  ∃ s' g' l',
    insert_element g s key value = Some (true, s', g') ∧ Rep s' l' ∧
    entry_kv <$> l' = kv_upsert key value (entry_kv <$> l) ∧
    header_ s' = header_ s ∧
    element_count_ s'
    = (element_count_ s
       + match find_key key l with Some _ => 0 | None => 1 end)%Z.
Proof.
  intros HR. destruct (find_key key l) as [ec|] eqn:E.
  - destruct (insert_element_existing s l HR key value ec E g)
      as (n & Hn & Hk & Hins & HR').
    eexists _, _, _. split; [exact Hins|]. split; [exact HR'|].
    split; [|split; [done|simpl; lia]].
    eapply kv_upsert_set_val; [apply HR|done].
  - destruct (get_random_level_bound g) as (rl & g' & Hg & Hrl).
    destruct (insert_element_new s l HR key value rl Hrl E g g' Hg)
      as (s' & Hins & HR' & Hh & _ & Hc).
    eexists _, _, _. split; [exact Hins|]. split; [exact HR'|].
    split; [|done]. apply kv_upsert_inserted; [apply HR|done].
Qed.

Lemma delete_element_Rep s l key :
  Rep s l →
  ∃ s',
    delete_element s key = Some (bool_decide (is_Some (find_key key l)), s') ∧
    Rep s' (removed key l) ∧ header_ s' = header_ s ∧
    element_count_ s'
    = (element_count_ s
       - match find_key key l with Some _ => 1 | None => 0 end)%Z.
Proof.
  intros HR. destruct (find_key key l) as [ec|] eqn:E.
  - destruct (delete_element_present s l HR key ec E)
      as (s' & Hdel & HR' & Hh & Hc).
    exists s'. rewrite bool_decide_eq_true_2 by done. done.
  - exists s. rewrite bool_decide_eq_false_2 by (by intros [? ?]).
    split; [by apply (delete_element_absent s l)|].
    split; [|split; [done|lia]].
    unfold removed. rewrite filter_all; [done|].
    apply Forall_forall. intros e He. by apply (find_key_None key l).
Qed.

Lemma kv_lookup_find_key {A} key l (a b : A) :
  match kv_lookup key (entry_kv <$> l) with Some _ => a | None => b end
  = match find_key key l with Some _ => a | None => b end.
Proof. rewrite kv_lookup_entries. unfold val_of. by destruct find_key. Qed.

(** X1. On every reachable index [element_count_] is the number of pairs
    [process_all] enumerates, and the heap holds one node for each of them
    and the header, nothing else: no node is lost or kept after its
    removal. *)
Theorem X1_count_and_nodes_match_traversal (s : SkipList) :
  reachable s →
  ∃ kvs, process_all s = Some kvs ∧
         element_count_ s = Z.of_nat (length kvs) ∧
         size (heap s) = S (length kvs).
Proof.
  intros [l HR]%reachable_Inv. exists (entry_kv <$> l).
  split; [by apply process_all_spec|]. rewrite length_fmap.
  split; [apply HR|by apply rep_size].
Qed.

Lemma X1_count_and_nodes_match_traversal_witness :
  reachable index_137 ∧
  ∃ kvs, process_all index_137 = Some kvs ∧
         element_count_ index_137 = Z.of_nat (length kvs) ∧
         size (heap index_137) = S (length kvs).
Proof.
  split; [exact index_137_reachable|].
  apply (X1_count_and_nodes_match_traversal index_137).
  exact index_137_reachable.
Defined.

(** X2. On every reachable index [current_level_] is the greatest level of
    a stored node, and 0 when there is none: no node is higher, some node
    is that high unless the level is 0, and the header has no successor
    above it. *)
Theorem X2_current_level_is_the_top (s : SkipList) :
  reachable s →
  (∀ a n, heap s !! a = Some n → a ≠ header_ s →
          node_level_ n ≤ current_level_ s) ∧
  (current_level_ s = 0 ∨
   ∃ a n, a ≠ header_ s ∧ heap s !! a = Some n ∧
          node_level_ n = current_level_ s) ∧
  (∀ i, current_level_ s < i ≤ MAX_LEVEL →
        fwd (heap s) (header_ s) i = Some None).
Proof.
  intros [l HR]%reachable_Inv. split; [|split].
  - intros a n Hn Ha.
    assert (a ∈ dom (heap s)) as Hd by (apply elem_of_dom; eauto).
    rewrite (rep_dom s l HR) in Hd.
    apply elem_of_union in Hd as [Hd%elem_of_singleton|Hd]; [done|].
    apply elem_of_list_to_set, list_elem_of_fmap in Hd as (e & -> & He).
    destruct (rep_node s l HR e He) as (fw & Hfw & _).
    rewrite Hfw in Hn. injection Hn as <-. simpl.
    by apply (rep_lvl s l HR).
  - destruct (rep_top s l HR) as [?|Hne]; [by left|]. right.
    destruct (level_view (current_level_ s) l) as [|e L] eqn:E; [done|].
    assert (e ∈ level_view (current_level_ s) l) as He
      by (rewrite E; apply elem_of_cons; by left).
    apply list_elem_of_filter in He as [Hle Hin].
    destruct (rep_node s l HR e Hin) as (fw & Hfw & _).
    eexists _, _. split; [|split; [exact Hfw|]].
    + intros Heq. apply (rep_fresh s l HR). rewrite <-Heq.
      by apply list_elem_of_fmap_2.
    + simpl. pose proof (rep_lvl s l HR e Hin). lia.
  - intros i [Hlt Hle]. rewrite (rep_fwd_header s l HR) by done.
    rewrite level_view_nil_lt; [done|].
    intros e He. pose proof (rep_lvl s l HR e He). lia.
Qed.

Lemma X2_current_level_is_the_top_witness :
  reachable index_137 ∧
  (∀ a n, heap index_137 !! a = Some n → a ≠ header_ index_137 →
          node_level_ n ≤ current_level_ index_137) ∧
  (current_level_ index_137 = 0 ∨
   ∃ a n, a ≠ header_ index_137 ∧ heap index_137 !! a = Some n ∧
          node_level_ n = current_level_ index_137) ∧
  (∀ i, current_level_ index_137 < i ≤ MAX_LEVEL →
        fwd (heap index_137) (header_ index_137) i = Some None).
Proof.
  split; [exact index_137_reachable|].
  apply (X2_current_level_is_the_top index_137).
  exact index_137_reachable.
Defined.

(** X3. [search_element] and [process_all] agree: a search finds a key
    exactly when the traversal enumerates it, and then stores the value the
    traversal pairs with it; otherwise the out-parameter keeps its
    content. *)
Theorem X3_search_agrees_with_traversal (s : SkipList) (key : Z)
    (value : string) :
  reachable s →
  ∃ kvs, process_all s = Some kvs ∧
         search_element s key value
         = Some match kv_lookup key kvs with
                | Some v => (true, v)
                | None => (false, value)
                end.
Proof.
  intros [l HR]%reachable_Inv. exists (entry_kv <$> l).
  split; [by apply process_all_spec|].
  rewrite (search_element_spec s l HR), kv_lookup_entries. unfold val_of.
  by destruct (find_key key l).
Qed.

Lemma X3_search_agrees_with_traversal_witness :
  reachable index_137 ∧
  ∃ kvs, process_all index_137 = Some kvs ∧
         search_element index_137 7 "none"
         = Some match kv_lookup 7 kvs with
                | Some v => (true, v)
                | None => (false, "none")
                end.
Proof.
  split; [exact index_137_reachable|].
  apply (X3_search_agrees_with_traversal index_137 7 "none").
  exact index_137_reachable.
Defined.

(** X4. [insert_element] on a reachable index always returns [true]; the
    traversal afterwards is the one before with the pair put at its place
    in key order, in place of the pair of that key if there was one.  The
    count grows by one exactly when the key was not stored, and the header
    stays where it is. *)
Theorem X4_insert_is_sorted_upsert (g : Gen) (s : SkipList) (key : Z)
    (value : string) :
  reachable s →
  ∃ kvs s' g',
    process_all s = Some kvs ∧
    insert_element g s key value = Some (true, s', g') ∧
    process_all s' = Some (kv_upsert key value kvs) ∧
    header_ s' = header_ s ∧
    element_count_ s'
    = (element_count_ s
       + match kv_lookup key kvs with Some _ => 0 | None => 1 end)%Z.
Proof.
  intros [l HR]%reachable_Inv.
  destruct (insert_element_Rep g s l key value HR)
    as (s' & g' & l' & Hins & HR' & Hkv & Hh & Hc).
  exists (entry_kv <$> l), s', g'.
  split; [by apply process_all_spec|]. split; [done|].
  split; [|split; [done|]].
  - rewrite (process_all_spec s' l' HR'). by f_equal.
  - by rewrite kv_lookup_find_key.
Qed.

Lemma X4_insert_is_sorted_upsert_witness :
  reachable index_137 ∧
  ∃ kvs s' g',
    process_all index_137 = Some kvs ∧
    insert_element coin_once index_137 5 "five" = Some (true, s', g') ∧
    process_all s' = Some (kv_upsert 5 "five" kvs) ∧
    header_ s' = header_ index_137 ∧
    element_count_ s'
    = (element_count_ index_137
       + match kv_lookup 5 kvs with Some _ => 0 | None => 1 end)%Z.
Proof.
  split; [exact index_137_reachable|].
  apply (X4_insert_is_sorted_upsert coin_once index_137 5 "five").
  exact index_137_reachable.
Defined.

(** X5. [delete_element] on a reachable index returns [true] exactly when
    the key is stored.  The traversal afterwards is the one before without
    the pair of that key, the count drops by one when there was one, and
    its node is released: the heap again holds one node for each pair and
    the header. *)
Theorem X5_delete_removes_the_key (s : SkipList) (key : Z) :
  reachable s →
  ∃ kvs s',
    process_all s = Some kvs ∧
    delete_element s key
    = Some (bool_decide (is_Some (kv_lookup key kvs)), s') ∧
    process_all s' = Some (kv_remove key kvs) ∧
    header_ s' = header_ s ∧
    element_count_ s'
    = (element_count_ s
       - match kv_lookup key kvs with Some _ => 1 | None => 0 end)%Z ∧
    size (heap s') = S (length (kv_remove key kvs)).
Proof.
  intros [l HR]%reachable_Inv.
  destruct (delete_element_Rep s l key HR) as (s' & Hdel & HR' & Hh & Hc).
  exists (entry_kv <$> l), s'.
  split; [by apply process_all_spec|]. split; [|split; [|split; [done|split]]].
  - rewrite Hdel. do 2 f_equal. apply bool_decide_ext.
    rewrite kv_lookup_entries. unfold val_of. by rewrite fmap_is_Some.
  - rewrite (process_all_spec s' _ HR'). f_equal. apply kv_remove_removed.
  - by rewrite kv_lookup_find_key.
  - rewrite (rep_size s' _ HR'), <-kv_remove_removed, length_fmap. done.
Qed.

Lemma X5_delete_removes_the_key_witness :
  reachable index_137 ∧
  ∃ kvs s',
    process_all index_137 = Some kvs ∧
    delete_element index_137 3
    = Some (bool_decide (is_Some (kv_lookup 3 kvs)), s') ∧
    process_all s' = Some (kv_remove 3 kvs) ∧
    header_ s' = header_ index_137 ∧
    element_count_ s'
    = (element_count_ index_137
       - match kv_lookup 3 kvs with Some _ => 1 | None => 0 end)%Z ∧
    size (heap s') = S (length (kv_remove 3 kvs)).
Proof.
  split; [exact index_137_reachable|].
  apply (X5_delete_removes_the_key index_137 3).
  exact index_137_reachable.
Defined.

(** X6. [clear] on a reachable index releases every node but the header
    and resets the level and the count to 0: the traversal is empty and
    every search fails, leaving the out-parameter as it was. *)
Theorem X6_clear_empties_the_index (s : SkipList) :
  reachable s →
  ∃ s', clear s = Some s' ∧
        process_all s' = Some [] ∧
        header_ s' = header_ s ∧
        current_level_ s' = 0 ∧
        element_count_ s' = 0%Z ∧
        dom (heap s') = {[header_ s]} ∧
        ∀ key value, search_element s' key value = Some (false, value).
Proof.
  intros [l HR]%reachable_Inv.
  destruct (clear_spec s l HR) as (s' & Hc & HR').
  destruct (clear_fields s s' Hc) as (Hh & Hcl & Hec).
  exists s'. split; [done|]. split; [by apply (process_all_spec s' [])|].
  split; [done|]. split; [done|]. split; [done|]. split.
  - rewrite (rep_dom s' [] HR'), Hh. simpl. set_solver.
  - intros key value. by rewrite (search_element_spec s' [] HR').
Qed.

Lemma X6_clear_empties_the_index_witness :
  reachable index_137 ∧
  ∃ s', clear index_137 = Some s' ∧
        process_all s' = Some [] ∧
        header_ s' = header_ index_137 ∧
        current_level_ s' = 0 ∧
        element_count_ s' = 0%Z ∧
        dom (heap s') = {[header_ index_137]} ∧
        ∀ key value, search_element s' key value = Some (false, value).
Proof.
  split; [exact index_137_reachable|].
  apply (X6_clear_empties_the_index index_137).
  exact index_137_reachable.
Defined.

(** X7. Deleting a key right after its insertion undoes the insertion:
    when the key was not stored, the traversal, the count, the current
    level and the set of allocated addresses are again what they were,
    whatever level the new node was given. *)
Theorem X7_delete_undoes_insert (g : Gen) (s : SkipList) (key : Z)
    (value : string) :
  reachable s → key_absent s key →
  ∃ s1 g1 s2,
    insert_element g s key value = Some (true, s1, g1) ∧
    delete_element s1 key = Some (true, s2) ∧
    process_all s2 = process_all s ∧
    element_count_ s2 = element_count_ s ∧
    current_level_ s2 = current_level_ s ∧
    header_ s2 = header_ s ∧
    dom (heap s2) = dom (heap s).
Proof.
  intros [l HR]%reachable_Inv Habs.
  pose proof (key_absent_Rep s l key HR Habs) as Hnone.
  destruct (get_random_level_bound g) as (rl & g1 & Hg & Hrl).
  destruct (insert_element_new s l HR key value rl Hrl Hnone g g1 Hg)
    as (s1 & Hins & HR1 & Hh1 & _ & Hc1).
  assert (find_key key (inserted s l key value rl)
          = Some (mkEntry (fresh (dom (heap s))) key value rl)) as Hf.
  { apply (find_key_elem_of _ (mkEntry _ key value rl)); [apply HR1|].
    unfold inserted. rewrite elem_of_app, elem_of_cons. right. by left. }
  destruct (delete_element_present s1 _ HR1 key _ Hf)
    as (s2 & Hdel & HR2 & Hh2 & Hc2).
  rewrite removed_inserted in HR2 by (done || apply HR).
  exists s1, g1, s2. split; [done|]. split; [done|].
  split; [|split; [lia|split; [|split]]].
  - by rewrite (process_all_spec s2 l HR2), (process_all_spec s l HR).
  - pose proof (Rep_level_le s s2 l HR HR2).
    pose proof (Rep_level_le s2 s l HR2 HR). lia.
  - congruence.
  - rewrite (rep_dom s2 l HR2), (rep_dom s l HR). congruence.
Qed.

Lemma X7_delete_undoes_insert_witness :
  reachable index_137 ∧ key_absent index_137 5 ∧
  ∃ s1 g1 s2,
    insert_element coin_once index_137 5 "five" = Some (true, s1, g1) ∧
    delete_element s1 5 = Some (true, s2) ∧
    process_all s2 = process_all index_137 ∧
    element_count_ s2 = element_count_ index_137 ∧
    current_level_ s2 = current_level_ index_137 ∧
    header_ s2 = header_ index_137 ∧
    dom (heap s2) = dom (heap index_137).
Proof.
  split; [exact index_137_reachable|].
  split; [exact key_absent_index_137|].
  apply (X7_delete_undoes_insert coin_once index_137 5 "five").
  - exact index_137_reachable.
  - exact key_absent_index_137.
Defined.

(** ** Coin flips *)

Lemma random_level_loop_heads fuel g lvl :
  lvl ≤ MAX_LEVEL → MAX_LEVEL < lvl + fuel →
  ∃ k g', random_level_loop fuel g lvl = Some (lvl + k, g') ∧
          lvl + k ≤ MAX_LEVEL ∧
          (∀ i, i < k → g i = true) ∧
          (lvl + k < MAX_LEVEL → g k = false) ∧
          (∀ n, g' n = g (S k + n)).
Proof.
  revert g lvl. induction fuel as [|fuel IH]; intros g lvl Hle Hfuel; [lia|].
  simpl. destruct (g 0 && bool_decide (lvl < MAX_LEVEL)) eqn:E.
  - apply andb_true_iff in E as [Hg Hlt%bool_decide_eq_true].
    destruct (IH (λ n, g (S n)) (S lvl)) as (k & g' & Hrun & Hk & Hh & Ht & Hg');
      [lia|lia|].
    exists (S k), g'. replace (lvl + S k) with (S lvl + k) by lia.
    split; [done|]. split; [done|]. split; [|split; [done|done]].
    intros [|i] Hi; [done|]. apply Hh. lia.
  - exists 0, (λ n, g (S n)). rewrite Nat.add_0_r.
    split; [done|]. split; [done|]. split; [intros i; lia|]. split; [|done].
    intros Hlt. apply andb_false_iff in E as [?|E]; [done|].
    by apply bool_decide_eq_false in E.
Qed.

(** X8. [get_random_level] returns the number of successive draws below
    [P_FACTOR] at the head of the stream, at most [MAX_LEVEL] of them: a
    level under [MAX_LEVEL] is followed by a failed draw.  It consumes one
    draw more than the level it returns, also when it stops at
    [MAX_LEVEL]. *)
Theorem X8_random_level_counts_heads (g : Gen) :
  ∃ lvl g', get_random_level g = Some (lvl, g') ∧
            lvl ≤ MAX_LEVEL ∧
            (∀ i, i < lvl → g i = true) ∧
            (lvl < MAX_LEVEL → g lvl = false) ∧
            (∀ n, g' n = g (S lvl + n)).
Proof.
  destruct (random_level_loop_heads (S MAX_LEVEL) g 0) as (k & g' & H);
    [lia|lia|].
  by exists k, g'.
Qed.

(** ** The content decides *)

Lemma search_element_val_of s l key value :
  Rep s l →
  search_element s key value
  = Some match val_of key l with
         | Some v => (true, v)
         | None => (false, value)
         end.
Proof.
  intros HR. rewrite (search_element_spec s l HR). unfold val_of.
  by destruct (find_key key l).
Qed.

Lemma entry_kv_length (l l' : list Entry) :
  entry_kv <$> l = entry_kv <$> l' → length l = length l'.
Proof. intros H. by rewrite <-(length_fmap entry_kv l), H, length_fmap. Qed.

(** X9. Two reachable indexes with the same traversal cannot be told apart
    by any later calls, whatever the levels of their nodes and whatever the
    coin flips to come: the same calls of [insert_element],
    [delete_element] and [clear] on both return and lead to the same
    traversal, the same count and the same result of every search. *)
Theorem X9_levels_never_change_the_content (g1 g2 : Gen) (s1 s2 : SkipList)
    (ops : list Op) :
  reachable s1 → reachable s2 → process_all s1 = process_all s2 →
  ∃ s1' g1' s2' g2',
    run_ops g1 s1 ops = Some (s1', g1') ∧
    run_ops g2 s2 ops = Some (s2', g2') ∧
    process_all s1' = process_all s2' ∧
    element_count_ s1' = element_count_ s2' ∧
    ∀ key value, search_element s1' key value = search_element s2' key value.
Proof.
  intros [l1 HR1]%reachable_Inv [l2 HR2]%reachable_Inv Heq.
  rewrite (process_all_spec s1 l1 HR1), (process_all_spec s2 l2 HR2) in Heq.
  injection Heq as Heq.
  destruct (run_ops_Rep g1 s1 l1 ops HR1) as (s1' & g1' & l1' & Hr1 & HR1' & Hv1).
  destruct (run_ops_Rep g2 s2 l2 ops HR2) as (s2' & g2' & l2' & Hr2 & HR2' & Hv2).
  assert (∀ k, val_of k l1' = val_of k l2') as Hv.
  { intros k. rewrite Hv1, Hv2, <-!kv_lookup_entries, Heq. done. }
  assert (entry_kv <$> l1' = entry_kv <$> l2') as Hkv
    by (apply sorted_val_of_eq; [apply HR1'|apply HR2'|done]).
  exists s1', g1', s2', g2'. split; [done|]. split; [done|].
  split; [|split].
  - by rewrite (process_all_spec s1' l1' HR1'), (process_all_spec s2' l2' HR2'), Hkv.
  - rewrite (rep_count s1' l1' HR1'), (rep_count s2' l2' HR2').
    by rewrite (entry_kv_length l1' l2').
  - intros key value.
    by rewrite (search_element_val_of s1' l1'), (search_element_val_of s2' l2'), Hv.
Qed.

Lemma X9_levels_never_change_the_content_witness :
  reachable index_1 ∧ reachable index_1_tall ∧
  process_all index_1 = process_all index_1_tall ∧
  ∃ s1' g1' s2' g2',
    run_ops coin_never index_1 [OpInsert 3 "good"; OpDelete 1]
    = Some (s1', g1') ∧
    run_ops coin_once index_1_tall [OpInsert 3 "good"; OpDelete 1]
    = Some (s2', g2') ∧
    process_all s1' = process_all s2' ∧
    element_count_ s1' = element_count_ s2' ∧
    ∀ key value, search_element s1' key value = search_element s2' key value.
Proof.
  assert (reachable index_1_tall) as Htall
    by (exists coin_once, [OpInsert 1%Z "good"]; reflexivity).
  split; [exact index_1_reachable|]. split; [exact Htall|].
  split; [reflexivity|].
  apply (X9_levels_never_change_the_content coin_never coin_once index_1
           index_1_tall [OpInsert 3%Z "good"; OpDelete 1%Z]).
  - exact index_1_reachable.
  - exact Htall.
  - reflexivity.
Defined.

(** ** The store *)

Lemma kv_lookup_upsert k key value kvs :
  kv_lookup k (kv_upsert key value kvs)
  = if decide (k = key) then Some value else kv_lookup k kvs.
Proof.
  induction kvs as [|[k' v'] kvs IH]; simpl.
  - repeat case_decide; congruence.
  - repeat (case_decide; simpl; rewrite ?IH); congruence || lia.
Qed.

Lemma kv_lookup_remove k key kvs :
  kv_lookup k (kv_remove key kvs)
  = if decide (k = key) then None else kv_lookup k kvs.
Proof.
  unfold kv_remove. induction kvs as [|[k' v'] kvs IH]; simpl.
  - by case_decide.
  - rewrite filter_cons. simpl.
    repeat (case_decide; simpl); try congruence.
Qed.

Lemma get_Rep st l key value :
  Rep (skip_list_ st) l →
  get st key value
  = Some match kv_lookup key (entry_kv <$> l) with
         | Some v => (true, v)
         | None => (false, value)
         end.
Proof.
  intros HR. unfold get. rewrite kv_lookup_entries.
  by apply search_element_val_of.
Qed.

Lemma put_Rep g st l key value :
  Rep (skip_list_ st) l →
  ∃ st' g' l',
    put g st key value = Some (tt, st', g') ∧
    Rep (skip_list_ st') l' ∧ file_path_ st' = file_path_ st ∧
    entry_kv <$> l' = kv_upsert key value (entry_kv <$> l).
Proof.
  intros HR.
  destruct (insert_element_Rep g (skip_list_ st) l key value HR)
    as (s' & g' & l' & Hins & HR' & Hkv & _).
  exists (with_index st s'), g', l'. unfold put. rewrite Hins. done.
Qed.

Lemma del_Rep st l key :
  Rep (skip_list_ st) l →
  ∃ st' l',
    del st key = Some (tt, st') ∧
    Rep (skip_list_ st') l' ∧ file_path_ st' = file_path_ st ∧
    entry_kv <$> l' = kv_remove key (entry_kv <$> l).
Proof.
  intros HR.
  destruct (delete_element_Rep (skip_list_ st) l key HR)
    as (s' & Hdel & HR' & _).
  exists (with_index st s'), (removed key l). unfold del. rewrite Hdel.
  split; [done|]. split; [done|]. split; [done|]. apply kv_remove_removed.
Qed.

(** X10. [put] then [get]: after [put] of a key on a store whose index is
    reachable, [get] of that key returns [true] and the value put, and
    [get] of every other key answers as before; the file path of the store
    is unchanged. *)
Theorem X10_get_after_put (g : Gen) (st : KVStore) (key : Z)
    (value : string) :
  reachable (skip_list_ st) →
  ∃ st' g',
    put g st key value = Some (tt, st', g') ∧
    file_path_ st' = file_path_ st ∧
    ∀ k v0, get st' k v0
            = if decide (k = key) then Some (true, value) else get st k v0.
Proof.
  intros [l HR]%reachable_Inv.
  destruct (put_Rep g st l key value HR) as (st' & g' & l' & Hput & HR' & Hp & Hkv).
  exists st', g'. split; [done|]. split; [done|]. intros k v0.
  rewrite (get_Rep st' l' k v0 HR'), (get_Rep st l k v0 HR), Hkv.
  rewrite kv_lookup_upsert. by case_decide.
Qed.

Lemma X10_get_after_put_witness :
  reachable (skip_list_ store_1) ∧
  ∃ st' g',
    put coin_once store_1 9 "day" = Some (tt, st', g') ∧
    file_path_ st' = file_path_ store_1 ∧
    ∀ k v0, get st' k v0
            = if decide (k = 9%Z) then Some (true, "day")
              else get store_1 k v0.
Proof.
  split; [exact index_1_reachable|].
  apply (X10_get_after_put coin_once store_1 9 "day").
  exact index_1_reachable.
Defined.

(** X11. [del] then [get]: after [del] of a key on a store whose index is
    reachable, [get] of that key returns [false] and leaves the
    out-parameter alone, whether the key was stored or not, and [get] of
    every other key answers as before. *)
Theorem X11_get_after_del (st : KVStore) (key : Z) :
  reachable (skip_list_ st) →
  ∃ st',
    del st key = Some (tt, st') ∧
    file_path_ st' = file_path_ st ∧
    ∀ k v0, get st' k v0
            = if decide (k = key) then Some (false, v0) else get st k v0.
Proof.
  intros [l HR]%reachable_Inv.
  destruct (del_Rep st l key HR) as (st' & l' & Hdel & HR' & Hp & Hkv).
  exists st'. split; [done|]. split; [done|]. intros k v0.
  rewrite (get_Rep st' l' k v0 HR'), (get_Rep st l k v0 HR), Hkv.
  rewrite kv_lookup_remove. by case_decide.
Qed.

Lemma X11_get_after_del_witness :
  reachable (skip_list_ store_1) ∧
  ∃ st',
    del store_1 1 = Some (tt, st') ∧
    file_path_ st' = file_path_ store_1 ∧
    ∀ k v0, get st' k v0
            = if decide (k = 1%Z) then Some (false, v0)
              else get store_1 k v0.
Proof.
  split; [exact index_1_reachable|].
  apply (X11_get_after_del store_1 1). exact index_1_reachable.
Defined.

(** X12. [clear] of the store forgets every key, and the next [dump]
    truncates the file of the store to the empty file: what was saved
    there before is gone as well. *)
Theorem X12_clear_then_dump_erases (st : KVStore) (w : World) :
  reachable (skip_list_ st) → file_path_ st ∉ unopenable w →
  ∃ st' w',
    store_clear st = Some (tt, st') ∧
    file_path_ st' = file_path_ st ∧
    (∀ k v0, get st' k v0 = Some (false, v0)) ∧
    dump st' w = Some (tt, st', w') ∧
    files w' !! file_path_ st = Some EmptyString ∧
    cerr w' = cerr w.
Proof.
  intros [l HR]%reachable_Inv Hopen.
  destruct (clear_spec _ l HR) as (s' & Hc & HR').
  exists (with_index st s'). eexists. unfold store_clear. rewrite Hc.
  split; [done|]. split; [done|]. split; [|split; [|split]].
  - intros k v0. by rewrite (get_Rep (with_index st s') [] k v0 HR').
  - unfold dump, open_out. cbn [with_index file_path_ skip_list_].
    rewrite decide_False by done.
    rewrite (process_all_spec s' [] HR'). done.
  - simpl. apply lookup_insert_eq.
  - done.
Qed.

Lemma X12_clear_then_dump_erases_witness :
  reachable (skip_list_ store_1) ∧
  (file_path_ store_1 ∉ unopenable empty_file) ∧
  ∃ st' w',
    store_clear store_1 = Some (tt, st') ∧
    file_path_ st' = file_path_ store_1 ∧
    (∀ k v0, get st' k v0 = Some (false, v0)) ∧
    dump st' empty_file = Some (tt, st', w') ∧
    files w' !! file_path_ store_1 = Some EmptyString ∧
    cerr w' = cerr empty_file.
Proof.
  split; [exact index_1_reachable|]. split; [apply not_elem_of_empty|].
  apply (X12_clear_then_dump_erases store_1 empty_file).
  - exact index_1_reachable.
  - apply not_elem_of_empty.
Defined.

(** ** Loading any file *)








(** ** Keys that are not numbers *)







(** ** Saving and releasing *)

Lemma dump_Rep st l w :
  Rep (skip_list_ st) l →
  dump st w
  = Some (tt, st,
          if decide (file_path_ st ∈ unopenable w)
          then write_cerr w (dump_error (file_path_ st))
          else mkWorld (<[file_path_ st :=
                            concat_lines (dump_line <$> (entry_kv <$> l))]>
                          (files w))
                       (unopenable w) (cerr w)).
Proof.
  intros HR. unfold dump, open_out. case_decide; [done|].
  rewrite (process_all_spec _ l HR). simpl. unfold write_file. simpl.
  by rewrite insert_insert_eq.
Qed.

Lemma SkipList_destroy_Rep s l : Rep s l → SkipList_destroy s = Some ∅.
Proof.
  intros HR. destruct (clear_spec s l HR) as (s' & Hc & HR').
  unfold SkipList_destroy. rewrite Hc. simpl. unfold free.
  destruct (rep_header s' [] HR') as (k & v & Hh).
  destruct (heap s' !! header_ s') as [hn|]; [|done]. simpl. f_equal.
  apply dom_empty_inv_L. rewrite dom_delete_L, (rep_dom s' [] HR'). simpl.
  set_solver.
Qed.

Lemma KVStore_destroy_Rep st l w w' :
  Rep (skip_list_ st) l → dump st w = Some (tt, st, w') →
  KVStore_destroy st w = Some (∅, w').
Proof.
  intros HR Hd. unfold KVStore_destroy. rewrite Hd. simpl.
  by rewrite (SkipList_destroy_Rep _ l HR).
Qed.

(** X15. [dump] leaves the store as it is and touches only its own file.
    When the file opens, its content becomes the lines of the traversal,
    in place of what it held, and nothing is written to [std::cerr]; when
    it does not open, no file changes and one message is written.  A
    second [dump] leaves the files as the first one made them. *)
Theorem X15_dump_replaces_its_file (st : KVStore) (w : World) :
  reachable (skip_list_ st) →
  ∃ kvs w' w'',
    process_all (skip_list_ st) = Some kvs ∧
    dump st w = Some (tt, st, w') ∧
    unopenable w' = unopenable w ∧
    (∀ p, p ≠ file_path_ st → files w' !! p = files w !! p) ∧
    (if decide (file_path_ st ∈ unopenable w)
     then files w' = files w ∧
          cerr w' = cerr w ++ [dump_error (file_path_ st)]
     else files w' !! file_path_ st
          = Some (concat_lines (dump_line <$> kvs)) ∧
          cerr w' = cerr w) ∧
    dump st w' = Some (tt, st, w'') ∧
    files w'' = files w'.
Proof.
  intros [l HR]%reachable_Inv. exists (entry_kv <$> l). eexists _, _.
  split; [by apply process_all_spec|].
  split; [by apply (dump_Rep st l)|].
  split; [|split; [|split; [|split; [by apply (dump_Rep st l)|]]]].
  - by case_decide.
  - intros p Hp. case_decide; [done|]. simpl. by rewrite lookup_insert_ne.
  - case_decide; [done|]. simpl. by rewrite lookup_insert_eq.
  - destruct (decide (file_path_ st ∈ unopenable w)) as [Hin|Hnin].
    + simpl. by rewrite decide_True.
    + simpl. rewrite decide_False by done. simpl.
      by rewrite insert_insert_eq.
Qed.

Lemma X15_dump_replaces_its_file_witness :
  reachable (skip_list_ store_1) ∧
  ∃ kvs w' w'',
    process_all (skip_list_ store_1) = Some kvs ∧
    dump store_1 mixed_file = Some (tt, store_1, w') ∧
    unopenable w' = unopenable mixed_file ∧
    (∀ p, p ≠ file_path_ store_1 → files w' !! p = files mixed_file !! p) ∧
    (if decide (file_path_ store_1 ∈ unopenable mixed_file)
     then files w' = files mixed_file ∧
          cerr w' = cerr mixed_file ++ [dump_error (file_path_ store_1)]
     else files w' !! file_path_ store_1
          = Some (concat_lines (dump_line <$> kvs)) ∧
          cerr w' = cerr mixed_file) ∧
    dump store_1 w' = Some (tt, store_1, w'') ∧
    files w'' = files w'.
Proof.
  split; [exact index_1_reachable|].
  apply (X15_dump_replaces_its_file store_1 mixed_file).
  exact index_1_reachable.
Defined.

(** X16. The destructors release every node.  [~SkipList] on a reachable
    index leaves nothing allocated; [~KVStore] does to the files and to
    [std::cerr] what [dump] does, also when the file does not open, and
    leaves nothing allocated either. *)
Theorem X16_destructors_release_every_node (st : KVStore) (w : World) :
  reachable (skip_list_ st) →
  SkipList_destroy (skip_list_ st) = Some ∅ ∧
  ∃ w', dump st w = Some (tt, st, w') ∧
        KVStore_destroy st w = Some (∅, w').
Proof.
  intros [l HR]%reachable_Inv.
  split; [by apply (SkipList_destroy_Rep _ l)|].
  eexists. split; [by apply (dump_Rep st l)|].
  apply (KVStore_destroy_Rep st l); [done|]. by apply dump_Rep.
Qed.

Lemma X16_destructors_release_every_node_witness :
  reachable (skip_list_ (mkKVStore index_137 "store/dumpFile")) ∧
  SkipList_destroy (skip_list_ (mkKVStore index_137 "store/dumpFile"))
  = Some ∅ ∧
  ∃ w', dump (mkKVStore index_137 "store/dumpFile") locked_file
        = Some (tt, mkKVStore index_137 "store/dumpFile", w') ∧
        KVStore_destroy (mkKVStore index_137 "store/dumpFile") locked_file
        = Some (∅, w').
Proof.
  split; [exact index_137_reachable|].
  apply (X16_destructors_release_every_node
           (mkKVStore index_137 "store/dumpFile") locked_file).
  exact index_137_reachable.
Defined.

(** ** Saved and loaded again *)



Lemma reload_Rep g path l w :
  StronglySorted key_lt l →
  Forall (λ kv, int_range kv.1 ∧ free_of newline kv.2) (entry_kv <$> l) →
  path ∉ unopenable w →
  files w !! path = Some (concat_lines (dump_line <$> (entry_kv <$> l))) →
  ∃ st' g' l',
    KVStore_new g path w = Some (st', g') ∧
    Rep (skip_list_ st') l' ∧ file_path_ st' = path ∧
    entry_kv <$> l' = entry_kv <$> l.
Proof.
  intros Hs Hall Hopen Hfile.
  assert (Forall (λ kv, free_of newline kv.2) (entry_kv <$> l)) as Hnl.
  { eapply Forall_impl; [exact Hall|]. by intros kv [_ ?]. }
  assert (Forall (λ kv, int_range kv.1) (entry_kv <$> l)) as Hint.
  { eapply Forall_impl; [exact Hall|]. by intros kv [? _]. }
  destruct (run_ops_Rep g SkipList_new [] (insert_of <$> (entry_kv <$> l))
              SkipList_new_Rep) as (s' & g' & l' & Hrun & HR' & Hv).
  exists (mkKVStore s' path), g', l'. split; [|split; [done|split; [done|]]].
  - unfold KVStore_new, load, open_in. cbn [file_path_ skip_list_].
    rewrite decide_False by done. rewrite Hfile.
    rewrite getlines_dump, load_lines by done. by rewrite Hrun.
  - apply sorted_val_of_eq; [apply HR'|done|].
    intros k. rewrite Hv.
    fold (bound_after (insert_of <$> (entry_kv <$> l)) k).
    by apply bound_after_inserts.
Qed.

(** X17. A store comes back after a restart: when every value is free of
    newlines and every key is in the range of [int], and the file opens,
    [~KVStore] followed by the constructor on the same path gives a store
    with the same traversal, on which every [get] answers as before; the
    old index is released and nothing is written to [std::cerr]. *)
Theorem X17_restart_restores_the_store (g : Gen) (st : KVStore) (w : World)
    (kvs : list (Z * string)) :
  reachable (skip_list_ st) →
  process_all (skip_list_ st) = Some kvs →
  Forall (λ kv, int_range kv.1 ∧ free_of newline kv.2) kvs →
  file_path_ st ∉ unopenable w →
  ∃ w' st' g',
    KVStore_destroy st w = Some (∅, w') ∧
    cerr w' = cerr w ∧
    KVStore_new g (file_path_ st) w' = Some (st', g') ∧
    file_path_ st' = file_path_ st ∧
    process_all (skip_list_ st') = Some kvs ∧
    ∀ k v0, get st' k v0 = get st k v0.
Proof.
  intros [l HR]%reachable_Inv Hkvs Hall Hopen.
  rewrite (process_all_spec _ l HR) in Hkvs. injection Hkvs as <-.
  pose proof (dump_Rep st l w HR) as Hdump.
  rewrite decide_False in Hdump by done.
  destruct (reload_Rep g (file_path_ st) l
              (mkWorld (<[file_path_ st :=
                            concat_lines (dump_line <$> (entry_kv <$> l))]>
                          (files w)) (unopenable w) (cerr w)))
    as (st' & g' & l' & Hnew & HR' & Hp & Hkv);
    [apply HR|done|done|apply lookup_insert_eq|].
  eexists _, st', g'.
  split; [by apply (KVStore_destroy_Rep st l)|]. split; [done|].
  split; [done|]. split; [done|]. split.
  - by rewrite (process_all_spec _ l' HR'), Hkv.
  - intros k v0. by rewrite (get_Rep st' l' k v0 HR'), (get_Rep st l k v0 HR), Hkv.
Qed.

Lemma X17_restart_restores_the_store_witness :
  reachable (skip_list_ (mkKVStore index_137 "store/dumpFile")) ∧
  process_all (skip_list_ (mkKVStore index_137 "store/dumpFile"))
  = Some [(1%Z, "good"); (3%Z, "good"); (7%Z, "study")] ∧
  Forall (λ kv : Z * string, int_range kv.1 ∧ free_of newline kv.2)
         [(1%Z, "good"); (3%Z, "good"); (7%Z, "study")] ∧
  (file_path_ (mkKVStore index_137 "store/dumpFile")
   ∉ unopenable mixed_file) ∧
  ∃ w' st' g',
    KVStore_destroy (mkKVStore index_137 "store/dumpFile") mixed_file
    = Some (∅, w') ∧
    cerr w' = cerr mixed_file ∧
    KVStore_new coin_never "store/dumpFile" w' = Some (st', g') ∧
    file_path_ st' = "store/dumpFile" ∧
    process_all (skip_list_ st')
    = Some [(1%Z, "good"); (3%Z, "good"); (7%Z, "study")] ∧
    ∀ k v0, get st' k v0
            = get (mkKVStore index_137 "store/dumpFile") k v0.
Proof.
  assert (Forall (λ kv : Z * string, int_range kv.1 ∧ free_of newline kv.2)
                 [(1%Z, "good"); (3%Z, "good"); (7%Z, "study")]) as Hall.
  { repeat constructor; unfold int_range, INT_MIN, INT_MAX; simpl; lia. }
  split; [exact index_137_reachable|]. split; [reflexivity|].
  split; [exact Hall|]. split; [apply not_elem_of_empty|].
  apply (X17_restart_restores_the_store coin_never
           (mkKVStore index_137 "store/dumpFile") mixed_file
           [(1%Z, "good"); (3%Z, "good"); (7%Z, "study")]).
  - exact index_137_reachable.
  - reflexivity.
  - exact Hall.
  - apply not_elem_of_empty.
Defined.

(** ** What a file can hold *)









(** ** The run of [main] *)





(** ** The node of a new key *)

(** X20. [insert_element] of a key that is not stored allocates one node,
    at an address that was free, with the key, the value and the level
    [get_random_level] draws, and with one successor slot for each level up
    to that one.  The current level becomes the greater of its old value
    and the level drawn, and every node that was stored stays at its
    address with its key, value and level. *)
Theorem X20_insert_allocates_at_drawn_level (g g' : Gen) (s : SkipList)
    (key : Z) (value : string) (rl : nat) :
  reachable s → key_absent s key → get_random_level g = Some (rl, g') →
  ∃ s' fw,
    insert_element g s key value = Some (true, s', g') ∧
    heap s !! fresh (dom (heap s)) = None ∧
    heap s' !! fresh (dom (heap s)) = Some (mkNode key value rl fw) ∧
    length fw = S rl ∧
    dom (heap s') = {[fresh (dom (heap s))]} ∪ dom (heap s) ∧
    current_level_ s' = current_level_ s `max` rl ∧
    ∀ a n, heap s !! a = Some n → a ≠ header_ s →
           ∃ n', heap s' !! a = Some n' ∧ key_ n' = key_ n ∧
                 value_ n' = value_ n ∧ node_level_ n' = node_level_ n.
Proof.
  intros [l HR]%reachable_Inv Habs Hg.
  pose proof (key_absent_Rep s l key HR Habs) as Hnone.
  destruct (get_random_level_bound g) as (rl' & g'' & Hg' & Hrl).
  rewrite Hg in Hg'. injection Hg' as <- <-.
  destruct (insert_element_new s l HR key value rl Hrl Hnone g g' Hg)
    as (s' & Hins & HR' & Hh & Hcl & _).
  pose proof (inserted_elem_of s l HR key value rl) as Hin.
  destruct (rep_node s' _ HR' (mkEntry (fresh (dom (heap s))) key value rl))
    as (fw & Hfw & Hlen); [apply Hin; by left|].
  exists s', fw. split; [done|].
  split; [|split; [done|split; [done|split; [|split]]]].
  - apply not_elem_of_dom, is_fresh.
  - set (new := fresh (dom (heap s))) in *.
    rewrite (rep_dom s' _ HR'), (rep_dom s l HR), Hh. apply set_eq.
    intros a. rewrite !elem_of_union, !elem_of_singleton.
    rewrite !elem_of_list_to_set, !list_elem_of_fmap. split.
    + intros [->|(e & -> & [->|He]%Hin)]; [right; by left|by left|].
      right; right. by exists e.
    + intros [->|[->|(e & -> & He)]]; [|by left|].
      * right. eexists. split; [|apply Hin; by left]. done.
      * right. exists e. split; [done|]. apply Hin. by right.
  - rewrite Hcl. unfold raised_level. case_decide; lia.
  - intros a n Hn Ha.
    assert (a ∈ dom (heap s)) as Hd by (apply elem_of_dom; eauto).
    rewrite (rep_dom s l HR) in Hd.
    apply elem_of_union in Hd as [Hd%elem_of_singleton|Hd]; [done|].
    apply elem_of_list_to_set, list_elem_of_fmap in Hd as (e & -> & He).
    destruct (rep_node s l HR e He) as (fw0 & Hfw0 & _).
    destruct (rep_node s' _ HR' e) as (fw1 & Hfw1 & _); [apply Hin; by right|].
    rewrite Hfw0 in Hn. injection Hn as <-. by eexists.
Qed.

Lemma X20_insert_allocates_at_drawn_level_witness :
  reachable index_137 ∧ key_absent index_137 5 ∧
  get_random_level coin_once = Some (1, coin_never) ∧
  ∃ s' fw,
    insert_element coin_once index_137 5 "five" = Some (true, s', coin_never) ∧
    heap index_137 !! fresh (dom (heap index_137)) = None ∧
    heap s' !! fresh (dom (heap index_137)) = Some (mkNode 5 "five" 1 fw) ∧
    length fw = 2 ∧
    dom (heap s') = {[fresh (dom (heap index_137))]} ∪ dom (heap index_137) ∧
    current_level_ s' = current_level_ index_137 `max` 1 ∧
    ∀ a n, heap index_137 !! a = Some n → a ≠ header_ index_137 →
           ∃ n', heap s' !! a = Some n' ∧ key_ n' = key_ n ∧
                 value_ n' = value_ n ∧ node_level_ n' = node_level_ n.
Proof.
  split; [exact index_137_reachable|].
  split; [exact key_absent_index_137|]. split; [reflexivity|].
  apply (X20_insert_allocates_at_drawn_level coin_once coin_never index_137
           5 "five" 1).
  - exact index_137_reachable.
  - exact key_absent_index_137.
  - reflexivity.
Defined.

(** ** Calls in another order, and calls at the same time *)

Lemma apply_op_commute k old op1 op2 k1 k2 :
  op_key op1 = Some k1 → op_key op2 = Some k2 → k1 ≠ k2 →
  apply_op k (apply_op k old op1) op2 = apply_op k (apply_op k old op2) op1.
Proof.
  intros H1 H2 Hne.
  destruct op1, op2; simpl in *; try done;
    injection H1 as ->; injection H2 as ->;
    repeat case_decide; congruence.
Qed.

(** X21. Two calls of [insert_element] or [delete_element] on different
    keys commute on a reachable index, with any coin flips: in either order
    they return and lead to the same traversal, the same count and the
    same result of every search. *)
Theorem X21_calls_on_different_keys_commute (g1 g2 : Gen) (s : SkipList)
    (op1 op2 : Op) (k1 k2 : Z) :
  reachable s → op_key op1 = Some k1 → op_key op2 = Some k2 → k1 ≠ k2 →
  ∃ sa ga sb gb,
    run_ops g1 s [op1; op2] = Some (sa, ga) ∧
    run_ops g2 s [op2; op1] = Some (sb, gb) ∧
    process_all sa = process_all sb ∧
    element_count_ sa = element_count_ sb ∧
    ∀ key value, search_element sa key value = search_element sb key value.
Proof.
  intros [l HR]%reachable_Inv H1 H2 Hne.
  destruct (run_ops_Rep g1 s l [op1; op2] HR) as (sa & ga & la & Hra & HRa & Hva).
  destruct (run_ops_Rep g2 s l [op2; op1] HR) as (sb & gb & lb & Hrb & HRb & Hvb).
  assert (∀ k, val_of k la = val_of k lb) as Hv.
  { intros k. rewrite Hva, Hvb. simpl. by apply (apply_op_commute _ _ _ _ k1 k2). }
  assert (entry_kv <$> la = entry_kv <$> lb) as Hkv
    by (apply sorted_val_of_eq; [apply HRa|apply HRb|done]).
  exists sa, ga, sb, gb. split; [done|]. split; [done|]. split; [|split].
  - by rewrite (process_all_spec sa la HRa), (process_all_spec sb lb HRb), Hkv.
  - rewrite (rep_count sa la HRa), (rep_count sb lb HRb).
    by rewrite (entry_kv_length la lb).
  - intros key value.
    by rewrite (search_element_val_of sa la), (search_element_val_of sb lb), Hv.
Qed.

Lemma X21_calls_on_different_keys_commute_witness :
  reachable index_137 ∧
  op_key (OpInsert 5 "five") = Some 5%Z ∧ op_key (OpDelete 3) = Some 3%Z ∧
  5%Z ≠ 3%Z ∧
  ∃ sa ga sb gb,
    run_ops coin_once index_137 [OpInsert 5 "five"; OpDelete 3]
    = Some (sa, ga) ∧
    run_ops coin_never index_137 [OpDelete 3; OpInsert 5 "five"]
    = Some (sb, gb) ∧
    process_all sa = process_all sb ∧
    element_count_ sa = element_count_ sb ∧
    ∀ key value, search_element sa key value = search_element sb key value.
Proof.
  split; [exact index_137_reachable|]. split; [reflexivity|].
  split; [reflexivity|]. split; [lia|].
  apply (X21_calls_on_different_keys_commute coin_once coin_never index_137
           (OpInsert 5 "five") (OpDelete 3) 5 3).
  - exact index_137_reachable.
  - reflexivity.
  - reflexivity.
  - lia.
Defined.

(** X22. [clear] takes no lock either.  On every reachable index that
    holds a key, whatever the state of the mutex, a thread inside
    [process_all] that has read the pointer to the first node is not
    waited for: [clear] runs, leaves the mutex as it is and releases that
    node, and the next step of the traversal reads released memory. *)
Theorem X22_clear_is_not_protected (sh : Shared) (key : Z) :
  reachable (index sh) → key_present (index sh) key →
  ∃ t sh',
    traverse_begin sh = Some t ∧
    is_Some (cursor t) ∧
    unlocked_clear sh = Some sh' ∧
    mutex_ sh' = mutex_ sh ∧
    traverse_step sh' t = None.
Proof.
  intros [l HR]%reachable_Inv Hp.
  destruct (key_present_Rep _ l key HR Hp) as [ec Hec].
  destruct l as [|e l']; [done|].
  destruct (clear_spec _ _ HR) as (s' & Hc & HR').
  destruct (clear_fields _ _ Hc) as (Hh & _).
  exists (mkTraversal (Some (e_addr e)) []), (mkShared s' (mutex_ sh)).
  split; [|split; [by eexists|split; [|split; [done|]]]].
  - unfold traverse_begin. rewrite (rep_fwd_header _ _ HR) by lia.
    by rewrite level_view_0.
  - unfold unlocked_clear. by rewrite Hc.
  - unfold traverse_step. cbn [cursor index].
    assert (heap s' !! e_addr e = None) as ->; [|done].
    apply not_elem_of_dom. rewrite (rep_dom s' [] HR'), Hh. simpl.
    pose proof (rep_fresh _ _ HR) as Hf. rewrite fmap_cons in Hf.
    rewrite not_elem_of_cons in Hf. set_solver.
Qed.

Lemma X22_clear_is_not_protected_witness :
  reachable (index (mkShared index_137 ExclusiveHeld)) ∧
  key_present (index (mkShared index_137 ExclusiveHeld)) 3 ∧
  ∃ t sh',
    traverse_begin (mkShared index_137 ExclusiveHeld) = Some t ∧
    is_Some (cursor t) ∧
    unlocked_clear (mkShared index_137 ExclusiveHeld) = Some sh' ∧
    mutex_ sh' = mutex_ (mkShared index_137 ExclusiveHeld) ∧
    traverse_step sh' t = None.
Proof.
  assert (key_present index_137 3) as Hp.
  { exists [1%Z; 3%Z; 7%Z]. split; [reflexivity|].
    rewrite !elem_of_cons. right. by left. }
  split; [exact index_137_reachable|]. split; [exact Hp|].
  apply (X22_clear_is_not_protected (mkShared index_137 ExclusiveHeld) 3).
  - exact index_137_reachable.
  - exact Hp.
Defined.
